(** * utec::algebra::Tensor: a shallow embedding of the three tensor headers

    The repository carries three versions of [utec::algebra::Tensor<T, Rank>]:

    - [include/utec/algebra/Tensor.h] (module [TensorH]): unchecked element
      access, exact-shape [+] and [-], broadcasting [*], strict [reshape],
      member [transpose_2d];
    - the header with [can_broadcast], [broadcast_index], the free functions
      [transpose_2d] and [matrix_product] (module [Part000]): unchecked
      access, broadcasting [+ - *], a [reshape] that resizes the buffer;
    - the header guarded by [PROG3_TENSOR_FINAL_PROJECT_V2025_01_TENSOR_H]
      (module [Checked]): bounds-checked element access, exact-shape
      arithmetic, strict [reshape].

    [size_t] is a 64-bit unsigned integer: it is modelled as [Z] and every
    multiplication and addition the code performs on it is wrapped modulo
    [2^64].  A [std::array<size_t, Rank>] is a [list Z] (of length [Rank]), a
    [std::vector<T>] a [list T].  Exceptions and undefined behaviour (reading
    or writing a vector out of range, dividing by zero) are results of the
    [outcome] monad.

    The variadic constructor of [include/utec/algebra/Tensor.h] multiplies
    its arguments as they are passed, before any conversion to [size_t]: an
    argument is an integer or a [double], the latter an IEEE 754 binary64
    value of [SpecFloat]. *)

From stdpp Require Import base numbers list strings pretty.
From Stdlib Require Import ZArith Lia.
From Stdlib Require SpecFloat.

Local Open Scope Z_scope.

(** ** size_t *)

Definition SIZE_BITS : Z := 64.

Definition wrap (x : Z) : Z := x mod 2 ^ SIZE_BITS.

(** ** Exceptions and undefined behaviour *)

Inductive exn : Type :=
  | runtime_error (what : string)
  | invalid_argument (what : string)
  | out_of_range (what : string).

Inductive outcome (A : Type) : Type :=
  | Ok (a : A)
  | Throw (e : exn)
  | Undefined.

Arguments Ok {A} a.
Arguments Throw {A} e.
Arguments Undefined {A}.

#[global] Instance outcome_ret : MRet outcome := λ A a, Ok a.

#[global] Instance outcome_bind : MBind outcome := λ A B f m,
  match m with
  | Ok a => f a
  | Throw e => Throw e
  | Undefined => Undefined
  end.

(** The result of a member function that may assign to the object: the
    object after the call with the returned value, or the object as it is
    when the exception leaves the function, or undefined behaviour. *)
Inductive result (S R : Type) : Type :=
  | Done (s : S) (r : R)
  | Raised (s : S) (e : exn)
  | Crashed.

Arguments Done {S R} s r.
Arguments Raised {S R} s e.
Arguments Crashed {S R}.

(** A call on a local object inside a larger computation. *)
Definition commit {S : Type} (r : result S ()) : outcome S :=
  match r with
  | Done s _ => Ok s
  | Raised _ e => Throw e
  | Crashed => Undefined
  end.

(** [for (size_t k = 0; k < n; ++k) body], threading the state [s]. *)
Fixpoint foldM {S : Type} (body : nat → S → outcome S) (ks : list nat) (s : S)
  : outcome S :=
  match ks with
  | [] => Ok s
  | k :: ks' => s' ← body k s; foldM body ks' s'
  end.

Definition for_loop {S : Type} (n : nat) (body : nat → S → outcome S) (s : S)
  : outcome S :=
  foldM body (seq 0 n) s.

(** [v[k]] on a [std::vector]: no bounds check, out of range is undefined. *)
Definition vec_read {T : Type} (v : list T) (k : Z) : outcome T :=
  match v !! Z.to_nat k with
  | Some x => Ok x
  | None => Undefined
  end.

(** [v[k] = x]. *)
Definition vec_write {T : Type} (v : list T) (k : Z) (x : T) : outcome (list T) :=
  if decide (Z.to_nat k < length v)%nat then Ok (<[Z.to_nat k := x]> v)
  else Undefined.

(** ** Arguments of a variadic constructor *)

(** [double] is IEEE 754 binary64: [DBL_MANT_DIG] and [DBL_MAX_EXP]. *)
Definition DBL_MANT_DIG : Z := 53.
Definition DBL_MAX_EXP : Z := 1024.

(** The [double] nearest to [m * 2^e]. *)
Definition double_of (m e : Z) : SpecFloat.spec_float :=
  SpecFloat.binary_normalize DBL_MANT_DIG DBL_MAX_EXP m e false.

(** An argument of a parameter pack [Dims... dims]: a value of an integer
    type, or a value of type [double]. *)
Inductive dim_arg : Type :=
  | Integral (z : Z)
  | Floating (x : SpecFloat.spec_float).

(** A finite floating-point value with its fractional part discarded. *)
Definition truncate (x : SpecFloat.spec_float) : option Z :=
  match x with
  | SpecFloat.S754_zero _ => Some 0
  | SpecFloat.S754_finite s m e =>
      Some (SpecFloat.cond_Zopp s (Z.shiftl (Z.pos m) e))
  | _ => None
  end.

(** Conversion of a [double] to [size_t]: the value is truncated; the
    behaviour is undefined when the truncated value is no [size_t]. *)
Definition double_to_size_t (x : SpecFloat.spec_float) : outcome Z :=
  match truncate x with
  | Some z => if decide (0 ≤ z < 2 ^ SIZE_BITS) then Ok z else Undefined
  | None => Undefined
  end.

(** Conversion of a [size_t] to [double]: the nearest value, ties to even. *)
Definition size_t_to_double (n : Z) : SpecFloat.spec_float := double_of n 0.

(** [static_cast<size_t>(d)] *)
Definition to_size_t (d : dim_arg) : outcome Z :=
  match d with
  | Integral z => Ok (wrap z)
  | Floating x => double_to_size_t x
  end.

(** [total *= d] on a [size_t total]: the two operands are converted to
    their common type ([size_t] for an integer [d], [double] for a
    [double]), multiplied there, and the product is converted back. *)
Definition times_assign (total : Z) (d : dim_arg) : outcome Z :=
  match d with
  | Integral z => Ok (wrap (total * wrap z))
  | Floating x =>
      double_to_size_t
        (SpecFloat.SFmul DBL_MANT_DIG DBL_MAX_EXP (size_t_to_double total) x)
  end.

(** [((total *= dims), ...)]: the pack is folded from left to right. *)
Fixpoint times_fold (total : Z) (dims : list dim_arg) : outcome Z :=
  match dims with
  | [] => Ok total
  | d :: dims' => total' ← times_assign total d; times_fold total' dims'
  end.

(** ** The element type *)

(** What the headers use of [T]: value initialisation [T{}] (also the seed
    [T sum = 0] of [matrix_product]) and the four arithmetic operators. *)
Class Numeric (T : Type) : Type := {
  zero : T;
  add : T → T → T;
  sub : T → T → T;
  mul : T → T → T;
  div : T → T → T
}.

(** Exact arithmetic: what the inverse law [(a + b) - b = a] needs. *)
Class ExactSub (T : Type) `{Numeric T} : Prop :=
  add_sub_cancel : ∀ a b : T, sub (add a b) b = a.

#[global] Instance Z_numeric : Numeric Z := {|
  zero := 0; add := Z.add; sub := Z.sub; mul := Z.mul; div := Z.quot
|}.

(** ** The tensor object *)

(** The two data members of every version of the class:
    [std::array<size_t, Rank>] ([_shape], [dimensions_], [shape_]) and
    [std::vector<T>] ([_data], [data_]). *)
Record Tensor (T : Type) : Type := mkTensor {
  shape_ : list Z;
  data_ : list T
}.

Arguments mkTensor {T} shape_ data_.
Arguments shape_ {T} t.
Arguments data_ {T} t.

(** [size()] *)
Definition size {T : Type} (t : Tensor T) : Z := Z.of_nat (length (data_ t)).

(** ** Output streams *)

(** What [os << ...] has put into a [std::ostream], oldest first: an
    element of type [T] (its text is produced by the [operator<<] of [T],
    which the headers do not define) or a string or character literal. *)
Inductive insertion (T : Type) : Type :=
  | Elem (x : T)
  | Text (s : string).

Arguments Elem {T} x.
Arguments Text {T} s.

Definition ostream (T : Type) : Type := list (insertion T).

(** The character ['\n']. *)
Definition newline : string := String (Ascii.ascii_of_nat 10) "".

(** ** Shape and index utilities shared by the three headers *)

(** [size_t total = 1; for (auto d : shape) total *= d;] *)
Definition total_size (shape : list Z) : Z :=
  fold_left (λ total d, wrap (total * d)) shape 1.

(** One round of the row-major loop, on the pair [(idx, stride)]:
    [idx += indices[i] * stride; stride *= shape[i];] *)
Definition index_step (p : Z * Z) (acc : Z * Z) : Z * Z :=
  (wrap (fst acc + wrap (fst p * snd acc)), wrap (snd acc * snd p)).

(** [compute_index] / [compute_flat_index]: the loop
    [for (size_t i = Rank; i-- > 0;)] visits the last axis first, which is
    the order in which [foldr] consumes the zipped arrays. *)
Definition compute_index (shape indices : list Z) : Z :=
  fst (foldr index_step (0, 1) (zip indices shape)).

(** The multi-index of a flat position:
    [for (int i = Rank - 1; i >= 0; --i) { idx[i] = rem % shape[i]; rem /= shape[i]; }]
    Returns the index array and what is left of [rem]; [%] and [/] by zero
    are undefined. *)
Fixpoint unflatten_loop (shape : list Z) (rem : Z) : outcome (list Z * Z) :=
  match shape with
  | [] => Ok ([], rem)
  | d :: shape' =>
      '(idx, rem') ← unflatten_loop shape' rem;
      if decide (d = 0) then Undefined
      else Ok (rem' `mod` d :: idx, rem' `div` d)
  end.

Definition unflatten (shape : list Z) (flat : Z) : outcome (list Z) :=
  p ← unflatten_loop shape flat; Ok (fst p).

(** [std::fill(data.begin(), data.end(), value)] *)
Definition fill_data {T : Type} (data : list T) (value : T) : list T :=
  replicate (length data) value.

(** [data.resize(n)] on a vector: keeps the first [n] elements and appends
    value-initialised ones up to length [n]. *)
Definition resize `{Numeric T} (data : list T) (n : Z) : list T :=
  take (Z.to_nat n) data ++ replicate (Z.to_nat n - length data)%nat zero.

(** [(dim_size == 1) ? 0 : i], applied along every axis. *)
Definition broadcast_index (i dim_size : Z) : Z :=
  if decide (dim_size = 1) then 0 else i.

Definition broadcast_indices (indices shape : list Z) : list Z :=
  zip_with broadcast_index indices shape.

(** ** include/utec/algebra/Tensor.h *)

Module TensorH.
Section ops.
Context {T : Type} `{Numeric T}.

(** [Tensor(const std::array<size_t, Rank>& shape)] *)
Definition Tensor_array (shape : list Z) : Tensor T :=
  mkTensor shape (resize [] (total_size shape)).

(** [Tensor(Dims... dims)]; the number of arguments is fixed by a
    [static_assert].  The shape holds the arguments converted to [size_t];
    the element count is the product of the arguments themselves. *)
Definition Tensor_dims (dims : list dim_arg) : outcome (Tensor T) :=
  shape ← mapM to_size_t dims;
  total ← times_fold 1 dims;
  Ok (mkTensor shape (resize [] total)).

(** [operator()], all four overloads: no bounds check. *)
Definition operator_call (t : Tensor T) (idxs : list Z) : outcome T :=
  vec_read (data_ t) (compute_index (shape_ t) idxs).

(** [t(idxs...) = v]: assignment through the reference that the
    non-const [operator()] returns. *)
Definition operator_call_assign (t : Tensor T) (idxs : list Z) (v : T)
  : result (Tensor T) () :=
  match vec_write (data_ t) (compute_index (shape_ t) idxs) v with
  | Ok data => Done (mkTensor (shape_ t) data) ()
  | Throw e => Raised t e
  | Undefined => Crashed
  end.

Definition shape (t : Tensor T) : list Z := shape_ t.

Definition fill (t : Tensor T) (value : T) : Tensor T :=
  mkTensor (shape_ t) (fill_data (data_ t) value).

(** [operator+] and [operator-]: the shapes must be equal. *)
Definition exact_op (what : string) (op : T → T → T) (a other : Tensor T)
  : outcome (Tensor T) :=
  if decide (shape_ a ≠ shape_ other) then Throw (invalid_argument what)
  else
    let result := Tensor_array (shape_ a) in
    data ← for_loop (length (data_ a))
      (λ i rdata,
         x ← vec_read (data_ a) (Z.of_nat i);
         y ← vec_read (data_ other) (Z.of_nat i);
         vec_write rdata (Z.of_nat i) (op x y))
      (data_ result);
    Ok (mkTensor (shape_ result) data).

Definition operator_plus : Tensor T → Tensor T → outcome (Tensor T) :=
  exact_op "Shapes incompatibles para suma" add.

Definition operator_minus : Tensor T → Tensor T → outcome (Tensor T) :=
  exact_op "Shapes incompatibles para resta" sub.

(** [operator*(const T& scalar)] *)
Definition operator_times_scalar (a : Tensor T) (scalar : T)
  : outcome (Tensor T) :=
  let result := Tensor_array (shape_ a) in
  data ← for_loop (length (data_ a))
    (λ i rdata,
       x ← vec_read (data_ a) (Z.of_nat i);
       vec_write rdata (Z.of_nat i) (mul x scalar))
    (data_ result);
  Ok (mkTensor (shape_ result) data).

(** The first loop of [operator*(const Tensor&)]: the result shape, or the
    exception at the first axis that cannot be broadcast. *)
Fixpoint result_shape_loop (sa sb : list Z) : outcome (list Z) :=
  match sa, sb with
  | a :: sa', b :: sb' =>
      r ← (if decide (a = b) then Ok a
           else if decide (a = 1) then Ok b
           else if decide (b = 1) then Ok a
           else Throw (invalid_argument "Shapes incompatibles para broadcasting"));
      rs ← result_shape_loop sa' sb';
      Ok (r :: rs)
  | _, _ => Ok []
  end.

(** [operator*(const Tensor& other)] *)
Definition operator_times (a other : Tensor T) : outcome (Tensor T) :=
  result_shape ← result_shape_loop (shape_ a) (shape_ other);
  let result := Tensor_array result_shape in
  let total := size result in
  data ← for_loop (Z.to_nat total)
    (λ flat rdata,
       idx ← unflatten result_shape (Z.of_nat flat);
       let idx_a := broadcast_indices idx (shape_ a) in
       let idx_b := broadcast_indices idx (shape_ other) in
       x ← operator_call a idx_a;
       y ← operator_call other idx_b;
       vec_write rdata (Z.of_nat flat) (mul x y))
    (data_ result);
  Ok (mkTensor result_shape data).

(** [reshape(const std::array<size_t, Rank>& new_shape)] *)
Definition reshape (t : Tensor T) (new_shape : list Z) : result (Tensor T) () :=
  let new_total := total_size new_shape in
  if decide (new_total ≠ size t) then
    Raised t (invalid_argument "Nuevo shape incompatible con cantidad de elementos")
  else Done (mkTensor new_shape (data_ t)) ().

(** [transpose_2d()], a member of rank-2 tensors only
    ([static_assert(Rank == 2)]). *)
Definition transpose_2d (t : Tensor T) : outcome (Tensor T) :=
  match shape_ t with
  | [rows; cols] =>
      let result := Tensor_array [cols; rows] in
      for_loop (Z.to_nat rows)
        (λ i result,
           for_loop (Z.to_nat cols)
             (λ j result,
                x ← operator_call t [Z.of_nat i; Z.of_nat j];
                commit (operator_call_assign result [Z.of_nat j; Z.of_nat i] x))
             result)
        result
  | _ => Undefined
  end.
End ops.
End TensorH.

(** ** The header with [can_broadcast], [transpose_2d] and [matrix_product] *)

Module Part000.

(** [can_broadcast], both overloads. *)
Fixpoint can_broadcast (a b : list Z) : bool :=
  match a, b with
  | x :: a', y :: b' =>
      if bool_decide (x ≠ y ∧ x ≠ 1 ∧ y ≠ 1) then false
      else can_broadcast a' b'
  | _, _ => true
  end.

(** The arguments [arr[0], ..., arr[N - 1]] that the rank-specific branches
    of [transpose_2d] and [matrix_product] pass on. *)
Definition args (N : nat) (arr : list Z) : list Z :=
  (λ d, arr !!! d) <$> seq 0 N.

(** The ranks for which [transpose_2d] and [matrix_product] have an
    [if constexpr] branch. *)
Definition has_branch (N : nat) : bool :=
  bool_decide (N = 2%nat ∨ N = 3%nat ∨ N = 4%nat).

Section ops.
Context {T : Type} `{Numeric T}.

Definition compute_flat_index (t : Tensor T) (indices : list Z) : Z :=
  compute_index (shape_ t) indices.

(** [Tensor(Dims... dims)]: the number of arguments is checked when the
    constructor runs. *)
Definition Tensor_dims (N : nat) (dims : list Z) : outcome (Tensor T) :=
  if decide (length dims ≠ N) then
    Throw (runtime_error ("Number of dimensions do not match with " +:+ pretty N))
  else Ok (mkTensor dims (resize [] (total_size dims))).

(** [explicit Tensor(const std::array<size_t, N>& dims)] *)
Definition Tensor_array (dims : list Z) : Tensor T :=
  mkTensor dims (resize [] (total_size dims)).

(** [Tensor()] *)
Definition Tensor_default (N : nat) : Tensor T :=
  mkTensor (replicate N 1) (resize [] 1).

Definition shape (t : Tensor T) : list Z := shape_ t.

(** [operator()]: no bounds check. *)
Definition operator_call (t : Tensor T) (indices : list Z) : outcome T :=
  vec_read (data_ t) (compute_flat_index t indices).

(** [t(indices...) = v] *)
Definition operator_call_assign (t : Tensor T) (indices : list Z) (v : T)
  : result (Tensor T) () :=
  match vec_write (data_ t) (compute_flat_index t indices) v with
  | Ok data => Done (mkTensor (shape_ t) data) ()
  | Throw e => Raised t e
  | Undefined => Crashed
  end.

Definition fill (t : Tensor T) (value : T) : Tensor T :=
  mkTensor (shape_ t) (fill_data (data_ t) value).

(** [operator=(std::initializer_list<T> list)] *)
Definition operator_assign (t : Tensor T) (list : list T) : result (Tensor T) () :=
  if decide (length list ≠ length (data_ t)) then
    Raised t (runtime_error "Data size does not match tensor size")
  else Done (mkTensor (shape_ t) list) ().

(** [reshape(Dims... new_dims)]: the buffer follows the new element count. *)
Definition reshape (N : nat) (t : Tensor T) (new_dims : list Z)
  : result (Tensor T) () :=
  if decide (length new_dims ≠ N) then
    Raised t (runtime_error ("Number of dimensions do not match with " +:+ pretty N))
  else
    let new_total := total_size new_dims in
    let data :=
      if decide (size t < new_total) then resize (data_ t) new_total
      else data_ t in
    Done (mkTensor new_dims (resize data new_total)) ().

(** [operator+], [operator-], [operator*] on two tensors: the same body
    around the operator [op]. *)
Definition broadcast_op (op : T → T → T) (a other : Tensor T)
  : outcome (Tensor T) :=
  if negb (can_broadcast (shape_ a) (shape_ other)) then
    Throw (runtime_error
      "Shapes do not match and they are not compatible for broadcasting")
  else
    let result := Tensor_array (shape_ a) in
    data ← for_loop (length (data_ a))
      (λ i rdata,
         indices ← unflatten (shape_ a) (Z.of_nat i);
         let other_indices := broadcast_indices indices (shape_ other) in
         x ← vec_read (data_ a) (Z.of_nat i);
         y ← vec_read (data_ other) (compute_flat_index other other_indices);
         vec_write rdata (Z.of_nat i) (op x y))
      (data_ result);
    Ok (mkTensor (shape_ result) data).

Definition operator_plus : Tensor T → Tensor T → outcome (Tensor T) :=
  broadcast_op add.
Definition operator_minus : Tensor T → Tensor T → outcome (Tensor T) :=
  broadcast_op sub.
Definition operator_times : Tensor T → Tensor T → outcome (Tensor T) :=
  broadcast_op mul.

(** [Tensor result = *this; for (auto& x : result.data_) x op= scalar;] *)
Definition scalar_op (op : T → T → T) (t : Tensor T) (scalar : T) : Tensor T :=
  mkTensor (shape_ t) ((λ x, op x scalar) <$> data_ t).

Definition operator_plus_scalar : Tensor T → T → Tensor T := scalar_op add.
Definition operator_minus_scalar : Tensor T → T → Tensor T := scalar_op sub.
Definition operator_times_scalar : Tensor T → T → Tensor T := scalar_op mul.
Definition operator_div_scalar : Tensor T → T → Tensor T := scalar_op div.

(** [operator+(scalar, tensor)] and [operator*(scalar, tensor)].
    [operator-(scalar, tensor)] of this header has no embedding: its body is
    [for (auto& x : result.begin()) x = scalar - x;], a range-for over an
    iterator, which is ill-formed as soon as the template is instantiated. *)
Definition scalar_plus (scalar : T) (tensor : Tensor T) : Tensor T :=
  operator_plus_scalar tensor scalar.
Definition scalar_times (scalar : T) (tensor : Tensor T) : Tensor T :=
  operator_times_scalar tensor scalar.

(** The tensor the rank-specific branches construct: [Tensor(s[0], ...,
    s[N-1])] for ranks 2 to 4, the default-constructed [result] otherwise. *)
Definition result_tensor (N : nat) (s : list Z) : outcome (Tensor T) :=
  if has_branch N then Tensor_dims N (args N s) else Ok (Tensor_default N).

(** [transpose_2d(input)] *)
Definition transpose_2d (N : nat) (input : Tensor T) : outcome (Tensor T) :=
  if decide (N < 2)%nat then
    Throw (runtime_error "Cannot transpose 1D tensor: need at least 2 dimensions")
  else
    let shape := shape input in
    let new_shape :=
      <[(N - 2)%nat := shape !!! (N - 1)%nat]>
        (<[(N - 1)%nat := shape !!! (N - 2)%nat]> shape) in
    result ← result_tensor N new_shape;
    let total_elements := total_size shape in
    for_loop (Z.to_nat total_elements)
      (λ i result,
         idx ← unflatten shape (Z.of_nat i);
         let transposed_idx :=
           <[(N - 2)%nat := idx !!! (N - 1)%nat]>
             (<[(N - 1)%nat := idx !!! (N - 2)%nat]> idx) in
         if has_branch N then
           x ← operator_call input (args N idx);
           commit (operator_call_assign result (args N transposed_idx) x)
         else Ok result)
      result.

(** The inner loop of [matrix_product]: [T sum = 0; for (k ...) sum += ...]. *)
Definition dot_loop (N : nat) (A B : Tensor T) (idx : list Z) (K : Z)
  : outcome T :=
  for_loop (Z.to_nat K)
    (λ k sum,
       let a_idx := <[(N - 1)%nat := Z.of_nat k]> idx in
       let b_idx := <[(N - 2)%nat := Z.of_nat k]> idx in
       if has_branch N then
         x ← operator_call A (args N a_idx);
         y ← operator_call B (args N b_idx);
         Ok (add sum (mul x y))
       else Ok sum)
    zero.

Definition inner_message : string :=
  "Matrix dimensions are incompatible for multiplication".
Definition batch_message : string :=
  "Matrix dimensions are compatible for multiplication but batch dimensions do not match".

(** [matrix_product(A, B)] *)
Definition matrix_product (N : nat) (A B : Tensor T) : outcome (Tensor T) :=
  let a_shape := shape A in
  let b_shape := shape B in
  if decide (N < 2)%nat then Throw (runtime_error inner_message)
  else if decide (a_shape !!! (N - 1)%nat ≠ b_shape !!! (N - 2)%nat) then
    Throw (runtime_error inner_message)
  else if existsb (λ i, bool_decide (a_shape !!! i ≠ b_shape !!! i))
            (seq 0 (N - 2)) then
    Throw (runtime_error batch_message)
  else
    let result_shape :=
      <[(N - 2)%nat := a_shape !!! (N - 2)%nat]>
        (<[(N - 1)%nat := b_shape !!! (N - 1)%nat]> a_shape) in
    result ← result_tensor N result_shape;
    let total_elements := total_size result_shape in
    for_loop (Z.to_nat total_elements)
      (λ i result,
         idx ← unflatten result_shape (Z.of_nat i);
         sum ← dot_loop N A B idx (a_shape !!! (N - 1)%nat);
         if has_branch N then commit (operator_call_assign result (args N idx) sum)
         else Ok result)
      result.
(** [operator<<], the branch for [N == 1], which is repeated as the final
    [else]: the buffer between brackets, whatever the shape. *)
Definition insert_flat (os : ostream T) (tensor : Tensor T)
  : outcome (ostream T) :=
  os ← for_loop (length (data_ tensor))
    (λ i os,
       x ← vec_read (data_ tensor) (Z.of_nat i);
       let os := os ++ [Elem x] in
       Ok (if decide (wrap (Z.of_nat i + 1) < size tensor)
           then os ++ [Text ", "] else os))
    (os ++ [Text "["]);
  Ok (os ++ [Text "]"]).

(** [operator<<]: one branch for rank 1, one for rank 2, one for rank 3 and
    the rank-1 loop again for every other rank. *)
Definition operator_insert (N : nat) (os : ostream T) (tensor : Tensor T)
  : outcome (ostream T) :=
  let dims := shape_ tensor in
  if decide (N = 1%nat) then insert_flat os tensor
  else if decide (N = 2%nat) then
    os ← for_loop (Z.to_nat (dims !!! 0%nat))
      (λ i os,
         os ← for_loop (Z.to_nat (dims !!! 1%nat))
           (λ j os,
              x ← vec_read (data_ tensor)
                    (wrap (wrap (Z.of_nat i * dims !!! 1%nat) + Z.of_nat j));
              let os := os ++ [Elem x] in
              Ok (if decide (wrap (Z.of_nat j + 1) < dims !!! 1%nat)
                  then os ++ [Text " "] else os))
           os;
         Ok (if decide (wrap (Z.of_nat i + 1) < dims !!! 0%nat)
             then os ++ [Text newline] else os))
      (os ++ [Text ("{" +:+ newline)]);
    Ok (os ++ [Text (newline +:+ "}")])
  else if decide (N = 3%nat) then
    os ← for_loop (Z.to_nat (dims !!! 0%nat))
      (λ i os,
         os ← for_loop (Z.to_nat (dims !!! 1%nat))
           (λ j os,
              os ← for_loop (Z.to_nat (dims !!! 2%nat))
                (λ k os,
                   let idx :=
                     wrap (wrap (wrap (wrap (Z.of_nat i * dims !!! 1%nat)
                                       * dims !!! 2%nat)
                                 + wrap (Z.of_nat j * dims !!! 2%nat))
                           + Z.of_nat k) in
                   x ← vec_read (data_ tensor) idx;
                   let os := os ++ [Elem x] in
                   Ok (if decide (wrap (Z.of_nat k + 1) < dims !!! 2%nat)
                       then os ++ [Text " "] else os))
                os;
              Ok (if decide (wrap (Z.of_nat j + 1) < dims !!! 1%nat)
                  then os ++ [Text newline] else os))
           (os ++ [Text ("{" +:+ newline)]);
         let os := os ++ [Text (newline +:+ "}")] in
         Ok (if decide (wrap (Z.of_nat i + 1) < dims !!! 0%nat)
             then os ++ [Text newline] else os))
      (os ++ [Text ("{" +:+ newline)]);
    Ok (os ++ [Text (newline +:+ "}")])
  else insert_flat os tensor.
End ops.
End Part000.

(** ** The header with bounds-checked access
    (guard [PROG3_TENSOR_FINAL_PROJECT_V2025_01_TENSOR_H]) *)

Module Checked.
Section ops.
Context {T : Type} `{Numeric T}.

(** [explicit Tensor(Dims... dims)]; arity fixed by a [static_assert]. *)
Definition Tensor_dims (dims : list Z) : Tensor T :=
  mkTensor dims (resize [] (total_size dims)).

(** [explicit Tensor(const ShapeType& shape)] *)
Definition Tensor_array (shape : list Z) : Tensor T :=
  mkTensor shape (resize [] (total_size shape)).

Definition shape (t : Tensor T) : list Z := shape_ t.

(** [reshape(const ShapeType& new_shape)] and the variadic overload that
    forwards to it. *)
Definition reshape (t : Tensor T) (new_shape : list Z) : result (Tensor T) () :=
  let new_total := total_size new_shape in
  if decide (new_total ≠ size t) then
    Raised t (invalid_argument "Total size of new shape does not match tensor size")
  else Done (mkTensor new_shape (data_ t)) ().

Definition fill (t : Tensor T) (value : T) : Tensor T :=
  mkTensor (shape_ t) (fill_data (data_ t) value).

(** [operator=(std::initializer_list<T> list)] *)
Definition operator_assign (t : Tensor T) (list : list T) : result (Tensor T) () :=
  if decide (length list ≠ length (data_ t)) then
    Raised t (invalid_argument "Data size does not match tensor size")
  else Done (mkTensor (shape_ t) list) ().

(** [Tensor result = *this; for (auto& elem : result.data_) elem op= scalar;]
    The header declares [operator*] on a scalar twice, by value and by
    const reference, so [tensor * scalar] and [scalar * tensor] are
    ambiguous calls there; they are not embedded. *)
Definition scalar_op (op : T → T → T) (t : Tensor T) (scalar : T) : Tensor T :=
  mkTensor (shape_ t) ((λ elem, op elem scalar) <$> data_ t).

Definition operator_plus_scalar : Tensor T → T → Tensor T := scalar_op add.
Definition operator_minus_scalar : Tensor T → T → Tensor T := scalar_op sub.
Definition operator_div_scalar : Tensor T → T → Tensor T := scalar_op div.

(** [friend operator+(T scalar, const Tensor& tensor)] *)
Definition scalar_plus (scalar : T) (tensor : Tensor T) : Tensor T :=
  operator_plus_scalar tensor scalar.

(** [friend operator-(T scalar, const Tensor& tensor)]:
    [for (auto& elem : result.data_) elem = scalar - elem;] *)
Definition scalar_minus (scalar : T) (tensor : Tensor T) : Tensor T :=
  mkTensor (shape_ tensor) ((λ elem, sub scalar elem) <$> data_ tensor).

(** One round of the loop of [operator()]: the bounds check, then the
    offset and stride updates. *)
Definition offset_step (p : Z * Z) (acc : outcome (Z * Z)) : outcome (Z * Z) :=
  '(offset, stride) ← acc;
  if decide (snd p ≤ fst p) then Throw (out_of_range "Index out of range")
  else Ok (wrap (offset + wrap (fst p * stride)), wrap (stride * snd p)).

(** The loop [for (int i = Rank - 1; i >= 0; --i)] of [operator()]. *)
Definition offset_loop (t : Tensor T) (idx : list Z) : outcome Z :=
  p ← foldr offset_step (Ok (0, 1)) (zip idx (shape_ t)); Ok (fst p).

(** [operator()], both overloads. *)
Definition operator_call (t : Tensor T) (indices : list Z) : outcome T :=
  offset ← offset_loop t indices;
  vec_read (data_ t) offset.

(** [t(indices...) = v] *)
Definition operator_call_assign (t : Tensor T) (indices : list Z) (v : T)
  : result (Tensor T) () :=
  match offset ← offset_loop t indices; vec_write (data_ t) offset v with
  | Ok data => Done (mkTensor (shape_ t) data) ()
  | Throw e => Raised t e
  | Undefined => Crashed
  end.

(** [validate_shape_match(other)], then the loop of [operator+],
    [operator-] and [operator*] on two tensors: the same body around the
    operator [op]. *)
Definition exact_op (op : T → T → T) (a other : Tensor T) : outcome (Tensor T) :=
  if decide (shape_ a ≠ shape_ other) then
    Throw (invalid_argument
      "Shapes do not match and they are not compatible for broadcasting")
  else
    let result := Tensor_array (shape_ a) in
    data ← for_loop (length (data_ a))
      (λ i rdata,
         x ← vec_read (data_ a) (Z.of_nat i);
         y ← vec_read (data_ other) (Z.of_nat i);
         vec_write rdata (Z.of_nat i) (op x y))
      (data_ result);
    Ok (mkTensor (shape_ result) data).

Definition operator_plus : Tensor T → Tensor T → outcome (Tensor T) :=
  exact_op add.
Definition operator_minus : Tensor T → Tensor T → outcome (Tensor T) :=
  exact_op sub.
Definition operator_times : Tensor T → Tensor T → outcome (Tensor T) :=
  exact_op mul.

(** [slice_shape]: the shape without its first axis. *)
Definition slice_shape (shape : list Z) : list Z := drop 1 shape.

(** [print_tensor<N>]: rank 1 writes the [shape[0]] elements from [offset]
    on, each followed by a blank; a higher rank writes, between braces, the
    [shape[0]] blocks of [block] elements, each followed by a line break.
    [depth] is passed on and never read.  At rank 0 the function reads
    [shape[0]] of an empty array. *)
Fixpoint print_tensor (os : ostream T) (data : list T) (shape : list Z)
    (depth : Z) (offset : Z) {struct shape} : outcome (ostream T) :=
  match shape with
  | [] => Undefined
  | [d] =>
      for_loop (Z.to_nat d)
        (λ i os,
           x ← vec_read data (wrap (offset + Z.of_nat i));
           Ok (os ++ [Elem x; Text " "]))
        os
  | d :: rest =>
      let block :=
        fold_left (λ block s, wrap (block * s)) (drop 1 (d :: rest)) 1 in
      os ← for_loop (Z.to_nat d)
        (λ i os,
           os ← print_tensor os data (slice_shape (d :: rest)) (depth + 1)
                  (wrap (offset + wrap (Z.of_nat i * block)));
           Ok (os ++ [Text newline]))
        (os ++ [Text ("{" +:+ newline)]);
      Ok (os ++ [Text "}"])
  end.

(** [operator<<] *)
Definition operator_insert (os : ostream T) (t : Tensor T)
  : outcome (ostream T) :=
  print_tensor os (data_ t) (shape_ t) 0 0.
End ops.
End Checked.

(** ** Specification vocabulary *)

(** The product of the axis sizes, without wrap-around. *)
Definition product (shape : list Z) : Z := foldr Z.mul 1 shape.

(** The row-major offset [Σ idx[a] * stride[a]], without wrap-around. *)
Fixpoint offset_of (shape indices : list Z) : Z :=
  match indices, shape with
  | i :: indices', d :: shape' => i * product shape' + offset_of shape' indices'
  | _, _ => 0
  end.

(** [0 <= idx[a] < shape[a]] on every axis. *)
Definition in_bounds (shape indices : list Z) : Prop :=
  Forall2 (λ i d, 0 ≤ i < d) indices shape.

#[global] Instance in_bounds_dec (shape indices : list Z) :
  Decision (in_bounds shape indices).
Proof. unfold in_bounds. apply _. Defined.

(** A tensor of rank [N] as the class keeps it: [N] axis sizes (unsigned)
    and a buffer of exactly [product shape] elements, a count that fits
    [size_t]. *)
Record wf {T : Type} (N : nat) (t : Tensor T) : Prop := mk_wf {
  wf_rank : length (shape_ t) = N;
  wf_dims : Forall (λ d, 0 ≤ d) (shape_ t);
  wf_size : size t = product (shape_ t);
  wf_fits : product (shape_ t) < 2 ^ SIZE_BITS
}.

(** The element of [t] at a multi-index, when there is one. *)
Definition elem {T : Type} (t : Tensor T) (indices : list Z) : option T :=
  data_ t !! Z.to_nat (offset_of (shape_ t) indices).

(** The broadcast shape [max(sa[a], sb[a])]. *)
Definition max_shape (sa sb : list Z) : list Z := zip_with Z.max sa sb.

(** Per-axis compatibility: equal, or one of the two is 1. *)
Definition compatible (sa sb : list Z) : Prop :=
  Forall2 (λ a b, a = b ∨ a = 1 ∨ b = 1) sa sb.

(** [r] has the shape of [t] and, at every position, [f] of the element of
    [t] there. *)
Definition pointwise {T : Type} (f : T → T) (t r : Tensor T) : Prop :=
  shape_ r = shape_ t
  ∧ length (data_ r) = length (data_ t)
  ∧ ∀ k x, data_ t !! k = Some x → data_ r !! k = Some (f x).

(** A computation that does not end in an exception. *)
Definition no_throw {A : Type} (m : outcome A) : Prop := ∀ e, m ≠ Throw e.

(** The element of [b] that the broadcasting operators pair with flat
    position [k] of a tensor of shape [sa]: the one at the multi-index of
    [k] in [sa], with every size-1 axis of [b] mapped to 0. *)
Definition partner {T : Type} (sa : list Z) (b : Tensor T) (k : nat) : option T :=
  match unflatten sa (Z.of_nat k) with
  | Ok idx => elem b (broadcast_indices idx (shape_ b))
  | _ => None
  end.

(** Every axis has at least one entry (invariant 3 of the data model). *)
Definition positive_dims {T : Type} (t : Tensor T) : Prop :=
  Forall (λ d, 1 ≤ d) (shape_ t).

(** The broadcast shape as [operator*] of [include/utec/algebra/Tensor.h]
    chooses it: the common size, or the size that is not 1. *)
Definition times_shape (sa sb : list Z) : list Z :=
  zip_with (λ a b, if decide (a = b) then a else if decide (a = 1) then b else a)
    sa sb.

(** [r] is the transpose of the rank-2 tensor [t]: the shape reversed and
    the element at [(j, i)] that of [t] at [(i, j)]. *)
Definition is_transpose {T : Type} (t r : Tensor T) : Prop :=
  ∃ rows cols,
    shape_ t = [rows; cols] ∧ shape_ r = [cols; rows]
    ∧ ∀ i j, 0 ≤ i < rows → 0 ≤ j < cols → elem r [j; i] = elem t [i; j].

(** The sum of [f 0], ..., [f (K - 1)], accumulated in this order from the
    additive identity. *)
Fixpoint sum_upto `{Numeric T} (f : nat → option T) (K : nat) : option T :=
  match K with
  | O => Some zero
  | S K' => s ← sum_upto f K'; x ← f K'; Some (add s x)
  end.

(** [A(batch..., i, k) * B(batch..., k, j)] for the output index
    [idx = (batch..., i, j)] of a rank-[N] product. *)
Definition matmul_term `{Numeric T} (N : nat) (A B : Tensor T) (idx : list Z)
    (k : nat) : option T :=
  x ← elem A (<[(N - 1)%nat := Z.of_nat k]> idx);
  y ← elem B (<[(N - 2)%nat := Z.of_nat k]> idx);
  Some (mul x y).

(** The batch axes followed by [a[N-2], b[N-1]]. *)
Definition matmul_shape (N : nat) (a b : list Z) : list Z :=
  take (N - 2) a ++ [a !!! (N - 2)%nat; b !!! (N - 1)%nat].

(** Every axis of [sb] has the size of the same axis of [sa], or size 1:
    broadcasting [sb] against [sa] gives [sa]. *)
Definition broadcasts_into (sb sa : list Z) : Prop :=
  Forall2 (λ a b, b = a ∨ b = 1) sa sb.

(** An array with its entries [N - 1] and [N - 2] exchanged:
    [std::swap(arr[N - 1], arr[N - 2])]. *)
Definition swap_last2 (N : nat) (arr : list Z) : list Z :=
  <[(N - 2)%nat := arr !!! (N - 1)%nat]>
    (<[(N - 1)%nat := arr !!! (N - 2)%nat]> arr).

(** The elements put into a stream, in the order of their insertion. *)
Definition elements {T : Type} (os : ostream T) : list T :=
  omap (λ it, match it with Elem x => Some x | Text _ => None end) os.

(** The lists [ls] one after the other, with [sep] between neighbours. *)
Fixpoint join {A : Type} (sep : list A) (ls : list (list A)) : list A :=
  match ls with
  | [] => []
  | [l] => l
  | l :: ls' => l ++ sep ++ join sep ls'
  end.

(** The first [count] consecutive pieces of [len] entries of [l]. *)
Definition chunks {A : Type} (len count : nat) (l : list A) : list (list A) :=
  (λ i, take len (drop (i * len) l)) <$> seq 0 count.

(** The text of a buffer between brackets: [[a, b, c]]. *)
Definition render_flat {T : Type} (data : list T) : ostream T :=
  [Text "["] ++ join [Text ", "] ((λ x, [Elem x]) <$> data) ++ [Text "]"].

(** One row: its elements with a blank between neighbours. *)
Definition render_row {T : Type} (row : list T) : ostream T :=
  join [Text " "] ((λ x, [Elem x]) <$> row).

(** A matrix of [rows] rows of [cols] elements: an opening brace, the rows
    on a line each, a closing brace on a line of its own. *)
Definition render_matrix {T : Type} (rows cols : nat) (data : list T)
  : ostream T :=
  [Text ("{" +:+ newline)]
  ++ join [Text newline] (render_row <$> chunks cols rows data)
  ++ [Text (newline +:+ "}")].

(** [d0] matrices of [d1] rows of [d2] elements, between braces. *)
Definition render_cube {T : Type} (d0 d1 d2 : nat) (data : list T)
  : ostream T :=
  [Text ("{" +:+ newline)]
  ++ join [Text newline] (render_matrix d1 d2 <$> chunks (d1 * d2) d0 data)
  ++ [Text (newline +:+ "}")].

(** The text of a tensor of rank [N] in the broadcasting header. *)
Definition render {T : Type} (N : nat) (t : Tensor T) : ostream T :=
  let d (a : nat) := Z.to_nat (shape_ t !!! a) in
  if decide (N = 2%nat) then render_matrix (d 0%nat) (d 1%nat) (data_ t)
  else if decide (N = 3%nat) then
    render_cube (d 0%nat) (d 1%nat) (d 2%nat) (data_ t)
  else render_flat (data_ t).

(** The text of a buffer of shape [shape] in the bounds-checked header:
    along the last axis every element is followed by a blank; along every
    other axis the blocks stand between braces, each followed by a line
    break. *)
Fixpoint render_nested {T : Type} (shape : list Z) (data : list T)
  : ostream T :=
  match shape with
  | [] => []
  | [_] => concat ((λ x, [Elem x; Text " "]) <$> data)
  | d :: shape' =>
      [Text ("{" +:+ newline)]
      ++ concat ((λ block, render_nested shape' block ++ [Text newline])
                   <$> chunks (Z.to_nat (product shape')) (Z.to_nat d) data)
      ++ [Text "}"]
  end.

(** The class invariant as the constructors establish it: the buffer holds
    as many elements as the code's own product of the shape. *)
Definition inv {T : Type} (N : nat) (t : Tensor T) : Prop :=
  length (shape_ t) = N ∧ size t = total_size (shape_ t).

(** ** Construction paths and mutating operations *)

Section lifecycle.
Context {T : Type} `{Numeric T} (N : nat).

(** Every way of constructing a [Tensor<T, N>] in the three headers, the
    dimensions being given as integers.  An argument of type
    [std::array<size_t, N>] has [N] entries, and so has a parameter pack
    whose size a [static_assert] fixes. *)
Inductive constructed : Tensor T → Prop :=
  | constructed_H_array shape :
      length shape = N → constructed (TensorH.Tensor_array shape)
  | constructed_H_dims dims t :
      length dims = N → TensorH.Tensor_dims (Integral <$> dims) = Ok t →
      constructed t
  | constructed_000_dims dims t :
      Part000.Tensor_dims N dims = Ok t → constructed t
  | constructed_000_array dims :
      length dims = N → constructed (Part000.Tensor_array dims)
  | constructed_000_default :
      constructed (Part000.Tensor_default N)
  | constructed_C_dims dims :
      length dims = N → constructed (Checked.Tensor_dims dims)
  | constructed_C_array shape :
      length shape = N → constructed (Checked.Tensor_array shape).

(** The object a call leaves behind, returned normally or by exception. *)
Inductive leaves : result (Tensor T) () → Tensor T → Prop :=
  | leaves_done t r : leaves (Done t r) t
  | leaves_raised t e : leaves (Raised t e) t.

(** The tensors a program can hold: a constructed one, then any sequence
    of [fill], indexed writes, flat-literal assignments and [reshape]s. *)
Inductive reachable : Tensor T → Prop :=
  | reach_constructed t :
      constructed t → reachable t
  | reach_H_fill t v :
      reachable t → reachable (TensorH.fill t v)
  | reach_000_fill t v :
      reachable t → reachable (Part000.fill t v)
  | reach_C_fill t v :
      reachable t → reachable (Checked.fill t v)
  | reach_H_write t idxs v t' :
      reachable t → leaves (TensorH.operator_call_assign t idxs v) t' →
      reachable t'
  | reach_000_write t idxs v t' :
      reachable t → leaves (Part000.operator_call_assign t idxs v) t' →
      reachable t'
  | reach_C_write t idxs v t' :
      reachable t → leaves (Checked.operator_call_assign t idxs v) t' →
      reachable t'
  | reach_000_assign t list t' :
      reachable t → leaves (Part000.operator_assign t list) t' →
      reachable t'
  | reach_C_assign t list t' :
      reachable t → leaves (Checked.operator_assign t list) t' →
      reachable t'
  | reach_H_reshape t new_shape t' :
      reachable t → length new_shape = N →
      leaves (TensorH.reshape t new_shape) t' → reachable t'
  | reach_000_reshape t new_dims t' :
      reachable t → leaves (Part000.reshape N t new_dims) t' →
      reachable t'
  | reach_C_reshape t new_shape t' :
      reachable t → length new_shape = N →
      leaves (Checked.reshape t new_shape) t' → reachable t'.
End lifecycle.

(** * Proofs *)

(** ** Arithmetic modulo [2^64] *)

Lemma wrap_range x : 0 ≤ wrap x < 2 ^ SIZE_BITS.
Proof. unfold wrap. apply Z.mod_pos_bound. reflexivity. Qed.

Lemma wrap_small x : 0 ≤ x < 2 ^ SIZE_BITS → wrap x = x.
Proof. intros Hx. unfold wrap. by apply Z.mod_small. Qed.

Lemma wrap_mul_l a b : wrap (wrap a * b) = wrap (a * b).
Proof. unfold wrap. apply Zmult_mod_idemp_l. Qed.

Lemma wrap_mul_r a b : wrap (a * wrap b) = wrap (a * b).
Proof. unfold wrap. apply Zmult_mod_idemp_r. Qed.

Lemma wrap_add_l a b : wrap (wrap a + b) = wrap (a + b).
Proof. unfold wrap. apply Zplus_mod_idemp_l. Qed.

Lemma wrap_add_r a b : wrap (a + wrap b) = wrap (a + b).
Proof. unfold wrap. apply Zplus_mod_idemp_r. Qed.

#[global] Instance Z_exact : ExactSub Z.
Proof. intros a b. simpl. lia. Qed.

(** ** The outcome monad and its loops *)

Lemma bind_Ok {A B : Type} (m : outcome A) (f : A → outcome B) (b : B) :
  m ≫= f = Ok b ↔ ∃ a, m = Ok a ∧ f a = Ok b.
Proof.
  destruct m as [a| |]; simpl; split.
  - intros Hf. by exists a.
  - by intros (a' & [= <-] & Hf).
  - discriminate.
  - by intros (a' & ? & _).
  - discriminate.
  - by intros (a' & ? & _).
Qed.

Lemma bind_Ok_l {A B : Type} (a : A) (f : A → outcome B) : Ok a ≫= f = f a.
Proof. done. Qed.

(** The loop rule: an invariant [P k s] that holds before round [k] and is
    re-established by every round, each of which returns normally. *)
Lemma foldM_invariant {S : Type} (P : nat → S → Prop)
    (body : nat → S → outcome S) (len start : nat) (s : S) :
  P start s →
  (∀ k s, (start ≤ k < start + len)%nat → P k s →
          ∃ s', body k s = Ok s' ∧ P (Datatypes.S k) s') →
  ∃ s', foldM body (seq start len) s = Ok s' ∧ P (start + len)%nat s'.
Proof.
  revert start s. induction len as [|len IH]; intros start s HP Hbody; simpl.
  - exists s. split; [done|]. by rewrite Nat.add_0_r.
  - destruct (Hbody start s) as (s1 & -> & HP1); [lia|done|]. simpl.
    destruct (IH (Datatypes.S start) s1) as (s2 & -> & HP2); [done| |].
    + intros k s' Hk. apply Hbody. lia.
    + exists s2. split; [done|]. by replace (start + Datatypes.S len)%nat
        with (Datatypes.S start + len)%nat by lia.
Qed.

Lemma for_loop_invariant {S : Type} (P : nat → S → Prop)
    (body : nat → S → outcome S) (n : nat) (s : S) :
  P 0%nat s →
  (∀ k s, (k < n)%nat → P k s →
          ∃ s', body k s = Ok s' ∧ P (Datatypes.S k) s') →
  ∃ s', for_loop n body s = Ok s' ∧ P n s'.
Proof.
  intros HP Hbody.
  destruct (foldM_invariant P body n 0 s) as (s' & Hs' & HP'); [done| |by eauto].
  intros k s0 Hk. apply Hbody. lia.
Qed.

Lemma vec_read_Ok {T : Type} (v : list T) (k : Z) (x : T) :
  v !! Z.to_nat k = Some x → vec_read v k = Ok x.
Proof. unfold vec_read. by intros ->. Qed.

Lemma vec_write_Ok {T : Type} (v : list T) (k : Z) (x : T) :
  (Z.to_nat k < length v)%nat → vec_write v k x = Ok (<[Z.to_nat k := x]> v).
Proof. unfold vec_write. intros Hk. by rewrite decide_True. Qed.

Lemma vec_read_nat {T : Type} (v : list T) (k : nat) (x : T) :
  v !! k = Some x → vec_read v (Z.of_nat k) = Ok x.
Proof. intros Hx. apply vec_read_Ok. by rewrite Nat2Z.id. Qed.

Lemma vec_write_nat {T : Type} (v : list T) (k : nat) (x : T) :
  (k < length v)%nat → vec_write v (Z.of_nat k) x = Ok (<[k := x]> v).
Proof. intros Hk. rewrite vec_write_Ok; rewrite Nat2Z.id; done. Qed.

Lemma length_resize `{Numeric T} (data : list T) (n : Z) :
  length (resize data n) = Z.to_nat n.
Proof. unfold resize. rewrite length_app, length_take, length_replicate. lia. Qed.

Lemma resize_nil `{Numeric T} (n : Z) :
  resize (T:=T) [] n = replicate (Z.to_nat n) zero.
Proof. unfold resize. rewrite take_nil. simpl. f_equal. lia. Qed.

(** ** Element counts and row-major offsets *)

Lemma total_size_loop (shape : list Z) (acc : Z) :
  0 ≤ acc < 2 ^ SIZE_BITS →
  fold_left (λ total d, wrap (total * d)) shape acc = wrap (acc * product shape).
Proof.
  revert acc. induction shape as [|d shape IH]; intros acc Hacc; simpl.
  - by rewrite Z.mul_1_r, wrap_small.
  - rewrite IH by apply wrap_range. rewrite wrap_mul_l. f_equal. lia.
Qed.

(** The element count the constructors allocate is the product of the axis
    sizes, reduced modulo [2^64]. *)
Lemma total_size_wrap (shape : list Z) : total_size shape = wrap (product shape).
Proof.
  unfold total_size. rewrite total_size_loop by (split; [lia|reflexivity]).
  f_equal. lia.
Qed.

Lemma total_size_range (shape : list Z) : 0 ≤ total_size shape < 2 ^ SIZE_BITS.
Proof. rewrite total_size_wrap. apply wrap_range. Qed.

Lemma product_nonneg (shape : list Z) :
  Forall (λ d, 0 ≤ d) shape → 0 ≤ product shape.
Proof. induction 1; simpl; lia. Qed.

Lemma total_size_fits (shape : list Z) :
  0 ≤ product shape < 2 ^ SIZE_BITS → total_size shape = product shape.
Proof. intros Hfit. rewrite total_size_wrap. by apply wrap_small. Qed.

Lemma product_pos_dims (shape : list Z) :
  Forall (λ d, 0 ≤ d) shape → 0 < product shape → Forall (λ d, 0 < d) shape.
Proof.
  induction 1 as [|d shape Hd Hshape IH]; simpl; intros Hpos; constructor.
  - destruct (decide (d = 0)) as [->|]; lia.
  - apply IH. pose proof (product_nonneg shape Hshape).
    destruct (decide (product shape = 0)) as [Hz|]; [rewrite Hz in Hpos|]; lia.
Qed.

Lemma in_bounds_length (shape indices : list Z) :
  in_bounds shape indices → length indices = length shape.
Proof. apply Forall2_length. Qed.

Lemma offset_of_range (shape indices : list Z) :
  in_bounds shape indices → 0 ≤ offset_of shape indices < product shape.
Proof.
  induction 1 as [|i d indices shape Hi _ IH]; simpl; [lia|]. nia.
Qed.

Lemma index_loop_wrap (shape indices : list Z) :
  length indices = length shape →
  foldr index_step (0, 1) (zip indices shape)
  = (wrap (offset_of shape indices), wrap (product shape)).
Proof.
  revert shape. induction indices as [|i indices IH]; intros [|d shape] Hlen;
    simplify_eq/=; [done|].
  rewrite IH by done. unfold index_step; simpl.
  rewrite wrap_mul_r, wrap_add_l, wrap_add_r, wrap_mul_l.
  f_equal; f_equal; lia.
Qed.

(** [compute_index] is the row-major offset reduced modulo [2^64] ... *)
Lemma compute_index_wrap (shape indices : list Z) :
  length indices = length shape →
  compute_index shape indices = wrap (offset_of shape indices).
Proof. intros Hlen. unfold compute_index. by rewrite index_loop_wrap. Qed.

(** ... hence the offset itself for an index within the bounds of a shape
    whose element count fits [size_t]. *)
Lemma compute_index_in_bounds (shape indices : list Z) :
  in_bounds shape indices → product shape < 2 ^ SIZE_BITS →
  compute_index shape indices = offset_of shape indices.
Proof.
  intros Hin Hfit. rewrite compute_index_wrap by by apply in_bounds_length.
  apply wrap_small. pose proof (offset_of_range _ _ Hin). lia.
Qed.

(** ** Flat positions and multi-indices *)

Lemma unflatten_loop_offset (shape indices : list Z) (r : Z) :
  in_bounds shape indices → 0 ≤ r →
  unflatten_loop shape (offset_of shape indices + r * product shape)
  = Ok (indices, r).
Proof.
  intros Hin. revert r.
  induction Hin as [|i d indices shape Hi Hin IH]; intros r Hr; simpl.
  - f_equal. f_equal. lia.
  - replace (i * product shape + offset_of shape indices + r * (d * product shape))
      with (offset_of shape indices + (i + r * d) * product shape) by lia.
    rewrite IH by nia. simpl. rewrite decide_False by lia.
    rewrite Z.mod_add, Z.div_add, Z.mod_small, Z.div_small by lia.
    by rewrite Z.add_0_l.
Qed.

Lemma unflatten_loop_total (shape : list Z) (flat : Z) :
  Forall (λ d, 0 < d) shape → 0 ≤ flat →
  ∃ indices r, unflatten_loop shape flat = Ok (indices, r)
    ∧ in_bounds shape indices ∧ 0 ≤ r
    ∧ flat = offset_of shape indices + r * product shape.
Proof.
  intros Hpos Hflat.
  induction Hpos as [|d shape Hd Hpos IH]; simpl.
  - exists [], flat. repeat split; [constructor|lia|lia].
  - destruct IH as (indices & r & -> & Hin & Hr & Heq). simpl.
    rewrite decide_False by lia.
    exists (r `mod` d :: indices), (r `div` d). repeat split.
    + constructor; [|done]. apply Z.mod_pos_bound. lia.
    + apply Z.div_pos; lia.
    + pose proof (Z.div_mod r d). nia.
Qed.

(** Every flat position below the element count has a multi-index within
    bounds, of which it is the row-major offset. *)
Lemma unflatten_in_range (shape : list Z) (flat : Z) :
  Forall (λ d, 0 ≤ d) shape → 0 ≤ flat < product shape →
  ∃ indices, unflatten shape flat = Ok indices
    ∧ in_bounds shape indices ∧ offset_of shape indices = flat.
Proof.
  intros Hdims Hflat.
  destruct (unflatten_loop_total shape flat) as (indices & r & Hrun & Hin & Hr & Heq).
  { apply product_pos_dims; [done|lia]. }
  { lia. }
  exists indices. unfold unflatten. rewrite Hrun. simpl. repeat split; [done|].
  pose proof (offset_of_range _ _ Hin). 
  assert (r = 0) as -> by nia. lia.
Qed.

(** The multi-index of the offset of an index within bounds is that index. *)
Lemma unflatten_offset_of (shape indices : list Z) :
  in_bounds shape indices →
  unflatten shape (offset_of shape indices) = Ok indices.
Proof.
  intros Hin. unfold unflatten.
  pose proof (unflatten_loop_offset shape indices 0 Hin) as Hrun.
  rewrite Z.mul_0_l, Z.add_0_r in Hrun. by rewrite Hrun.
Qed.

(** Indices within bounds with the same offset are equal. *)
Lemma offset_of_inj (shape idx1 idx2 : list Z) :
  in_bounds shape idx1 → in_bounds shape idx2 →
  offset_of shape idx1 = offset_of shape idx2 → idx1 = idx2.
Proof.
  intros H1 H2 Heq. apply unflatten_offset_of in H1, H2.
  rewrite Heq in H1. congruence.
Qed.

(** ** Constructors *)

Section construction.
Context {T : Type} `{Numeric T}.

Lemma fresh_data_zero (n : Z) : Forall (λ x : T, x = zero) (resize [] n).
Proof. rewrite resize_nil. apply Forall_replicate. done. Qed.

Lemma fresh_size (shape : list Z) :
  Z.of_nat (length (resize (T:=T) [] (total_size shape))) = total_size shape.
Proof. rewrite length_resize. pose proof (total_size_range shape). lia. Qed.

Lemma total_size_ones (N : nat) : total_size (replicate N 1) = 1.
Proof.
  rewrite total_size_wrap.
  assert (product (replicate N 1) = 1) as ->.
  { induction N as [|N IH]; simpl; [done|]. rewrite IH. done. }
  reflexivity.
Qed.

Lemma to_size_t_integral (dims : list Z) :
  mapM to_size_t (Integral <$> dims) = Ok (wrap <$> dims).
Proof.
  induction dims as [|d dims IH]; [done|].
  cbn [fmap list_fmap mapM]. rewrite IH. done.
Qed.

Lemma times_fold_integral (dims : list Z) (total : Z) :
  times_fold total (Integral <$> dims)
  = Ok (fold_left (λ total d, wrap (total * d)) (wrap <$> dims) total).
Proof.
  revert total. induction dims as [|d dims IH]; intros total; [done|].
  cbn [fmap list_fmap times_fold times_assign fold_left].
  rewrite bind_Ok_l. apply IH.
Qed.

(** On integer arguments the variadic constructor of
    [include/utec/algebra/Tensor.h] builds what the array constructor
    builds from the converted arguments. *)
Lemma Tensor_dims_integral (dims : list Z) :
  TensorH.Tensor_dims (T:=T) (Integral <$> dims)
  = Ok (TensorH.Tensor_array (wrap <$> dims)).
Proof.
  unfold TensorH.Tensor_dims.
  by rewrite to_size_t_integral, bind_Ok_l, times_fold_integral.
Qed.

Lemma constructed_inv (N : nat) (t : Tensor T) : constructed N t → inv N t.
Proof.
  destruct 1 as [shape Hlen|dims t Hlen Hdims|dims t Hdims|dims Hlen|
                |dims Hlen|shape Hlen];
    try (split; [done|apply fresh_size]).
  - rewrite Tensor_dims_integral in Hdims. simplify_eq.
    split; [simpl; by rewrite length_fmap|apply fresh_size].
  - unfold Part000.Tensor_dims in Hdims. case_decide; simplify_eq.
    split; simpl; [lia|apply fresh_size].
  - split; simpl; [apply length_replicate|].
    unfold size; simpl. by rewrite total_size_ones.
Qed.

Lemma constructed_zero (N : nat) (t : Tensor T) :
  constructed N t → Forall (λ x, x = zero) (data_ t).
Proof.
  destruct 1 as [shape Hlen|dims t Hlen Hdims|dims t Hdims|dims Hlen|
                |dims Hlen|shape Hlen];
    try apply fresh_data_zero.
  - rewrite Tensor_dims_integral in Hdims. simplify_eq. apply fresh_data_zero.
  - unfold Part000.Tensor_dims in Hdims. case_decide; simplify_eq.
    apply fresh_data_zero.
Qed.
End construction.

(** ** Element access *)

Section access.
Context {T : Type} `{Numeric T}.

(** Within bounds, the checked loop computes what the unchecked one does. *)
Lemma offset_step_in_bounds (shape indices : list Z) :
  in_bounds shape indices →
  foldr Checked.offset_step (Ok (0, 1)) (zip indices shape)
  = Ok (foldr index_step (0, 1) (zip indices shape)).
Proof.
  induction 1 as [|i d indices shape Hi _ IH]; simpl; [done|].
  rewrite IH. destruct (foldr index_step (0, 1) (zip indices shape)) as [offset stride].
  unfold Checked.offset_step, index_step; simpl.
  rewrite decide_False by lia. done.
Qed.

(** An index array of [size_t]s that leaves the bounds on some axis makes
    the checked loop throw. *)
Lemma offset_step_out_of_bounds (shape indices : list Z) :
  length indices = length shape → Forall (λ i, 0 ≤ i) indices →
  ¬ in_bounds shape indices →
  foldr Checked.offset_step (Ok (0, 1)) (zip indices shape)
  = Throw (out_of_range "Index out of range").
Proof.
  revert shape. induction indices as [|i indices IH];
    intros [|d shape] Hlen Hpos Hout; simplify_eq/=.
  - destruct Hout. constructor.
  - apply Forall_cons in Hpos as [Hi Hpos].
    destruct (decide (in_bounds shape indices)) as [Hin|Hin].
    + rewrite offset_step_in_bounds by done.
      destruct (foldr index_step (0, 1) (zip indices shape)) as [offset stride].
      unfold Checked.offset_step; simpl.
      rewrite decide_True; [done|].
      destruct (decide (d ≤ i)); [done|]. destruct Hout. constructor; [lia|done].
    + by rewrite IH.
Qed.

Lemma checked_offset_in_bounds (t : Tensor T) (indices : list Z) :
  in_bounds (shape_ t) indices →
  Checked.offset_loop t indices = Ok (compute_index (shape_ t) indices).
Proof.
  intros Hin. unfold Checked.offset_loop, compute_index.
  by rewrite offset_step_in_bounds.
Qed.

Lemma checked_offset_out_of_bounds (t : Tensor T) (indices : list Z) :
  length indices = length (shape_ t) → Forall (λ i, 0 ≤ i) indices →
  ¬ in_bounds (shape_ t) indices →
  Checked.offset_loop t indices = Throw (out_of_range "Index out of range").
Proof.
  intros Hlen Hpos Hout. unfold Checked.offset_loop.
  by rewrite offset_step_out_of_bounds.
Qed.

(** In a well-formed tensor the offset of an index within bounds is a
    position of the buffer. *)
Lemma wf_offset_lt (N : nat) (t : Tensor T) (indices : list Z) :
  wf N t → in_bounds (shape_ t) indices →
  (Z.to_nat (offset_of (shape_ t) indices) < length (data_ t))%nat.
Proof.
  intros [_ _ Hsize _] Hin. pose proof (offset_of_range _ _ Hin).
  unfold size in Hsize. lia.
Qed.

Lemma wf_elem_is_Some (N : nat) (t : Tensor T) (indices : list Z) :
  wf N t → in_bounds (shape_ t) indices → is_Some (elem t indices).
Proof. intros Hwf Hin. apply lookup_lt_is_Some. by eapply wf_offset_lt. Qed.

(** All three [operator()]s read the element at the row-major offset of an
    index within bounds. *)
Lemma wf_operator_call_H (N : nat) (t : Tensor T) (indices : list Z) :
  wf N t → in_bounds (shape_ t) indices →
  ∃ x, elem t indices = Some x ∧ TensorH.operator_call t indices = Ok x.
Proof.
  intros Hwf Hin. destruct (wf_elem_is_Some N t indices) as [x Hx]; [done..|].
  exists x. split; [done|]. unfold TensorH.operator_call.
  rewrite compute_index_in_bounds by (done || apply Hwf). by apply vec_read_Ok.
Qed.

Lemma wf_operator_call_000 (N : nat) (t : Tensor T) (indices : list Z) :
  wf N t → in_bounds (shape_ t) indices →
  ∃ x, elem t indices = Some x ∧ Part000.operator_call t indices = Ok x.
Proof. apply wf_operator_call_H. Qed.

Lemma wf_operator_call_C (N : nat) (t : Tensor T) (indices : list Z) :
  wf N t → in_bounds (shape_ t) indices →
  ∃ x, elem t indices = Some x ∧ Checked.operator_call t indices = Ok x.
Proof.
  intros Hwf Hin. destruct (wf_operator_call_H N t indices) as (x & Hx & Hcall); [done..|].
  exists x. split; [done|]. unfold Checked.operator_call.
  by rewrite checked_offset_in_bounds.
Qed.

(** A freshly constructed tensor whose element count fits [size_t] is
    well formed. *)
Lemma inv_wf (N : nat) (t : Tensor T) :
  inv N t → Forall (λ d, 0 ≤ d) (shape_ t) →
  product (shape_ t) < 2 ^ SIZE_BITS → wf N t.
Proof.
  intros [Hlen Hsize] Hdims Hfit. split; [done..| |done].
  rewrite Hsize. apply total_size_fits. split; [|done].
  by apply product_nonneg.
Qed.

Lemma in_bounds_dims_nonneg (shape indices : list Z) :
  in_bounds shape indices → Forall (λ d, 0 ≤ d) shape.
Proof. induction 1; constructor; [lia|done]. Qed.
End access.

(** Well-formedness of a tensor given by explicit lists. *)
Ltac wf_by_computation :=
  split; [reflexivity | repeat constructor; lia | reflexivity | reflexivity].

(** ** Freshly constructed tensors (C10) *)

(** C10: every construction path (the variadic-dimension constructors, the
    shape-array constructors, the default constructor) yields a buffer whose
    every element is the value-initialised [T{}]; no read of a fresh tensor
    returns anything else, and reading at an index within bounds returns
    [T{}] (the element count being representable in [size_t]). *)
Theorem C10_constructed_reads_zero {T : Type} `{Numeric T}
    (N : nat) (t : Tensor T) :
  constructed N t →
  Forall (λ x, x = zero) (data_ t)
  ∧ (∀ indices x,
       TensorH.operator_call t indices = Ok x
       ∨ Part000.operator_call t indices = Ok x
       ∨ Checked.operator_call t indices = Ok x → x = zero)
  ∧ (∀ indices,
       in_bounds (shape_ t) indices → product (shape_ t) < 2 ^ SIZE_BITS →
       TensorH.operator_call t indices = Ok zero
       ∧ Part000.operator_call t indices = Ok zero
       ∧ Checked.operator_call t indices = Ok zero).
Proof.
  intros Hc. pose proof (constructed_zero N t Hc) as Hzero.
  assert (∀ k x, vec_read (data_ t) k = Ok x → x = zero) as Hread.
  { intros k x. unfold vec_read. destruct (data_ t !! Z.to_nat k) as [y|] eqn:Hy; [|done].
    intros [= <-]. by eapply (Forall_lookup_1 _ _ _ _ Hzero). }
  split; [done|]. split.
  - intros indices x [Hx|[Hx|Hx]]; [by eapply Hread..|].
    unfold Checked.operator_call in Hx. apply bind_Ok in Hx as (k & _ & Hx).
    by eapply Hread.
  - intros indices Hin Hfit.
    assert (wf N t) as Hwf.
    { apply inv_wf; [by apply constructed_inv| |done].
      by eapply in_bounds_dims_nonneg. }
    destruct (wf_operator_call_H N t indices) as (x & Hx & HH); [done..|].
    destruct (wf_operator_call_C N t indices) as (y & Hy & HC); [done..|].
    assert (x = zero) as -> by by eapply Hread.
    assert (y = zero) as -> by congruence.
    done.
Qed.

Lemma C10_constructed_reads_zero_witness :
  constructed 2 (Part000.Tensor_default (T:=Z) 2)
  ∧ Part000.operator_call (Part000.Tensor_default (T:=Z) 2) [0; 0] = Ok 0.
Proof.
  assert (constructed 2 (Part000.Tensor_default (T:=Z) 2)) as Hc
    by apply constructed_000_default.
  split; [done|].
  destruct (C10_constructed_reads_zero 2 (Part000.Tensor_default 2) Hc)
    as (_ & _ & Hread).
  apply (Hread [0; 0]).
  - repeat constructor; lia.
  - reflexivity.
Defined.

(** ** The class invariant (C8) *)

Section invariant.
Context {T : Type} `{Numeric T}.

Lemma vec_write_length (v v' : list T) (k : Z) (x : T) :
  vec_write v k x = Ok v' → length v' = length v.
Proof.
  unfold vec_write. case_decide; [|done]. intros [= <-]. apply length_insert.
Qed.

Lemma inv_same_buffer (N : nat) (t : Tensor T) (data : list T) :
  inv N t → length data = length (data_ t) → inv N (mkTensor (shape_ t) data).
Proof. intros [Hlen Hsize] Hdata. split; [done|]. unfold size in *; simpl. lia. Qed.

Lemma fill_inv (N : nat) (t : Tensor T) (v : T) :
  inv N t → inv N (mkTensor (shape_ t) (fill_data (data_ t) v)).
Proof. intros Ht. apply inv_same_buffer; [done|]. apply length_replicate. Qed.

Lemma write_H_inv (N : nat) (t t' : Tensor T) (idxs : list Z) (v : T) :
  inv N t → leaves (TensorH.operator_call_assign t idxs v) t' → inv N t'.
Proof.
  intros Ht. unfold TensorH.operator_call_assign.
  destruct (vec_write _ _ _) as [data| |] eqn:Hw; inversion 1; subst; [|done].
  apply inv_same_buffer; [done|]. by eapply vec_write_length.
Qed.

Lemma write_C_inv (N : nat) (t t' : Tensor T) (idxs : list Z) (v : T) :
  inv N t → leaves (Checked.operator_call_assign t idxs v) t' → inv N t'.
Proof.
  intros Ht. unfold Checked.operator_call_assign.
  destruct (_ ≫= _) as [data| |] eqn:Hw; inversion 1; subst; [|done].
  apply bind_Ok in Hw as (k & _ & Hw).
  apply inv_same_buffer; [done|]. by eapply vec_write_length.
Qed.

Lemma strict_reshape_inv (N : nat) (t : Tensor T) (new_shape : list Z) :
  length new_shape = N → total_size new_shape = size t →
  inv N (mkTensor new_shape (data_ t)).
Proof. intros Hlen Htotal. split; [done|]. by unfold size in *. Qed.

Lemma reshape_000_inv (N : nat) (t t' : Tensor T) (new_dims : list Z) :
  inv N t → leaves (Part000.reshape N t new_dims) t' → inv N t'.
Proof.
  intros Ht. unfold Part000.reshape. case_decide; inversion 1; subst; [done|].
  split; simpl; [lia|]. unfold size; simpl. rewrite length_resize.
  pose proof (total_size_range new_dims). lia.
Qed.

Lemma reachable_inv (N : nat) (t : Tensor T) : reachable N t → inv N t.
Proof.
  induction 1 as
    [t Hc|t v _ IH|t v _ IH|t v _ IH
    |t idxs v t' _ IH Hl|t idxs v t' _ IH Hl|t idxs v t' _ IH Hl
    |t list t' _ IH Hl|t list t' _ IH Hl
    |t new_shape t' _ IH Hlen Hl|t new_dims t' _ IH Hl|t new_shape t' _ IH Hlen Hl].
  - by apply constructed_inv.
  - by apply fill_inv.
  - by apply fill_inv.
  - by apply fill_inv.
  - by eapply write_H_inv.
  - by eapply write_H_inv.
  - by eapply write_C_inv.
  - unfold Part000.operator_assign in Hl. case_decide; inversion Hl; subst; [done|].
    apply inv_same_buffer; [done|lia].
  - unfold Checked.operator_assign in Hl. case_decide; inversion Hl; subst; [done|].
    apply inv_same_buffer; [done|lia].
  - unfold TensorH.reshape in Hl. case_decide; inversion Hl; subst; [done|].
    apply strict_reshape_inv; [done|lia].
  - by eapply reshape_000_inv.
  - unfold Checked.reshape in Hl. case_decide; inversion Hl; subst; [done|].
    apply strict_reshape_inv; [done|lia].
Qed.
End invariant.

(** C8: the variadic constructor of [include/utec/algebra/Tensor.h] breaks
    the invariant when its arguments are not integers.
    [Tensor<int, 2> t(2.5, 2.5)] ([2.5] is [5 * 2^-1]) gets the shape
    [[2, 2]], each argument being converted to [size_t], and a buffer of 5
    elements: [total] goes through 1, 2 and 5, every product being taken in
    [double] and truncated.  So [size()] is 5 where the product of the shape
    is 4.  The array constructor of the same header and the variadic
    constructors of the two other headers multiply the converted values
    and allocate 4 elements for this shape. *)
Theorem C8_fractional_dimensions :
  let t : Tensor Z := mkTensor [2; 2] [0; 0; 0; 0; 0] in
  TensorH.Tensor_dims [Floating (double_of 5 (-1)); Floating (double_of 5 (-1))]
  = Ok t
  ∧ size t = 5
  ∧ product (shape_ t) = 4
  ∧ total_size (shape_ t) = 4
  ∧ ¬ inv 2 t
  ∧ size (TensorH.Tensor_array (T:=Z) [2; 2]) = 4
  ∧ size (Checked.Tensor_dims (T:=Z) [2; 2]) = 4
  ∧ ∃ t' : Tensor Z, Part000.Tensor_dims 2 [2; 2] = Ok t' ∧ size t' = 4.
Proof.
  intros t. split; [reflexivity|]. do 3 (split; [reflexivity|]). split.
  - intros [_ Hsize]. vm_compute in Hsize. discriminate.
  - do 2 (split; [reflexivity|]). eexists. split; reflexivity.
Qed.

(** X22: a tensor produced by any construction path from integer
    dimensions, and then by any sequence of [fill], indexed writes,
    flat-literal assignments and [reshape]s (successful or not), has exactly
    [Rank] axis sizes and a buffer whose length is the product of its shape
    as the code computes it, in [size_t]; that is the product of the axis
    sizes whenever this product is below [2^64]. *)
Theorem X22_reachable_invariant {T : Type} `{Numeric T} (N : nat) (t : Tensor T) :
  reachable N t →
  length (shape_ t) = N
  ∧ size t = total_size (shape_ t)
  ∧ (0 ≤ product (shape_ t) < 2 ^ SIZE_BITS → size t = product (shape_ t)).
Proof.
  intros Hr. destruct (reachable_inv N t Hr) as [Hlen Hsize].
  split; [done|]. split; [done|].
  intros Hfit. rewrite Hsize. by apply total_size_fits.
Qed.

Lemma X22_reachable_invariant_witness :
  let t : Tensor Z := mkTensor [4; 2] [7; 7; 7; 7; 7; 7; 0; 0] in
  reachable 2 t
  ∧ length (shape_ t) = 2%nat
  ∧ size t = total_size (shape_ t)
  ∧ (0 ≤ product (shape_ t) < 2 ^ SIZE_BITS → size t = product (shape_ t)).
Proof.
  intros t.
  assert (reachable 2 t) as Hr.
  { apply reach_000_reshape
      with (t := Part000.fill (Part000.Tensor_array [2; 3]) 7) (new_dims := [4; 2]).
    - apply reach_000_fill, reach_constructed. by apply constructed_000_array.
    - apply (leaves_done t ()). }
  split; [done|]. exact (X22_reachable_invariant 2 t Hr).
Defined.

(** ** Reshape (C3) *)

Section reshape.
Context {T : Type} `{Numeric T}.

Lemma resize_same_length (data : list T) (n : Z) :
  length data = Z.to_nat n → resize data n = data.
Proof.
  intros Hlen. unfold resize. rewrite take_ge by lia.
  replace (Z.to_nat n - length data)%nat with 0%nat by lia.
  apply app_nil_r.
Qed.

Lemma resize_resize (data : list T) (n : Z) : resize (resize data n) n = resize data n.
Proof. apply resize_same_length, length_resize. Qed.

(** [resize] keeps the elements below the old and the new length and
    value-initialises the positions it adds. *)
Lemma lookup_resize (data : list T) (n : Z) (k : nat) :
  (k < Z.to_nat n)%nat →
  resize data n !! k
  = if decide (k < length data)%nat then data !! k else Some zero.
Proof.
  intros Hk. unfold resize. case_decide as Hlt.
  - rewrite lookup_app_l by (rewrite length_take; lia).
    by apply lookup_take_lt.
  - rewrite lookup_app_r by (rewrite length_take; lia).
    apply lookup_replicate_2. rewrite length_take. lia.
Qed.

Lemma reshape_000_Done (N : nat) (t : Tensor T) (new_dims : list Z) :
  length new_dims = N →
  Part000.reshape N t new_dims
  = Done (mkTensor new_dims (resize (data_ t) (total_size new_dims))) ().
Proof.
  intros Hlen. unfold Part000.reshape. rewrite decide_False by lia.
  case_decide; [by rewrite resize_resize|done].
Qed.
End reshape.

(** C3, the claim as stated fails on the variadic [reshape] of the
    broadcasting header: a shape-[2,3] tensor reshaped to [3,3] (9 elements
    for 6) does not fail; the buffer grows by three value-initialised
    elements. *)
Lemma C3_reshape_grows :
  let t : Tensor Z := mkTensor [2; 3] [1; 2; 3; 4; 5; 6] in
  product [3; 3] ≠ size t
  ∧ Part000.reshape 2 t [3; 3]
    = Done (mkTensor [3; 3] [1; 2; 3; 4; 5; 6; 0; 0; 0]) ().
Proof. split; [by vm_compute|reflexivity]. Qed.

(** C3, amended: the [reshape] of [include/utec/algebra/Tensor.h] and of the
    bounds-checked header succeeds if and only if the product of the new
    shape (computed in [size_t]; the product itself when below [2^64])
    equals the element count; on success only the shape is replaced, the
    buffer is the same list; otherwise it throws [invalid_argument] and the
    object is unchanged.  The variadic [reshape] of the broadcasting header,
    given [Rank] dimensions, never fails: it resizes the buffer to the new
    product, keeping the elements below the old length and
    value-initialising the positions it adds. *)
Theorem C3_reshape {T : Type} `{Numeric T} (N : nat) (t : Tensor T)
    (new_shape : list Z) :
  length new_shape = N →
  ((∃ t', TensorH.reshape t new_shape = Done t' ())
     ↔ total_size new_shape = size t)
  ∧ ((∃ t', Checked.reshape t new_shape = Done t' ())
     ↔ total_size new_shape = size t)
  ∧ (total_size new_shape = size t →
       TensorH.reshape t new_shape = Done (mkTensor new_shape (data_ t)) ()
       ∧ Checked.reshape t new_shape = Done (mkTensor new_shape (data_ t)) ())
  ∧ (total_size new_shape ≠ size t →
       ∃ what1 what2,
         TensorH.reshape t new_shape = Raised t (invalid_argument what1)
         ∧ Checked.reshape t new_shape = Raised t (invalid_argument what2))
  ∧ (0 ≤ product new_shape < 2 ^ SIZE_BITS →
       total_size new_shape = product new_shape)
  ∧ (∃ t', Part000.reshape N t new_shape = Done t' ()
       ∧ shape_ t' = new_shape
       ∧ size t' = total_size new_shape
       ∧ ∀ k, (k < length (data_ t'))%nat →
           data_ t' !! k
           = if decide (k < length (data_ t))%nat then data_ t !! k
             else Some zero).
Proof.
  intros Hlen. unfold TensorH.reshape, Checked.reshape.
  repeat split.
  - intros [t' Ht']. by case_decide.
  - intros Heq. rewrite decide_False by lia. by eexists.
  - intros [t' Ht']. by case_decide.
  - intros Heq. rewrite decide_False by lia. by eexists.
  - by rewrite decide_False by lia.
  - by rewrite decide_False by lia.
  - intros Hne. do 2 eexists. by rewrite !decide_True by done.
  - apply total_size_fits.
  - eexists. split; [by apply reshape_000_Done|]. simpl. split; [done|].
    unfold size; simpl. rewrite length_resize.
    pose proof (total_size_range new_shape). split; [lia|].
    intros k Hk. apply lookup_resize. lia.
Qed.

Lemma C3_reshape_witness :
  let t : Tensor Z := mkTensor [2; 3] [1; 2; 3; 4; 5; 6] in
  TensorH.reshape t [3; 2] = Done (mkTensor [3; 2] [1; 2; 3; 4; 5; 6]) ()
  ∧ ∃ what, TensorH.reshape t [3; 3] = Raised t (invalid_argument what).
Proof.
  intros t. split.
  - destruct (C3_reshape 2 t [3; 2] eq_refl) as (_ & _ & Hok & _).
    apply Hok. reflexivity.
  - destruct (C3_reshape 2 t [3; 3] eq_refl) as (_ & _ & _ & Hfail & _).
    destruct Hfail as (what1 & _ & Hraised & _); [by vm_compute|].
    by exists what1.
Defined.

(** ** Element access (C4) *)

(** C4, the claim as stated fails on [include/utec/algebra/Tensor.h], whose
    [operator()] has no bounds check: on a shape-[2,3] tensor the index
    (0,3) is out of bounds on axis 1, yet reading it returns the element at
    offset 3 (that of (1,0)) and writing through it changes that element;
    the index (2,0) reads the buffer past its end, which is undefined
    behaviour, not an exception. *)
Lemma C4_unchecked_access :
  let t : Tensor Z := mkTensor [2; 3] [1; 2; 3; 4; 5; 6] in
  ¬ in_bounds [2; 3] [0; 3]
  ∧ TensorH.operator_call t [0; 3] = Ok 4
  ∧ TensorH.operator_call_assign t [0; 3] 42
    = Done (mkTensor [2; 3] [1; 2; 3; 42; 5; 6]) ()
  ∧ TensorH.operator_call t [2; 0] = Undefined.
Proof.
  split; [|by repeat split].
  intros Hin. inversion Hin as [|? ? ? ? _ Hin']; subst.
  inversion Hin' as [|? ? ? ? Hi _]; subst. lia.
Qed.

(** C4, amended: in the bounds-checked header [operator()] fails with
    [out_of_range] as soon as some [idx[a] >= shape[a]] (the indices are
    [size_t]s, so [0 <= idx[a]] always holds), nothing is read or written
    and the tensor is left as it was; within bounds it reads, or writes, the
    element at the row-major offset.  In [include/utec/algebra/Tensor.h]
    [operator()] validates nothing and never throws: it accesses the buffer at
    the row-major offset reduced modulo [2^64], whatever the index. *)
Theorem C4_access {T : Type} `{Numeric T} (N : nat) (t : Tensor T)
    (indices : list Z) :
  wf N t → length indices = N → Forall (λ i, 0 ≤ i) indices →
  (in_bounds (shape_ t) indices →
     ∃ x, elem t indices = Some x
       ∧ Checked.operator_call t indices = Ok x
       ∧ ∀ v, Checked.operator_call_assign t indices v
              = Done (mkTensor (shape_ t)
                       (<[Z.to_nat (offset_of (shape_ t) indices) := v]> (data_ t))) ())
  ∧ (¬ in_bounds (shape_ t) indices →
     Checked.operator_call t indices = Throw (out_of_range "Index out of range")
     ∧ ∀ v, Checked.operator_call_assign t indices v
            = Raised t (out_of_range "Index out of range"))
  ∧ TensorH.operator_call t indices
    = vec_read (data_ t) (wrap (offset_of (shape_ t) indices))
  ∧ (∀ e, TensorH.operator_call t indices ≠ Throw e).
Proof.
  intros Hwf Hlen Hpos.
  assert (length indices = length (shape_ t)) as Hlen' by (rewrite (wf_rank N t Hwf); done).
  repeat split.
  - intros Hin. destruct (wf_operator_call_C N t indices) as (x & Hx & Hcall); [done..|].
    exists x. repeat split; [done..|]. intros v.
    unfold Checked.operator_call_assign. rewrite checked_offset_in_bounds by done.
    simpl. rewrite compute_index_in_bounds by (done || apply Hwf).
    rewrite vec_write_Ok; [done|]. by eapply wf_offset_lt.
  - unfold Checked.operator_call. by rewrite checked_offset_out_of_bounds.
  - intros v. unfold Checked.operator_call_assign.
    by rewrite checked_offset_out_of_bounds.
  - unfold TensorH.operator_call. by rewrite compute_index_wrap.
  - intros e. unfold TensorH.operator_call, vec_read. by destruct (_ !! _).
Qed.

Lemma C4_access_witness :
  let t : Tensor Z := mkTensor [2; 3] [1; 2; 3; 4; 5; 6] in
  Checked.operator_call t [2; 0] = Throw (out_of_range "Index out of range")
  ∧ ∀ v, Checked.operator_call_assign t [2; 0] v
         = Raised t (out_of_range "Index out of range").
Proof.
  intros t.
  assert (wf 2 t) as Hwf.
  { wf_by_computation. }
  assert (Forall (λ i, 0 ≤ i) [2; 0]) as Hpos by (repeat constructor; lia).
  destruct (C4_access 2 t [2; 0] Hwf eq_refl Hpos) as (_ & Hout & _).
  apply Hout. intros Hin. inversion Hin as [|? ? ? ? Hi _]; subst. lia.
Defined.

(** ** Scalar arithmetic (C9) *)

Lemma pointwise_fmap {T : Type} (f : T → T) (t : Tensor T) :
  pointwise f t (mkTensor (shape_ t) (f <$> data_ t)).
Proof.
  split; [done|]. split; simpl; [apply length_fmap|].
  intros k x Hx. by rewrite list_lookup_fmap, Hx.
Qed.

(** C9: the scalar operators are total functions that keep the shape and
    apply the operator between every element and the scalar: [t + s],
    [t - s], [t * s], [t / s], [s + t], [s * t] in the broadcasting header,
    [t + s], [t - s], [t / s], [s + t] in the bounds-checked header, where
    [s - t] has every element equal to [s] minus the element of [t]. *)
Theorem C9_scalar_ops {T : Type} `{Numeric T} (t : Tensor T) (s : T) :
  pointwise (λ x, add x s) t (Part000.operator_plus_scalar t s)
  ∧ pointwise (λ x, sub x s) t (Part000.operator_minus_scalar t s)
  ∧ pointwise (λ x, mul x s) t (Part000.operator_times_scalar t s)
  ∧ pointwise (λ x, div x s) t (Part000.operator_div_scalar t s)
  ∧ pointwise (λ x, add x s) t (Part000.scalar_plus s t)
  ∧ pointwise (λ x, mul x s) t (Part000.scalar_times s t)
  ∧ pointwise (λ x, add x s) t (Checked.operator_plus_scalar t s)
  ∧ pointwise (λ x, sub x s) t (Checked.operator_minus_scalar t s)
  ∧ pointwise (λ x, div x s) t (Checked.operator_div_scalar t s)
  ∧ pointwise (λ x, add x s) t (Checked.scalar_plus s t)
  ∧ pointwise (λ x, sub s x) t (Checked.scalar_minus s t).
Proof. repeat split; apply pointwise_fmap. Qed.

(** ** The checks of [matrix_product] (C6) *)

Section no_throw.
Context {T : Type} `{Numeric T}.

Lemma no_throw_Ok {A : Type} (a : A) : no_throw (Ok a).
Proof. by intros e. Qed.

Lemma no_throw_bind {A B : Type} (m : outcome A) (f : A → outcome B) :
  no_throw m → (∀ a, no_throw (f a)) → no_throw (m ≫= f).
Proof.
  intros Hm Hf e. destruct m as [a|e'|]; simpl; [apply Hf| |done].
  by destruct (Hm e').
Qed.

Lemma no_throw_foldM {S : Type} (body : nat → S → outcome S) (ks : list nat) (s : S) :
  (∀ k s, no_throw (body k s)) → no_throw (foldM body ks s).
Proof.
  intros Hbody. revert s. induction ks as [|k ks IH]; intros s; simpl.
  - apply no_throw_Ok.
  - apply no_throw_bind; [apply Hbody|apply IH].
Qed.

Lemma no_throw_vec_read (v : list T) (k : Z) : no_throw (vec_read v k).
Proof. intros e. unfold vec_read. by destruct (_ !! _). Qed.

Lemma no_throw_vec_write (v : list T) (k : Z) (x : T) : no_throw (vec_write v k x).
Proof. intros e. unfold vec_write. by case_decide. Qed.

Lemma no_throw_unflatten (shape : list Z) (flat : Z) : no_throw (unflatten shape flat).
Proof.
  unfold unflatten. apply no_throw_bind; [|intros; apply no_throw_Ok].
  induction shape as [|d shape IH]; simpl; [apply no_throw_Ok|].
  apply no_throw_bind; [done|]. intros [idx rem']. by case_decide.
Qed.

Lemma no_throw_assign_000 (t : Tensor T) (indices : list Z) (v : T) :
  no_throw (commit (Part000.operator_call_assign t indices v)).
Proof.
  intros e. unfold Part000.operator_call_assign.
  pose proof (no_throw_vec_write (data_ t) (Part000.compute_flat_index t indices) v) as Hw.
  destruct (vec_write _ _ _) as [data|e'|]; simpl; [done| |done].
  by destruct (Hw e').
Qed.

Lemma length_args (N : nat) (arr : list Z) : length (Part000.args N arr) = N.
Proof. unfold Part000.args. by rewrite length_fmap, length_seq. Qed.

Lemma no_throw_result_tensor (N : nat) (s : list Z) :
  no_throw (Part000.result_tensor (T:=T) N s).
Proof.
  unfold Part000.result_tensor, Part000.Tensor_dims. intros e.
  destruct (Part000.has_branch N); [|done].
  by rewrite decide_False by (rewrite length_args; lia).
Qed.

Lemma no_throw_dot_loop (N : nat) (A B : Tensor T) (idx : list Z) (K : Z) :
  no_throw (Part000.dot_loop N A B idx K).
Proof.
  unfold Part000.dot_loop, for_loop. apply no_throw_foldM. intros k sum.
  destruct (Part000.has_branch N); [|apply no_throw_Ok].
  apply no_throw_bind; [apply no_throw_vec_read|]. intros x.
  apply no_throw_bind; [apply no_throw_vec_read|]. intros y. apply no_throw_Ok.
Qed.

(** Past its three checks, [matrix_product] does not throw. *)
Lemma no_throw_matrix_product_body (N : nat) (A B : Tensor T) (rs : list Z) (K : Z) :
  no_throw
    (result ← Part000.result_tensor N rs;
     for_loop (Z.to_nat (total_size rs))
       (λ i result,
          idx ← unflatten rs (Z.of_nat i);
          sum ← Part000.dot_loop N A B idx K;
          if Part000.has_branch N
          then commit (Part000.operator_call_assign result (Part000.args N idx) sum)
          else Ok result)
       result).
Proof.
  apply no_throw_bind; [apply no_throw_result_tensor|]. intros result.
  unfold for_loop. apply no_throw_foldM. intros i r.
  apply no_throw_bind; [apply no_throw_unflatten|]. intros idx.
  apply no_throw_bind; [apply no_throw_dot_loop|]. intros sum.
  destruct (Part000.has_branch N); [apply no_throw_assign_000|apply no_throw_Ok].
Qed.

Lemma batch_check_spec (a b : list Z) (n : nat) :
  existsb (λ i, bool_decide (a !!! i ≠ b !!! i)) (seq 0 n) = true
  ↔ ∃ i, (i < n)%nat ∧ a !!! i ≠ b !!! i.
Proof.
  rewrite existsb_exists. split.
  - intros (i & Hi & Hne). apply in_seq in Hi. apply bool_decide_eq_true in Hne.
    exists i. split; [lia|done].
  - intros (i & Hi & Hne). exists i. split; [apply in_seq; lia|].
    by apply bool_decide_eq_true.
Qed.
End no_throw.

(** C6: [matrix_product] on rank-[N] tensors throws when [N < 2]; for
    [N >= 2] it throws the inner-dimension error exactly when
    [a[N-1] != b[N-2]], and the batch-dimension error, a different one,
    exactly when the inner dimensions agree and [a[i] != b[i]] for some
    leading axis [i < N-2] (any inequality: a size-1 batch axis is not
    broadcast); it throws nothing else. *)
Theorem C6_matrix_product_errors {T : Type} `{Numeric T} (N : nat) (A B : Tensor T) :
  ((N < 2)%nat →
     Part000.matrix_product N A B = Throw (runtime_error Part000.inner_message))
  ∧ ((2 ≤ N)%nat →
     (Part000.matrix_product N A B = Throw (runtime_error Part000.inner_message)
        ↔ shape_ A !!! (N - 1)%nat ≠ shape_ B !!! (N - 2)%nat)
     ∧ (Part000.matrix_product N A B = Throw (runtime_error Part000.batch_message)
        ↔ shape_ A !!! (N - 1)%nat = shape_ B !!! (N - 2)%nat
          ∧ ∃ i, (i < N - 2)%nat ∧ shape_ A !!! i ≠ shape_ B !!! i)
     ∧ (∀ e, Part000.matrix_product N A B = Throw e →
          e = runtime_error Part000.inner_message
          ∨ e = runtime_error Part000.batch_message))
  ∧ Part000.inner_message ≠ Part000.batch_message.
Proof.
  split; [|split; [|done]].
  - intros HN. unfold Part000.matrix_product. by rewrite decide_True by done.
  - intros HN. unfold Part000.matrix_product, Part000.shape.
    rewrite decide_False by lia.
    destruct (decide (shape_ A !!! (N - 1)%nat ≠ shape_ B !!! (N - 2)%nat))
      as [Hinner|Hinner].
    { split; [done|]. split.
      - split; [discriminate|]. by intros [Heq _].
      - intros e [= <-]. by left. }
    apply dec_stable in Hinner.
    destruct (existsb _ _) eqn:Hbatch.
    + apply batch_check_spec in Hbatch. split; [split; [discriminate|done]|]. split.
      * done.
      * intros e [= <-]. by right.
    + assert (¬ ∃ i, (i < N - 2)%nat ∧ shape_ A !!! i ≠ shape_ B !!! i) as Hnone.
      { intros Hex. apply batch_check_spec in Hex. congruence. }
      pose proof (no_throw_matrix_product_body N A B
        (<[(N - 2)%nat := shape_ A !!! (N - 2)%nat]>
           (<[(N - 1)%nat := shape_ B !!! (N - 1)%nat]> (shape_ A)))
        (shape_ A !!! (N - 1)%nat)) as Hbody.
      split; [|split].
      * split; [|done]. intros Hthrow. by destruct (Hbody _ Hthrow).
      * split; [|by intros [_ Hex]]. intros Hthrow. by destruct (Hbody _ Hthrow).
      * intros e Hthrow. by destruct (Hbody _ Hthrow).
Qed.

Lemma C6_matrix_product_errors_witness :
  let A : Tensor Z := mkTensor [2; 2; 3] [1; 2; 3; 4; 5; 6; 7; 8; 9; 10; 11; 12] in
  let B : Tensor Z := mkTensor [1; 3; 1] [1; 1; 1] in
  Part000.matrix_product 3 A B = Throw (runtime_error Part000.batch_message).
Proof.
  intros A B.
  destruct (C6_matrix_product_errors 3 A B) as (_ & Hchecks & _).
  destruct Hchecks as (_ & Hbatch & _); [lia|].
  apply Hbatch. split; [reflexivity|]. exists 0%nat. split; [lia|]. by vm_compute.
Defined.

(** ** Elementwise arithmetic on two tensors *)

Section elementwise.
Context {T : Type} `{Numeric T}.

(** A loop whose round [k] stores [out[k]] at position [k] builds [out]. *)
Lemma for_loop_fill_list (out : list T)
    (body : nat → list T → outcome (list T)) (buf : list T) :
  length buf = length out →
  (∀ k x rdata, out !! k = Some x → length rdata = length out →
                body k rdata = Ok (<[k := x]> rdata)) →
  for_loop (length out) body buf = Ok out.
Proof.
  intros Hlen Hbody.
  destruct (for_loop_invariant
    (λ k rdata, length rdata = length out
                ∧ ∀ j, (j < k)%nat → rdata !! j = out !! j)
    body (length out) buf) as (res & -> & Hres_len & Hres).
  - split; [done|]. intros j Hj. lia.
  - intros k rdata Hk [Hl Hpre].
    destruct (lookup_lt_is_Some_2 out k Hk) as [x Hx].
    exists (<[k := x]> rdata). split; [by apply Hbody|].
    split; [by rewrite length_insert|].
    intros j Hj. destruct (decide (j = k)) as [->|Hne].
    + rewrite Hx. apply list_lookup_insert_eq. lia.
    + rewrite list_lookup_insert_ne by done. apply Hpre. lia.
  - f_equal. apply list_eq. intros j.
    destruct (decide (j < length out)%nat) as [Hj|Hj]; [by apply Hres|].
    rewrite !lookup_ge_None_2 by lia. done.
Qed.

(** *** Exact-shape [+] and [-] of [include/utec/algebra/Tensor.h] *)

Lemma exact_op_spec (what : string) (op : T → T → T) (a b : Tensor T) :
  shape_ a = shape_ b →
  size a = total_size (shape_ a) → size b = total_size (shape_ b) →
  TensorH.exact_op what op a b
  = Ok (mkTensor (shape_ a) (zip_with op (data_ a) (data_ b))).
Proof.
  intros Hshape Ha Hb. unfold TensorH.exact_op. rewrite decide_False by (by intros []).
  assert (length (data_ a) = length (data_ b)) as Hlen.
  { unfold size in *. rewrite Hshape in Ha. lia. }
  assert (length (zip_with op (data_ a) (data_ b)) = length (data_ a)) as Hout.
  { rewrite length_zip_with. lia. }
  rewrite <- Hout. simpl.
  rewrite for_loop_fill_list; [done| |].
  - rewrite length_resize, Hout. unfold size in Ha. lia.
  - intros k z rdata Hz Hl.
    apply lookup_zip_with_Some in Hz as (x & y & -> & Hx & Hy).
    rewrite (vec_read_nat _ _ x Hx). simpl.
    rewrite (vec_read_nat _ _ y Hy). simpl.
    apply vec_write_nat. apply lookup_lt_Some in Hx. lia.
Qed.

Lemma zip_with_add_sub `{!ExactSub T} (xs ys : list T) :
  length xs = length ys →
  zip_with sub (zip_with add xs ys) ys = xs.
Proof.
  revert ys. induction xs as [|x xs IH]; intros [|y ys] Hlen; simplify_eq/=; [done|].
  by rewrite add_sub_cancel, IH.
Qed.

(** *** Broadcasting [+ - *] of the broadcasting header *)

Lemma can_broadcast_cons (x y : Z) (a b : list Z) :
  Part000.can_broadcast (x :: a) (y :: b) = true →
  (x = y ∨ x = 1 ∨ y = 1) ∧ Part000.can_broadcast a b = true.
Proof.
  simpl. case_bool_decide as Hxy; [done|]. intros Hrest. split; [|done].
  destruct (decide (x = y)); [by left|]. destruct (decide (x = 1)); [by right; left|].
  destruct (decide (y = 1)); [by right; right|]. by destruct Hxy.
Qed.

(** The index the other operand is read at is within its bounds. *)
Lemma broadcast_in_bounds (sa sb idx : list Z) :
  length sa = length sb → Part000.can_broadcast sa sb = true →
  Forall (λ d, 1 ≤ d) sb → in_bounds sa idx →
  in_bounds sb (broadcast_indices idx sb).
Proof.
  intros Hlen Hcan Hpos Hin. revert sb Hlen Hcan Hpos.
  induction Hin as [|i d idx sa Hi Hin IH]; intros [|db sb] Hlen Hcan Hpos;
    simplify_eq/=; [constructor|].
  apply Forall_cons in Hpos as [Hdb Hpos].
  apply can_broadcast_cons in Hcan as [Hax Hcan].
  constructor; [|by apply IH]. unfold broadcast_index. case_decide; lia.
Qed.

Lemma broadcast_op_spec (N : nat) (op : T → T → T) (a b : Tensor T) :
  wf N a → wf N b → positive_dims b →
  Part000.can_broadcast (shape_ a) (shape_ b) = true →
  ∃ r, Part000.broadcast_op op a b = Ok r
    ∧ shape_ r = shape_ a
    ∧ length (data_ r) = length (data_ a)
    ∧ ∀ k x, data_ a !! k = Some x →
        ∃ y, partner (shape_ a) b k = Some y ∧ data_ r !! k = Some (op x y).
Proof.
  intros Ha Hb Hpos Hcan. unfold Part000.broadcast_op. rewrite Hcan. cbn [negb].
  unfold Part000.Tensor_array; cbn [data_ shape_].
  assert (length (resize (T:=T) [] (total_size (shape_ a))) = length (data_ a)) as Hbuf.
  { rewrite length_resize, total_size_fits.
    - destruct Ha as [_ _ Hsize _]. unfold size in Hsize. lia.
    - destruct Ha as [_ Hdims _ Hfit]. split; [by apply product_nonneg|done]. }
  match goal with |- context [for_loop ?n ?body ?buf] =>
    destruct (for_loop_invariant
      (λ k rdata, length rdata = length (data_ a)
         ∧ ∀ j x, (j < k)%nat → data_ a !! j = Some x →
             ∃ y, partner (shape_ a) b j = Some y ∧ rdata !! j = Some (op x y))
      body n buf) as (res & Hres & Hres_len & Hres_el)
  end.
  - split; [done|]. intros j x Hj. lia.
  - intros k rdata Hk [Hl Hpre].
    destruct (unflatten_in_range (shape_ a) (Z.of_nat k)) as (idx & Hidx & Hin & Hoff).
    { apply Ha. }
    { destruct Ha as [_ _ Hsize _]. unfold size in Hsize. lia. }
    assert (in_bounds (shape_ b) (broadcast_indices idx (shape_ b))) as Hinb.
    { apply (broadcast_in_bounds (shape_ a)); [|done..].
      by rewrite (wf_rank N a), (wf_rank N b). }
    destruct (wf_operator_call_000 N b _ Hb Hinb) as (y & Hy & Hcall).
    destruct (lookup_lt_is_Some_2 (data_ a) k Hk) as [x Hx].
    exists (<[k := op x y]> rdata). split.
    + cbv beta. rewrite Hidx. simpl. rewrite (vec_read_nat _ _ x Hx). simpl.
      unfold Part000.operator_call in Hcall. rewrite Hcall. simpl.
      apply vec_write_nat. lia.
    + split; [by rewrite length_insert|].
      intros j x' Hj Hx'. destruct (decide (j = k)) as [->|Hne].
      * exists y. split; [unfold partner; by rewrite Hidx|].
        rewrite list_lookup_insert_eq by lia. congruence.
      * rewrite list_lookup_insert_ne by done. apply Hpre; [lia|done].
  - exists (mkTensor (shape_ a) res). rewrite Hres. simpl. repeat split; [done|].
    intros k x Hx. apply Hres_el; [|done]. by apply lookup_lt_Some in Hx.
Qed.
End elementwise.

(** ** The inverse law (C7) *)

Lemma wf_total_size {T : Type} (N : nat) (t : Tensor T) :
  wf N t → size t = total_size (shape_ t).
Proof.
  intros [_ Hdims Hsize Hfit]. rewrite Hsize. symmetry. apply total_size_fits.
  split; [by apply product_nonneg|done].
Qed.

Lemma wf_same_shape {T : Type} (N : nat) (t r : Tensor T) :
  wf N t → shape_ r = shape_ t → length (data_ r) = length (data_ t) → wf N r.
Proof.
  intros [Hrank Hdims Hsize Hfit] Hshape Hlen.
  split; rewrite ?Hshape; [done..| |done]. unfold size in *. lia.
Qed.

Lemma broadcasts_into_can_broadcast (sa sb : list Z) :
  broadcasts_into sb sa → Part000.can_broadcast sa sb = true.
Proof.
  induction 1 as [|a b sa sb Hab _ IH]; simpl; [done|].
  rewrite bool_decide_eq_false_2; [done|]. intros (Hne & Ha & Hb).
  destruct Hab; congruence.
Qed.

(** C7 as stated fails in [include/utec/algebra/Tensor.h]: the shapes
    [[1, 3]] and [[2, 3]] are compatible, yet [A + B] throws
    [invalid_argument], so [(A + B) - B] is not computed. *)
Lemma C7_compatible_shapes_rejected :
  let A : Tensor Z := mkTensor [1; 3] [1; 2; 3] in
  let B : Tensor Z := mkTensor [2; 3] [10; 20; 30; 40; 50; 60] in
  wf 2 A ∧ wf 2 B ∧ compatible (shape_ A) (shape_ B)
  ∧ TensorH.operator_plus A B
    = Throw (invalid_argument "Shapes incompatibles para suma")
  ∧ (TensorH.operator_plus A B ≫= λ s, TensorH.operator_minus s B) ≠ Ok A.
Proof.
  intros A B. split; [wf_by_computation|]. split; [wf_by_computation|]. split.
  - constructor; [by right; left|]. constructor; [by left|]. constructor.
  - split; [reflexivity|]. vm_compute. discriminate.
Qed.

(** C7, amended.  With exact arithmetic on the element type, [(A + B) - B]
    is computed and equals [A], shape and every element: in
    [include/utec/algebra/Tensor.h] for operands of one shape, the only
    ones its [+] accepts (any other pair, compatible or not, makes it throw
    [invalid_argument]); in the broadcasting header whenever every axis of
    [B] has the size of the same axis of [A] or size 1, and at least one
    entry. *)
Theorem C7_add_then_subtract {T : Type} `{Numeric T} `{!ExactSub T}
    (N : nat) (a b : Tensor T) :
  wf N a → wf N b →
  (shape_ a = shape_ b →
     ∃ s, TensorH.operator_plus a b = Ok s ∧ TensorH.operator_minus s b = Ok a)
  ∧ (shape_ a ≠ shape_ b →
     TensorH.operator_plus a b
     = Throw (invalid_argument "Shapes incompatibles para suma"))
  ∧ (broadcasts_into (shape_ b) (shape_ a) → positive_dims b →
     ∃ s, Part000.operator_plus a b = Ok s ∧ Part000.operator_minus s b = Ok a).
Proof.
  intros Ha Hb. split; [|split].
  - intros Hshape. eexists. split.
    + apply exact_op_spec; [done|by eapply wf_total_size..].
    + assert (length (data_ a) = length (data_ b)) as Hlen.
      { pose proof (wf_size N a Ha). pose proof (wf_size N b Hb).
        unfold size in *. rewrite Hshape in *. lia. }
      unfold TensorH.operator_minus. rewrite exact_op_spec; simpl.
      * rewrite zip_with_add_sub by done. by destruct a.
      * done.
      * unfold size; simpl. rewrite length_zip_with.
        pose proof (wf_total_size N a Ha) as Hsz. unfold size in Hsz. lia.
      * by eapply wf_total_size.
  - intros Hne. unfold TensorH.operator_plus, TensorH.exact_op.
    by rewrite decide_True.
  - intros Hinto Hpos.
    pose proof (broadcasts_into_can_broadcast _ _ Hinto) as Hcan.
    destruct (broadcast_op_spec N add a b) as (s & Hs & Hs_shape & Hs_len & Hs_el);
      [done..|].
    exists s. split; [done|].
    assert (wf N s) as Hwf by (by apply (wf_same_shape N a s)).
    destruct (broadcast_op_spec N sub s b) as (r & Hr & Hr_shape & Hr_len & Hr_el);
      [done..|by rewrite Hs_shape|].
    unfold Part000.operator_minus. rewrite Hr. f_equal.
    destruct a as [sa ad], r as [sr rd]; simpl in *. f_equal; [congruence|].
    apply list_eq_same_length with (length ad); [done|lia|].
    intros k z x Hk Hz Hx.
    destruct (Hs_el k x Hx) as (y & Hy & Hsk).
    destruct (Hr_el k _ Hsk) as (y' & Hy' & Hrk).
    rewrite Hs_shape in Hy'. simpl in Hy'.
    assert (y' = y) as -> by congruence.
    rewrite add_sub_cancel in Hrk. congruence.
Qed.

Lemma C7_add_then_subtract_witness :
  let a : Tensor Z := mkTensor [2; 3] [10; 20; 30; 40; 50; 60] in
  let b : Tensor Z := mkTensor [1; 3] [1; 2; 3] in
  ∃ s, Part000.operator_plus a b = Ok s ∧ Part000.operator_minus s b = Ok a.
Proof.
  intros a b.
  assert (wf 2 a) as Ha.
  { wf_by_computation. }
  assert (wf 2 b) as Hb.
  { wf_by_computation. }
  destruct (C7_add_then_subtract 2 a b Ha Hb) as (_ & _ & Hbroadcast).
  apply Hbroadcast.
  - constructor; [by right|]. constructor; [by left|]. constructor.
  - repeat constructor; lia.
Defined.

(** ** Broadcasting (C1) *)

Section broadcasting.
Context {T : Type} `{Numeric T}.

Lemma can_broadcast_compatible (sa sb : list Z) :
  length sa = length sb →
  Part000.can_broadcast sa sb = true ↔ compatible sa sb.
Proof.
  revert sb. induction sa as [|a sa IH]; intros [|b sb] Hlen; simplify_eq/=.
  - split; [constructor|done].
  - specialize (IH sb Hlen). case_bool_decide as Hab; split.
    + done.
    + intros Hc. apply Forall2_cons in Hc as [Hax _]. lia.
    + intros Hcan. constructor; [lia|by apply IH].
    + intros Hc. apply Forall2_cons in Hc as [_ Hc]. by apply IH.
Qed.

Lemma result_shape_loop_compatible (sa sb : list Z) :
  compatible sa sb → TensorH.result_shape_loop sa sb = Ok (times_shape sa sb).
Proof.
  induction 1 as [|a b sa sb Hax _ IH]; simpl; [done|].
  rewrite IH. repeat case_decide; simpl; try done. lia.
Qed.

Lemma result_shape_loop_incompatible (sa sb : list Z) :
  length sa = length sb → ¬ compatible sa sb →
  TensorH.result_shape_loop sa sb
  = Throw (invalid_argument "Shapes incompatibles para broadcasting").
Proof.
  revert sb. induction sa as [|a sa IH]; intros [|b sb] Hlen Hnc; simplify_eq/=.
  - destruct Hnc. constructor.
  - destruct (decide (a = b ∨ a = 1 ∨ b = 1)) as [Hax|Hax].
    + rewrite IH; [|done|].
      * repeat case_decide; done.
      * intros Hc. apply Hnc. by constructor.
    + repeat case_decide; try done; lia.
Qed.

Lemma times_shape_max (sa sb : list Z) :
  Forall (λ d, 1 ≤ d) sa → Forall (λ d, 1 ≤ d) sb → compatible sa sb →
  times_shape sa sb = max_shape sa sb.
Proof.
  intros Ha Hb Hc. revert Ha Hb.
  induction Hc as [|a b sa sb Hax _ IH]; intros Ha Hb; [done|].
  apply Forall_cons in Ha as [Ha1 Ha], Hb as [Hb1 Hb].
  unfold times_shape, max_shape in *. simpl. rewrite IH by done. f_equal.
  repeat case_decide; lia.
Qed.

Lemma times_shape_nonneg (sa sb : list Z) :
  Forall (λ d, 0 ≤ d) sa → Forall (λ d, 0 ≤ d) sb →
  Forall (λ d, 0 ≤ d) (times_shape sa sb).
Proof.
  intros Ha. revert sb. induction Ha as [|a sa Ha1 Ha IH]; intros sb Hb; [constructor|].
  destruct Hb as [|b sb Hb1 Hb]; [constructor|].
  unfold times_shape; simpl. constructor; [repeat case_decide; lia|by apply IH].
Qed.

Lemma times_shape_in_bounds (sa sb idx : list Z) :
  compatible sa sb → in_bounds (times_shape sa sb) idx →
  in_bounds sa (broadcast_indices idx sa) ∧ in_bounds sb (broadcast_indices idx sb).
Proof.
  intros Hc. revert idx.
  induction Hc as [|a b sa sb Hax _ IH]; intros idx Hin.
  - inversion Hin; subst. split; constructor.
  - unfold times_shape in Hin; simpl in Hin.
    inversion Hin as [|i r idx' rs Hi Hin']; subst.
    destruct (IH idx' Hin') as [IHa IHb].
    split; (constructor; [|done]); unfold broadcast_index;
      repeat case_decide; lia.
Qed.

(** [operator*(const Tensor&)] of [include/utec/algebra/Tensor.h] does what
    the broadcasting contract says: it throws on an incompatible axis;
    otherwise the result has the broadcast shape (the per-axis maximum when
    every axis has at least one entry) and its element at every index is the
    product of the operands' elements at that index, every size-1 axis of an
    operand mapped to 0. *)
Lemma operator_times_spec (N : nat) (a b : Tensor T) :
  wf N a → wf N b →
  (¬ compatible (shape_ a) (shape_ b) →
     TensorH.operator_times a b
     = Throw (invalid_argument "Shapes incompatibles para broadcasting"))
  ∧ (compatible (shape_ a) (shape_ b) →
     product (times_shape (shape_ a) (shape_ b)) < 2 ^ SIZE_BITS →
     ∃ r, TensorH.operator_times a b = Ok r
       ∧ shape_ r = times_shape (shape_ a) (shape_ b)
       ∧ (positive_dims a → positive_dims b →
            shape_ r = max_shape (shape_ a) (shape_ b))
       ∧ wf N r
       ∧ ∀ idx, in_bounds (shape_ r) idx →
           ∃ x y, elem a (broadcast_indices idx (shape_ a)) = Some x
             ∧ elem b (broadcast_indices idx (shape_ b)) = Some y
             ∧ elem r idx = Some (mul x y)).
Proof.
  intros Ha Hb.
  assert (length (shape_ a) = length (shape_ b)) as Hlen
    by by rewrite (wf_rank N a), (wf_rank N b).
  split.
  - intros Hnc. unfold TensorH.operator_times.
    by rewrite result_shape_loop_incompatible.
  - intros Hc Hfit. set (rs := times_shape (shape_ a) (shape_ b)) in *.
    assert (Forall (λ d, 0 ≤ d) rs) as Hrs
      by (apply times_shape_nonneg; [apply Ha|apply Hb]).
    assert (total_size rs = product rs) as Htotal.
    { apply total_size_fits. split; [by apply product_nonneg|done]. }
    unfold TensorH.operator_times. rewrite result_shape_loop_compatible by done.
    fold rs. simpl. unfold size; simpl. rewrite Nat2Z.id, length_resize, Htotal.
    match goal with |- context [for_loop ?n ?body ?buf] =>
      destruct (for_loop_invariant
        (λ k rdata, length rdata = Z.to_nat (product rs)
           ∧ ∀ j idx, (j < k)%nat → unflatten rs (Z.of_nat j) = Ok idx →
               ∃ x y, elem a (broadcast_indices idx (shape_ a)) = Some x
                 ∧ elem b (broadcast_indices idx (shape_ b)) = Some y
                 ∧ rdata !! j = Some (mul x y))
        body n buf) as (res & Hres & Hres_len & Hres_el)
    end.
    + split; [by rewrite length_resize|]. intros j idx Hj. lia.
    + intros k rdata Hk [Hl Hpre].
      destruct (unflatten_in_range rs (Z.of_nat k)) as (idx & Hidx & Hin & Hoff);
        [done|lia|].
      destruct (times_shape_in_bounds _ _ idx Hc Hin) as [Hina Hinb].
      destruct (wf_operator_call_H N a _ Ha Hina) as (x & Hx & Hcx).
      destruct (wf_operator_call_H N b _ Hb Hinb) as (y & Hy & Hcy).
      exists (<[k := mul x y]> rdata). split.
      * cbv beta. rewrite Hidx. simpl. rewrite Hcx. simpl. rewrite Hcy. simpl.
        apply vec_write_nat. lia.
      * split; [by rewrite length_insert|].
        intros j idx' Hj Hidx'. destruct (decide (j = k)) as [->|Hne].
        -- assert (idx' = idx) as -> by congruence.
           exists x, y. repeat split; [done..|]. apply list_lookup_insert_eq. lia.
        -- rewrite list_lookup_insert_ne by done. apply Hpre; [lia|done].
    + exists (mkTensor rs res). rewrite Hres. simpl.
      split; [done|]. split; [done|].
      split; [intros Hpa Hpb; by apply times_shape_max|]. split.
      * split; simpl; [|done| |done].
        -- unfold rs, times_shape. rewrite length_zip_with, <- Hlen, (wf_rank N a) by done.
           lia.
        -- unfold size; simpl. rewrite Hres_len.
           pose proof (product_nonneg rs Hrs). lia.
      * intros idx Hin. pose proof (offset_of_range _ _ Hin) as Hoff.
        unfold elem at 3; simpl.
        apply (Hres_el (Z.to_nat (offset_of rs idx)) idx); [lia|].
        rewrite Z2Nat.id by lia. by apply unflatten_offset_of.
Qed.

(** The broadcasting header rejects exactly the incompatible shapes. *)
Lemma broadcast_op_incompatible (op : T → T → T) (a b : Tensor T) :
  length (shape_ a) = length (shape_ b) →
  ¬ compatible (shape_ a) (shape_ b) →
  Part000.broadcast_op op a b
  = Throw (runtime_error
      "Shapes do not match and they are not compatible for broadcasting").
Proof.
  intros Hlen Hnc. unfold Part000.broadcast_op.
  destruct (Part000.can_broadcast _ _) eqn:Hcan; [|done].
  by apply can_broadcast_compatible in Hcan.
Qed.
End broadcasting.

(** C1, the code at the claim's own example: in the broadcasting header the
    result of [+], [-] and [*] is constructed with the shape of the left
    operand, so a [1,3] tensor plus a [2,3] tensor has shape [1,3], not
    the broadcast shape [2,3] that the sum in the other order and
    [include/utec/algebra/Tensor.h]'s [operator*] produce. *)
Theorem C1_left_operand_shape :
  let a : Tensor Z := mkTensor [1; 3] [1; 2; 3] in
  let b : Tensor Z := mkTensor [2; 3] [10; 20; 30; 40; 50; 60] in
  compatible (shape_ a) (shape_ b)
  ∧ max_shape (shape_ a) (shape_ b) = [2; 3]
  ∧ Part000.operator_plus a b = Ok (mkTensor [1; 3] [11; 22; 33])
  ∧ Part000.operator_minus a b = Ok (mkTensor [1; 3] [-9; -18; -27])
  ∧ Part000.operator_times a b = Ok (mkTensor [1; 3] [10; 40; 90])
  ∧ Part000.operator_plus b a = Ok (mkTensor [2; 3] [11; 22; 33; 41; 52; 63])
  ∧ TensorH.operator_times a b = Ok (mkTensor [2; 3] [10; 40; 90; 40; 100; 180])
  ∧ TensorH.operator_times b a = Ok (mkTensor [2; 3] [10; 40; 90; 40; 100; 180]).
Proof.
  split; [|by repeat split].
  repeat constructor; lia.
Qed.

(** ** Writing one element *)

Section assign.
Context {T : Type} `{Numeric T}.

(** [r(idx...) = x] at an index within bounds of a well-formed tensor: the
    shape stays, the element at [idx] becomes [x], no other element moves. *)
Lemma assign_in_bounds (N : nat) (r : Tensor T) (idx : list Z) (x : T) :
  wf N r → in_bounds (shape_ r) idx →
  ∃ r', TensorH.operator_call_assign r idx x = Done r' ()
    ∧ Part000.operator_call_assign r idx x = Done r' ()
    ∧ wf N r' ∧ shape_ r' = shape_ r
    ∧ elem r' idx = Some x
    ∧ ∀ idx', in_bounds (shape_ r) idx' → idx' ≠ idx → elem r' idx' = elem r idx'.
Proof.
  intros Hr Hin.
  pose proof (wf_offset_lt N r idx Hr Hin) as Hlt.
  pose proof (offset_of_range _ _ Hin) as Hoff.
  exists (mkTensor (shape_ r) (<[Z.to_nat (offset_of (shape_ r) idx) := x]> (data_ r))).
  unfold TensorH.operator_call_assign, Part000.operator_call_assign,
    Part000.compute_flat_index.
  rewrite compute_index_in_bounds by (done || apply Hr).
  rewrite vec_write_Ok by done. repeat split; try done.
  - apply Hr.
  - apply Hr.
  - unfold size; simpl. rewrite length_insert. apply Hr.
  - apply Hr.
  - unfold elem; simpl. by apply list_lookup_insert_eq.
  - intros idx' Hin' Hne. unfold elem; simpl.
    apply list_lookup_insert_ne. intros Heq.
    pose proof (offset_of_range _ _ Hin') as Hoff'.
    apply Hne. symmetry. apply (offset_of_inj (shape_ r)); [done..|lia].
Qed.

(** Two well-formed tensors of the same shape with the same element at
    every index within bounds are equal. *)
Lemma wf_ext (N : nat) (t r : Tensor T) :
  wf N t → wf N r → shape_ r = shape_ t →
  (∀ idx, in_bounds (shape_ t) idx → elem r idx = elem t idx) →
  r = t.
Proof.
  intros Ht Hr Hshape Hel. destruct t as [st dt], r as [sr dr]; simpl in *. subst sr.
  f_equal. pose proof (wf_size N _ Ht) as Hst. pose proof (wf_size N _ Hr) as Hsr.
  unfold size in *; simpl in *.
  apply list_eq_same_length with (length dt); [done|lia|].
  intros k x y Hk Hx Hy.
  destruct (unflatten_in_range st (Z.of_nat k)) as (idx & _ & Hin & Hoff);
    [apply Ht|lia|].
  specialize (Hel idx Hin). unfold elem in Hel; simpl in Hel.
  rewrite Hoff, Nat2Z.id in Hel. congruence.
Qed.
End assign.

(** ** Transposition (C5) *)

Section transpose.
Context {T : Type} `{Numeric T}.

Lemma in_bounds_pair (rows cols i j : Z) :
  in_bounds [rows; cols] [i; j] ↔ 0 ≤ i < rows ∧ 0 ≤ j < cols.
Proof.
  split.
  - intros Hin. inversion Hin as [|? ? ? ? Hi Hin']; subst.
    inversion Hin' as [|? ? ? ? Hj _]; subst. done.
  - intros [Hi Hj]. constructor; [done|]. constructor; [done|]. constructor.
Qed.

Lemma in_bounds_pair_inv (rows cols : Z) (idx : list Z) :
  in_bounds [rows; cols] idx →
  ∃ i j, idx = [i; j] ∧ 0 ≤ i < rows ∧ 0 ≤ j < cols.
Proof.
  intros Hin. inversion Hin as [|i ? idx1 ? Hi Hin1]; subst.
  inversion Hin1 as [|j ? idx2 ? Hj Hin2]; subst.
  inversion Hin2; subst. by exists i, j.
Qed.

Lemma wf_rank2_shape (t : Tensor T) :
  wf 2 t → ∃ rows cols, shape_ t = [rows; cols] ∧ 0 ≤ rows ∧ 0 ≤ cols
    ∧ rows * cols < 2 ^ SIZE_BITS ∧ Z.of_nat (length (data_ t)) = rows * cols.
Proof.
  intros [Hrank Hdims Hsize Hfit]. unfold size in Hsize.
  destruct (shape_ t) as [|rows [|cols [|? ?]]]; simplify_eq/=.
  apply Forall_cons in Hdims as [Hrows Hdims].
  apply Forall_cons in Hdims as [Hcols _].
  exists rows, cols. repeat split; [done..|lia|lia].
Qed.

(** The tensor both functions allocate for the result. *)
Lemma wf_fresh_transposed (rows cols : Z) :
  0 ≤ rows → 0 ≤ cols → rows * cols < 2 ^ SIZE_BITS →
  wf 2 (mkTensor (T:=T) [cols; rows] (resize [] (total_size [cols; rows]))).
Proof.
  intros Hrows Hcols Hfit.
  assert (product [cols; rows] = rows * cols) as Hprod by (simpl; lia).
  apply inv_wf; [split; [done|apply fresh_size]| |simpl in *; lia].
  by repeat constructor.
Qed.

Lemma is_transpose_twice (t r u : Tensor T) :
  wf 2 t → wf 2 u → is_transpose t r → is_transpose r u → u = t.
Proof.
  intros Ht Hu (rows & cols & Hst & Hsr & Htr) (cols' & rows' & Hsr' & Hsu & Hru).
  rewrite Hsr in Hsr'. simplify_eq.
  apply (wf_ext 2); [done..|congruence|].
  intros idx Hin. rewrite Hst in Hin.
  apply in_bounds_pair_inv in Hin as (i & j & -> & Hi & Hj).
  rewrite Hru by done. by apply Htr.
Qed.

(** The member [transpose_2d] of [include/utec/algebra/Tensor.h]. *)
Lemma transpose_2d_H_spec (t : Tensor T) :
  wf 2 t → ∃ r, TensorH.transpose_2d t = Ok r ∧ wf 2 r ∧ is_transpose t r.
Proof.
  intros Ht.
  destruct (wf_rank2_shape t Ht) as (rows & cols & Hst & Hrows & Hcols & Hfit & Hlen).
  unfold TensorH.transpose_2d. rewrite Hst. unfold TensorH.Tensor_array.
  match goal with |- context [for_loop ?n ?body ?r0] =>
    destruct (for_loop_invariant
      (λ i r, wf 2 r ∧ shape_ r = [cols; rows]
         ∧ ∀ i' j', 0 ≤ i' < Z.of_nat i → 0 ≤ j' < cols →
             elem r [j'; i'] = elem t [i'; j'])
      body n r0) as (res & Hres & Hres_wf & Hres_shape & Hres_el)
  end.
  - split; [by apply wf_fresh_transposed|]. split; [done|]. intros i' j' Hi'. lia.
  - intros i r Hi (Hr & Hsr & Hpre). cbv beta.
    match goal with |- context [for_loop ?n ?body ?r0] =>
      destruct (for_loop_invariant
        (λ j r, wf 2 r ∧ shape_ r = [cols; rows]
           ∧ ∀ i' j', (0 ≤ i' < Z.of_nat i ∧ 0 ≤ j' < cols)
                      ∨ (i' = Z.of_nat i ∧ 0 ≤ j' < Z.of_nat j) →
               elem r [j'; i'] = elem t [i'; j'])
        body n r0) as (res & Hres & Hres_wf & Hres_shape & Hres_el)
    end.
    + split; [done|]. split; [done|]. intros i' j' [[Hi' Hj']|[_ Hj']]; [|lia].
      by apply Hpre.
    + intros j r' Hj (Hr' & Hsr' & Hpre'). cbv beta.
      assert (in_bounds (shape_ t) [Z.of_nat i; Z.of_nat j]) as Hin
        by (rewrite Hst; apply in_bounds_pair; lia).
      assert (in_bounds (shape_ r') [Z.of_nat j; Z.of_nat i]) as Hin'
        by (rewrite Hsr'; apply in_bounds_pair; lia).
      destruct (wf_operator_call_H 2 t _ Ht Hin) as (x & Hx & Hcall).
      destruct (assign_in_bounds 2 r' _ x Hr' Hin')
        as (r'' & Hassign & _ & Hr'' & Hsr'' & Hnew & Hold).
      exists r''. split; [by rewrite Hcall; simpl; rewrite Hassign|].
      split; [done|]. split; [congruence|].
      intros i' j' Hcase.
      destruct (decide (i' = Z.of_nat i ∧ j' = Z.of_nat j)) as [[-> ->]|Hne].
      * congruence.
      * rewrite Hold.
        -- apply Hpre'. lia.
        -- rewrite Hsr'. apply in_bounds_pair. lia.
        -- intros [= -> ->]. by apply Hne.
    + exists res. split; [done|]. split; [done|]. split; [done|].
      intros i' j' Hi' Hj'. apply Hres_el.
      destruct (decide (i' = Z.of_nat i)); [right|left]; lia.
  - exists res. split; [done|]. split; [done|].
    exists rows, cols. repeat split; [done..|].
    intros i j Hi Hj. apply Hres_el; lia.
Qed.
End transpose.

Section transpose_free.
Context {T : Type} `{Numeric T}.

(** The free function [transpose_2d] of the broadcasting header, at rank 2. *)
Lemma transpose_2d_000_spec (t : Tensor T) :
  wf 2 t → ∃ r, Part000.transpose_2d 2 t = Ok r ∧ wf 2 r ∧ is_transpose t r.
Proof.
  intros Ht.
  destruct (wf_rank2_shape t Ht) as (rows & cols & Hst & Hrows & Hcols & Hfit & Hlen).
  assert (product [rows; cols] = rows * cols) as Hprod by (simpl; lia).
  unfold Part000.transpose_2d, Part000.shape. rewrite decide_False by lia.
  rewrite Hst.
  change (<[(2 - 2)%nat := [rows; cols] !!! (2 - 1)%nat]>
            (<[(2 - 1)%nat := [rows; cols] !!! (2 - 2)%nat]> [rows; cols]))
    with [cols; rows].
  change (Part000.result_tensor 2 [cols; rows])
    with (Ok (mkTensor (T:=T) [cols; rows] (resize [] (total_size [cols; rows])))).
  rewrite bind_Ok_l, (total_size_fits [rows; cols]) by lia.
  match goal with |- context [for_loop ?n ?body ?r0] =>
    destruct (for_loop_invariant
      (λ k r, wf 2 r ∧ shape_ r = [cols; rows]
         ∧ ∀ i j, 0 ≤ i < rows → 0 ≤ j < cols →
             offset_of [rows; cols] [i; j] < Z.of_nat k →
             elem r [j; i] = elem t [i; j])
      body n r0) as (res & Hres & Hres_wf & Hres_shape & Hres_el)
  end.
  - split; [by apply wf_fresh_transposed|]. split; [done|].
    intros i j Hi Hj Hoff.
    pose proof (offset_of_range [rows; cols] [i; j]) as Hrange.
    rewrite in_bounds_pair in Hrange. lia.
  - intros k r Hk (Hr & Hsr & Hpre). cbv beta.
    destruct (unflatten_in_range [rows; cols] (Z.of_nat k)) as (idx & Hidx & Hin & Hoff);
      [by repeat constructor|lia|].
    apply in_bounds_pair_inv in Hin as (p & q & -> & Hp & Hq).
    rewrite Hidx, bind_Ok_l.
    change (Part000.has_branch 2) with true. cbv iota.
    change (Part000.args 2 [p; q]) with [p; q].
    change (Part000.args 2 (<[(2 - 2)%nat := [p; q] !!! (2 - 1)%nat]>
                              (<[(2 - 1)%nat := [p; q] !!! (2 - 2)%nat]> [p; q])))
      with [q; p].
    assert (in_bounds (shape_ t) [p; q]) as Hin
      by (rewrite Hst; by apply in_bounds_pair).
    assert (in_bounds (shape_ r) [q; p]) as Hin'
      by (rewrite Hsr; by apply in_bounds_pair).
    destruct (wf_operator_call_000 2 t _ Ht Hin) as (x & Hx & Hcall).
    destruct (assign_in_bounds 2 r _ x Hr Hin')
      as (r' & _ & Hassign & Hr' & Hsr' & Hnew & Hold).
    exists r'. split; [by rewrite Hcall, bind_Ok_l, Hassign|].
    split; [done|]. split; [congruence|].
    intros i j Hi Hj Hlt.
    destruct (decide (i = p ∧ j = q)) as [[-> ->]|Hne].
    + congruence.
    + rewrite Hold.
      * apply Hpre; [done..|].
        assert (offset_of [rows; cols] [i; j] ≠ Z.of_nat k); [|lia].
        rewrite <- Hoff. intros Heq. apply Hne.
        apply (offset_of_inj [rows; cols]) in Heq; [by simplify_eq|..];
          by apply in_bounds_pair.
      * rewrite Hsr. by apply in_bounds_pair.
      * intros [= -> ->]. by apply Hne.
  - exists res. split; [done|]. split; [done|].
    exists rows, cols. repeat split; [done..|].
    intros i j Hi Hj. apply Hres_el; [done..|].
    pose proof (offset_of_range [rows; cols] [i; j]) as Hrange.
    rewrite in_bounds_pair in Hrange. lia.
Qed.
End transpose_free.

(** C5: for every rank-2 tensor [t] (well formed: the buffer holds the
    product of the shape, which fits [size_t]), both [transpose_2d]s return
    a new tensor whose shape is that of [t] with its two entries swapped and
    whose element at [(j, i)] is that of [t] at [(i, j)]; transposing the
    result again gives back [t], shape and every element. *)
Theorem C5_transpose_involution {T : Type} `{Numeric T} (t : Tensor T) :
  wf 2 t →
  (∃ r, TensorH.transpose_2d t = Ok r
     ∧ shape_ r = reverse (shape_ t) ∧ is_transpose t r
     ∧ TensorH.transpose_2d r = Ok t)
  ∧ (∃ r, Part000.transpose_2d 2 t = Ok r
     ∧ shape_ r = reverse (shape_ t) ∧ is_transpose t r
     ∧ Part000.transpose_2d 2 r = Ok t).
Proof.
  intros Ht. split.
  - destruct (transpose_2d_H_spec t Ht) as (r & Hr & Hwf & Htr).
    destruct (transpose_2d_H_spec r Hwf) as (u & Hu & Hwf' & Hru).
    exists r. split; [done|]. split; [|split; [done|]].
    + destruct Htr as (rows & cols & -> & -> & _). done.
    + rewrite Hu. f_equal. by apply (is_transpose_twice t r u).
  - destruct (transpose_2d_000_spec t Ht) as (r & Hr & Hwf & Htr).
    destruct (transpose_2d_000_spec r Hwf) as (u & Hu & Hwf' & Hru).
    exists r. split; [done|]. split; [|split; [done|]].
    + destruct Htr as (rows & cols & -> & -> & _). done.
    + rewrite Hu. f_equal. by apply (is_transpose_twice t r u).
Qed.

Lemma C5_transpose_involution_witness :
  let t : Tensor Z := mkTensor [2; 3] [1; 2; 3; 4; 5; 6] in
  (∃ r, TensorH.transpose_2d t = Ok r
     ∧ shape_ r = reverse (shape_ t) ∧ is_transpose t r
     ∧ TensorH.transpose_2d r = Ok t)
  ∧ (∃ r, Part000.transpose_2d 2 t = Ok r
     ∧ shape_ r = reverse (shape_ t) ∧ is_transpose t r
     ∧ Part000.transpose_2d 2 r = Ok t).
Proof.
  intros t. apply (C5_transpose_involution t).
  wf_by_computation.
Defined.

(** ** The batched matrix product (C2) *)

Section matmul.
Context {T : Type} `{Numeric T}.

Lemma args_id (N : nat) (arr : list Z) :
  length arr = N → Part000.args N arr = arr.
Proof.
  intros Hlen. unfold Part000.args. apply list_eq. intros p.
  rewrite list_lookup_fmap.
  destruct (decide (p < N)%nat) as [Hp|Hp].
  - rewrite lookup_seq_lt by done. simpl. symmetry.
    apply list_lookup_lookup_total_lt. lia.
  - rewrite lookup_seq_ge, lookup_ge_None_2 by lia. done.
Qed.

Lemma has_branch_true (N : nat) :
  (N = 2 ∨ N = 3 ∨ N = 4)%nat → Part000.has_branch N = true.
Proof. intros HN. unfold Part000.has_branch. by apply bool_decide_eq_true. Qed.

Lemma insert_own (l : list Z) (p : nat) : <[p := l !!! p]> l = l.
Proof.
  apply list_insert_id'. intros Hp. by apply list_lookup_lookup_total_lt.
Qed.

(** [result_shape[N - 2] = a_shape[N - 2]] changes nothing: the result shape
    is the shape of [A] with its last entry replaced. *)
Lemma result_shape_insert (N : nat) (a : list Z) (bl : Z) :
  (2 ≤ N)%nat →
  <[(N - 2)%nat := a !!! (N - 2)%nat]> (<[(N - 1)%nat := bl]> a)
  = <[(N - 1)%nat := bl]> a.
Proof.
  intros HN. apply list_insert_id'. intros Hp.
  rewrite list_lookup_insert_ne by lia.
  apply list_lookup_lookup_total_lt. by rewrite length_insert in Hp.
Qed.

Lemma batch_check_passes (N : nat) (a b : list Z) :
  take (N - 2) a = take (N - 2) b →
  existsb (λ i, bool_decide (a !!! i ≠ b !!! i)) (seq 0 (N - 2)) = false.
Proof.
  intros Htake. apply not_true_is_false. intros Hex.
  apply batch_check_spec in Hex as (i & Hi & Hne). apply Hne.
  rewrite !list_lookup_total_alt.
  by rewrite <- (lookup_take_lt a (N - 2) i), <- (lookup_take_lt b (N - 2) i), Htake.
Qed.

(** The index [A] is read at, for an output index and an inner position. *)
Lemma a_idx_in_bounds (N : nat) (a idx : list Z) (bl k : Z) :
  in_bounds (<[(N - 1)%nat := bl]> a) idx → 0 ≤ k < a !!! (N - 1)%nat →
  in_bounds a (<[(N - 1)%nat := k]> idx).
Proof.
  intros Hin Hk. rewrite <- (insert_own a (N - 1)) at 1.
  rewrite <- (list_insert_insert_eq a (N - 1) _ bl).
  by apply Forall2_insert.
Qed.

(** The index [B] is read at. *)
Lemma b_idx_in_bounds (N : nat) (a b idx : list Z) (k : Z) :
  (2 ≤ N)%nat → length a = N → length b = N →
  take (N - 2) a = take (N - 2) b →
  in_bounds (<[(N - 1)%nat := b !!! (N - 1)%nat]> a) idx →
  0 ≤ k < b !!! (N - 2)%nat →
  in_bounds b (<[(N - 2)%nat := k]> idx).
Proof.
  intros HN Ha Hb Htake Hin Hk.
  assert (b = <[(N - 2)%nat := b !!! (N - 2)%nat]>
                (<[(N - 1)%nat := b !!! (N - 1)%nat]> a)) as Hb_eq.
  { apply list_eq. intros p.
    destruct (decide (p = N - 2)%nat) as [->|Hp2].
    { rewrite list_lookup_insert_eq by (rewrite length_insert; lia).
      apply list_lookup_lookup_total_lt. lia. }
    rewrite list_lookup_insert_ne by done.
    destruct (decide (p = N - 1)%nat) as [->|Hp1].
    { rewrite list_lookup_insert_eq by lia.
      apply list_lookup_lookup_total_lt. lia. }
    rewrite list_lookup_insert_ne by done.
    destruct (decide (p < N - 2)%nat) as [Hlt|Hge].
    - by rewrite <- (lookup_take_lt a (N - 2) p), <- (lookup_take_lt b (N - 2) p), Htake.
    - rewrite !lookup_ge_None_2 by lia. done. }
  rewrite Hb_eq at 1. by apply Forall2_insert.
Qed.

(** The inner loop computes the sum of the products, in increasing [k]. *)
Lemma dot_loop_spec (N : nat) (A B : Tensor T) (idx : list Z) :
  (N = 2 ∨ N = 3 ∨ N = 4)%nat → wf N A → wf N B →
  shape_ A !!! (N - 1)%nat = shape_ B !!! (N - 2)%nat →
  take (N - 2) (shape_ A) = take (N - 2) (shape_ B) →
  in_bounds (<[(N - 1)%nat := shape_ B !!! (N - 1)%nat]> (shape_ A)) idx →
  ∃ s, Part000.dot_loop N A B idx (shape_ A !!! (N - 1)%nat) = Ok s
     ∧ sum_upto (matmul_term N A B idx) (Z.to_nat (shape_ A !!! (N - 1)%nat))
       = Some s.
Proof.
  intros HN HA HB Hinner Hbatch Hin. unfold Part000.dot_loop.
  rewrite has_branch_true by done.
  assert (length idx = N) as Hlen.
  { apply in_bounds_length in Hin. rewrite length_insert in Hin.
    by rewrite Hin, (wf_rank N A). }
  apply (for_loop_invariant (λ k sum, sum_upto (matmul_term N A B idx) k = Some sum));
    [done|].
  intros k sum Hk Hsum. cbv beta.
  assert (in_bounds (shape_ A) (<[(N - 1)%nat := Z.of_nat k]> idx)) as Hina.
  { eapply a_idx_in_bounds; [done|lia]. }
  assert (in_bounds (shape_ B) (<[(N - 2)%nat := Z.of_nat k]> idx)) as Hinb.
  { apply (b_idx_in_bounds N (shape_ A)); [lia|apply HA|apply HB|done..|lia]. }
  destruct (wf_operator_call_000 N A _ HA Hina) as (x & Hx & Hcx).
  destruct (wf_operator_call_000 N B _ HB Hinb) as (y & Hy & Hcy).
  rewrite !args_id by (by rewrite length_insert).
  exists (add sum (mul x y)). split.
  - by rewrite Hcx, bind_Ok_l, Hcy.
  - simpl. rewrite Hsum. simpl. unfold matmul_term. rewrite Hx, Hy. done.
Qed.
End matmul.

Section matmul_main.
Context {T : Type} `{Numeric T}.

Lemma result_shape_matmul (N : nat) (a b : list Z) :
  (N = 2 ∨ N = 3 ∨ N = 4)%nat → length a = N →
  <[(N - 1)%nat := b !!! (N - 1)%nat]> a = matmul_shape N a b.
Proof.
  intros [-> | [-> | ->]] Hlen;
    repeat (destruct a as [|? a]; simplify_eq/=); reflexivity.
Qed.

End matmul_main.

(** C2, the claim as stated fails at rank 5: [matrix_product] has a branch
    for ranks 2, 3 and 4 only; at any other rank the result stays the
    default-constructed tensor (shape all ones, one value-initialised
    element) and nothing is stored in it.  Here [A] has shape [1,1,1,2,1]
    and [B] shape [1,1,1,1,2]; both checks pass, the product should have
    shape [1,1,1,2,2]. *)
Lemma C2_rank5_default_result :
  let A : Tensor Z := mkTensor [1; 1; 1; 2; 1] [2; 3] in
  let B : Tensor Z := mkTensor [1; 1; 1; 1; 2] [5; 7] in
  shape_ A !!! 4%nat = shape_ B !!! 3%nat
  ∧ take 3 (shape_ A) = take 3 (shape_ B)
  ∧ matmul_shape 5 (shape_ A) (shape_ B) = [1; 1; 1; 2; 2]
  ∧ Part000.matrix_product 5 A B = Ok (mkTensor [1; 1; 1; 1; 1] [0]).
Proof. by repeat split. Qed.

(** C2, amended to the ranks the code handles: for rank-[N] tensors [A], [B]
    with [N] in 2..4 (well formed, the result's element count fitting
    [size_t]) that pass the inner- and batch-dimension checks,
    [matrix_product] returns a tensor whose shape is the common batch axes
    followed by [a[N-2], b[N-1]] and whose element at every output index
    [(batch..., i, j)] is the sum over [k] of
    [A(batch..., i, k) * B(batch..., k, j)], accumulated in increasing [k]
    from the additive identity; and for [A = [[1,2,3],[4,5,6]]], [B] of
    shape [3,4] filled with 1, the result has shape [2,4], rows
    [6,6,6,6] and [15,15,15,15]. *)
Theorem C2_matrix_product {T : Type} `{Numeric T} :
  Part000.matrix_product 2
    (mkTensor [2; 3] [1; 2; 3; 4; 5; 6])
    (Part000.fill (Part000.Tensor_array [3; 4]) 1)
  = Ok (mkTensor [2; 4] [6; 6; 6; 6; 15; 15; 15; 15])
  ∧ ∀ (N : nat) (A B : Tensor T),
      (N = 2 ∨ N = 3 ∨ N = 4)%nat → wf N A → wf N B →
      shape_ A !!! (N - 1)%nat = shape_ B !!! (N - 2)%nat →
      take (N - 2) (shape_ A) = take (N - 2) (shape_ B) →
      product (matmul_shape N (shape_ A) (shape_ B)) < 2 ^ SIZE_BITS →
      ∃ r, Part000.matrix_product N A B = Ok r
        ∧ shape_ r = matmul_shape N (shape_ A) (shape_ B)
        ∧ wf N r
        ∧ ∀ idx, in_bounds (shape_ r) idx →
            ∃ s, sum_upto (matmul_term N A B idx)
                   (Z.to_nat (shape_ A !!! (N - 1)%nat)) = Some s
              ∧ elem r idx = Some s.
Proof.
  split; [reflexivity|]. intros N A B.
  intros HN HA HB Hinner Hbatch Hfit.
  assert (2 ≤ N)%nat as HN2 by lia.
  rewrite <- (result_shape_matmul N) in * by (done || apply HA).
  unfold Part000.matrix_product, Part000.shape.
  rewrite decide_False by lia. rewrite decide_False by (by intros []).
  rewrite batch_check_passes by done.
  rewrite result_shape_insert by done.
  set (rs := <[(N - 1)%nat := shape_ B !!! (N - 1)%nat]> (shape_ A)) in *.
  assert (length rs = N) as Hrs_len by (unfold rs; rewrite length_insert; apply HA).
  assert (Forall (λ d, 0 ≤ d) rs) as Hrs_dims.
  { unfold rs. apply Forall_insert; [apply HA|].
    destruct HB as [Hrank Hdims _ _].
    apply (Forall_lookup_1 _ _ (N - 1)%nat _ Hdims).
    apply list_lookup_lookup_total_lt. lia. }
  assert (total_size rs = product rs) as Htotal.
  { apply total_size_fits. split; [by apply product_nonneg|done]. }
  unfold Part000.result_tensor. rewrite has_branch_true, args_id by done.
  unfold Part000.Tensor_dims. rewrite decide_False by lia.
  rewrite bind_Ok_l, Htotal.
  assert (wf N (mkTensor (T:=T) rs (resize [] (product rs)))) as Hwf0.
  { apply inv_wf; [|done..]. split; [done|]. rewrite <- Htotal. apply fresh_size. }
  match goal with |- context [for_loop ?n ?body ?r0] =>
    destruct (for_loop_invariant
      (λ k r, wf N r ∧ shape_ r = rs
         ∧ ∀ idx, in_bounds rs idx → offset_of rs idx < Z.of_nat k →
             ∃ s, sum_upto (matmul_term N A B idx)
                    (Z.to_nat (shape_ A !!! (N - 1)%nat)) = Some s
               ∧ elem r idx = Some s)
      body n r0) as (res & Hres & Hres_wf & Hres_shape & Hres_el)
  end.
  - split; [done|]. split; [done|]. intros idx Hin Hoff.
    pose proof (offset_of_range _ _ Hin). lia.
  - intros k r Hk (Hr & Hsr & Hpre). cbv beta.
    destruct (unflatten_in_range rs (Z.of_nat k)) as (idx & Hidx & Hin & Hoff);
      [done|lia|].
    destruct (dot_loop_spec N A B idx) as (s & Hdot & Hsum); [done..|].
    assert (length idx = N) as Hidx_len
      by (apply in_bounds_length in Hin; lia).
    rewrite Hidx, bind_Ok_l, Hdot, bind_Ok_l. rewrite args_id by done.
    assert (in_bounds (shape_ r) idx) as Hin' by by rewrite Hsr.
    destruct (assign_in_bounds N r idx s Hr Hin')
      as (r' & _ & Hassign & Hr' & Hsr' & Hnew & Hold).
    exists r'. split; [by rewrite Hassign|]. split; [done|]. split; [congruence|].
    intros idx' Hin'' Hlt.
    destruct (decide (idx' = idx)) as [->|Hne].
    + by exists s.
    + rewrite Hold by (done || by rewrite Hsr).
      apply Hpre; [done|].
      assert (offset_of rs idx' ≠ Z.of_nat k); [|lia].
      rewrite <- Hoff. intros Heq. by apply (offset_of_inj rs) in Heq.
  - exists res. split; [done|]. split; [done|]. split; [done|].
    intros idx Hin. rewrite Hres_shape in Hin. apply Hres_el; [done|].
    pose proof (offset_of_range _ _ Hin). lia.
Qed.

Lemma C2_matrix_product_witness :
  let A : Tensor Z := mkTensor [2; 2; 3] [1; 2; 3; 4; 5; 6; 7; 8; 9; 10; 11; 12] in
  let B : Tensor Z := mkTensor [2; 3; 1] [1; 0; 1; 0; 2; 0] in
  ∃ r, Part000.matrix_product 3 A B = Ok r
    ∧ shape_ r = [2; 2; 1]
    ∧ wf 3 r
    ∧ ∀ idx, in_bounds (shape_ r) idx →
        ∃ s, sum_upto (matmul_term 3 A B idx) 3 = Some s ∧ elem r idx = Some s.
Proof.
  intros A B.
  assert (wf 3 A) as HA.
  { wf_by_computation. }
  assert (wf 3 B) as HB.
  { wf_by_computation. }
  destruct (C2_matrix_product (T:=Z)) as [_ Hgeneral].
  apply (Hgeneral 3%nat A B); [lia|done|done|reflexivity|reflexivity|reflexivity].
Defined.

(** [operator*(const T& scalar)] of [include/utec/algebra/Tensor.h], which
    allocates the result from the shape and fills it position by position,
    multiplies every element by the scalar when the buffer has the length
    the shape announces. *)
Lemma times_scalar_H_spec {T : Type} `{Numeric T} (N : nat) (t : Tensor T) (s : T) :
  inv N t →
  ∃ r, TensorH.operator_times_scalar t s = Ok r ∧ pointwise (λ x, mul x s) t r.
Proof.
  intros [_ Hsize]. unfold size in Hsize.
  exists (mkTensor (shape_ t) ((λ x, mul x s) <$> data_ t)).
  split; [|apply pointwise_fmap].
  unfold TensorH.operator_times_scalar. simpl.
  rewrite <- (length_fmap (λ x, mul x s) (data_ t)).
  rewrite for_loop_fill_list; [done| |].
  - rewrite length_resize, length_fmap. lia.
  - intros k y rdata Hy Hl. rewrite list_lookup_fmap in Hy.
    destruct (data_ t !! k) as [x|] eqn:Hx; simplify_eq/=.
    rewrite (vec_read_nat _ _ x Hx), bind_Ok_l.
    apply vec_write_nat. apply lookup_lt_Some in Hx.
    rewrite length_fmap in Hl. lia.
Qed.

(** * Further properties of the three headers *)

(** ** Filling, writing and reading *)

(** X1: after [fill(value)] a tensor keeps its shape and its element count,
    every element of the buffer is [value], and [operator()] at any index
    within bounds returns [value], in the three headers. *)
Theorem X1_fill_then_read {T : Type} `{Numeric T} (N : nat) (t : Tensor T)
    (value : T) (indices : list Z) :
  wf N t → in_bounds (shape_ t) indices →
  shape_ (TensorH.fill t value) = shape_ t
  ∧ size (TensorH.fill t value) = size t
  ∧ Forall (λ x, x = value) (data_ (TensorH.fill t value))
  ∧ TensorH.operator_call (TensorH.fill t value) indices = Ok value
  ∧ Part000.operator_call (Part000.fill t value) indices = Ok value
  ∧ Checked.operator_call (Checked.fill t value) indices = Ok value.
Proof.
  intros Ht Hin.
  assert (Forall (λ x, x = value) (fill_data (data_ t) value)) as Hall
    by (apply Forall_replicate; done).
  assert (wf N (TensorH.fill t value)) as Hwf.
  { apply (wf_same_shape N t); [done..|]. apply length_replicate. }
  destruct (wf_operator_call_H N _ indices Hwf Hin) as (x & Hx & Hcall).
  destruct (wf_operator_call_C N _ indices Hwf Hin) as (y & Hy & Hcall').
  assert (x = value) as ->.
  { unfold elem in Hx. by eapply (Forall_lookup_1 _ _ _ _ Hall). }
  assert (y = value) as -> by congruence.
  split; [done|]. split; [|done].
  unfold size, TensorH.fill, fill_data; simpl. by rewrite length_replicate.
Qed.

Lemma X1_fill_then_read_witness :
  let t : Tensor Z := TensorH.Tensor_array [2; 3] in
  TensorH.operator_call (TensorH.fill t 7) [1; 2] = Ok 7.
Proof.
  intros t.
  assert (wf 2 t) as Ht by wf_by_computation.
  assert (in_bounds (shape_ t) [1; 2]) as Hin by (repeat constructor; lia).
  destruct (X1_fill_then_read 2 t 7 [1; 2] Ht Hin) as (_ & _ & _ & Hread & _).
  exact Hread.
Defined.

(** X2: an assignment [t(idx...) = v] at an index within bounds succeeds in
    the three headers with the same result: shape and element count are
    kept, reading [idx] afterwards returns [v], and reading any other index
    within bounds returns what it returned before (two different indices
    within bounds never address the same element). *)
Theorem X2_write_then_read {T : Type} `{Numeric T} (N : nat) (t : Tensor T)
    (indices : list Z) (v : T) :
  wf N t → in_bounds (shape_ t) indices →
  ∃ t', TensorH.operator_call_assign t indices v = Done t' ()
    ∧ Part000.operator_call_assign t indices v = Done t' ()
    ∧ Checked.operator_call_assign t indices v = Done t' ()
    ∧ shape_ t' = shape_ t ∧ size t' = size t
    ∧ TensorH.operator_call t' indices = Ok v
    ∧ Checked.operator_call t' indices = Ok v
    ∧ ∀ other, in_bounds (shape_ t) other → other ≠ indices →
        TensorH.operator_call t' other = TensorH.operator_call t other
        ∧ Checked.operator_call t' other = Checked.operator_call t other.
Proof.
  intros Ht Hin.
  destruct (assign_in_bounds N t indices v Ht Hin)
    as (t' & HH & H000 & Ht' & Hshape & Hnew & Hold).
  exists t'. split; [done|]. split; [done|].
  assert (in_bounds (shape_ t') indices) as Hin' by by rewrite Hshape.
  split.
  { unfold Checked.operator_call_assign, TensorH.operator_call_assign in *.
    rewrite checked_offset_in_bounds by done. simpl. exact HH. }
  split; [done|]. split.
  { rewrite (wf_size N t' Ht'), (wf_size N t Ht). by rewrite Hshape. }
  destruct (wf_operator_call_H N t' indices Ht' Hin') as (x & Hx & Hcall).
  destruct (wf_operator_call_C N t' indices Ht' Hin') as (y & Hy & Hcall').
  split; [congruence|]. split; [congruence|].
  intros other Hother Hne.
  assert (in_bounds (shape_ t') other) as Hother' by by rewrite Hshape.
  destruct (wf_operator_call_H N t other Ht Hother) as (a & Ha & Hca).
  destruct (wf_operator_call_C N t other Ht Hother) as (b & Hb & Hcb).
  destruct (wf_operator_call_H N t' other Ht' Hother') as (a' & Ha' & Hca').
  destruct (wf_operator_call_C N t' other Ht' Hother') as (b' & Hb' & Hcb').
  rewrite Hold in Ha', Hb' by done.
  split; congruence.
Qed.

Lemma X2_write_then_read_witness :
  let t : Tensor Z := mkTensor [2; 3] [1; 2; 3; 4; 5; 6] in
  ∃ t', Checked.operator_call_assign t [1; 2] 42 = Done t' ()
    ∧ Checked.operator_call t' [1; 2] = Ok 42.
Proof.
  intros t.
  assert (wf 2 t) as Ht by wf_by_computation.
  assert (in_bounds (shape_ t) [1; 2]) as Hin by (repeat constructor; lia).
  destruct (X2_write_then_read 2 t [1; 2] 42 Ht Hin)
    as (t' & _ & _ & Hassign & _ & _ & _ & Hread & _).
  by exists t'.
Defined.

(** ** Reshaping *)

(** X3: a [reshape] to a shape with the same element count moves no
    element: the three headers return the same tensor, and the element the
    new shape addresses at an index is the one the old shape addressed at
    any index with the same row-major offset. *)
Theorem X3_reshape_same_offset {T : Type} `{Numeric T} (N : nat) (t : Tensor T)
    (new_shape old_idx new_idx : list Z) :
  wf N t → length new_shape = N → product new_shape = size t →
  in_bounds (shape_ t) old_idx → in_bounds new_shape new_idx →
  offset_of new_shape new_idx = offset_of (shape_ t) old_idx →
  ∃ t', TensorH.reshape t new_shape = Done t' ()
    ∧ Checked.reshape t new_shape = Done t' ()
    ∧ Part000.reshape N t new_shape = Done t' ()
    ∧ shape_ t' = new_shape
    ∧ TensorH.operator_call t' new_idx = TensorH.operator_call t old_idx
    ∧ Checked.operator_call t' new_idx = Checked.operator_call t old_idx.
Proof.
  intros Ht Hlen Hprod Hold Hnew Hoff.
  assert (Forall (λ d, 0 ≤ d) new_shape) as Hdims
    by by eapply in_bounds_dims_nonneg.
  assert (product new_shape < 2 ^ SIZE_BITS) as Hfit.
  { pose proof (wf_size N t Ht). pose proof (wf_fits N t Ht). lia. }
  assert (total_size new_shape = size t) as Htotal.
  { rewrite total_size_fits; [done|]. split; [by apply product_nonneg|done]. }
  assert (wf N (mkTensor new_shape (data_ t))) as Ht'.
  { split; simpl; [done..| |done]. by rewrite Hprod. }
  exists (mkTensor new_shape (data_ t)).
  unfold TensorH.reshape, Checked.reshape.
  rewrite !decide_False by (by intros []).
  split; [done|]. split; [done|]. split.
  { rewrite reshape_000_Done by done. rewrite resize_same_length; [done|].
    rewrite Htotal. unfold size. lia. }
  split; [done|].
  destruct (wf_operator_call_H N t old_idx Ht Hold) as (x & Hx & Hcx).
  destruct (wf_operator_call_C N t old_idx Ht Hold) as (y & Hy & Hcy).
  destruct (wf_operator_call_H N _ new_idx Ht' Hnew) as (x' & Hx' & Hcx').
  destruct (wf_operator_call_C N _ new_idx Ht' Hnew) as (y' & Hy' & Hcy').
  unfold elem in *; simpl in *. rewrite Hoff in Hx', Hy'.
  split; congruence.
Qed.

Lemma X3_reshape_same_offset_witness :
  let t : Tensor Z := mkTensor [2; 3] [1; 2; 3; 4; 5; 42] in
  ∃ t', TensorH.reshape t [3; 2] = Done t' ()
    ∧ TensorH.operator_call t' [2; 1] = TensorH.operator_call t [1; 2].
Proof.
  intros t.
  assert (wf 2 t) as Ht by wf_by_computation.
  destruct (X3_reshape_same_offset 2 t [3; 2] [1; 2] [2; 1])
    as (t' & Hreshape & _ & _ & _ & Hread & _);
    [done|reflexivity|reflexivity|repeat constructor; lia
    |repeat constructor; lia|reflexivity|].
  by exists t'.
Defined.

(** X4: reshaping to a shape with the same element count and back to the
    original shape gives back the original tensor, in the three headers. *)
Theorem X4_reshape_round_trip {T : Type} `{Numeric T} (N : nat) (t : Tensor T)
    (new_shape : list Z) :
  inv N t → length new_shape = N → total_size new_shape = size t →
  ∃ t', TensorH.reshape t new_shape = Done t' ()
    ∧ TensorH.reshape t' (shape_ t) = Done t ()
    ∧ Checked.reshape t new_shape = Done t' ()
    ∧ Checked.reshape t' (shape_ t) = Done t ()
    ∧ Part000.reshape N t new_shape = Done t' ()
    ∧ Part000.reshape N t' (shape_ t) = Done t ().
Proof.
  intros [Hrank Hsize] Hlen Htotal.
  exists (mkTensor new_shape (data_ t)).
  unfold TensorH.reshape, Checked.reshape, size in *; simpl.
  rewrite !decide_False by (by intros []).
  rewrite !reshape_000_Done by done. simpl.
  rewrite !resize_same_length by lia.
  by destruct t.
Qed.

Lemma X4_reshape_round_trip_witness :
  let t : Tensor Z := mkTensor [2; 2; 2] [1; 2; 3; 4; 5; 6; 7; 8] in
  ∃ t', Part000.reshape 3 t [2; 4; 1] = Done t' ()
    ∧ Part000.reshape 3 t' [2; 2; 2] = Done t ().
Proof.
  intros t.
  destruct (X4_reshape_round_trip 3 t [2; 4; 1])
    as (t' & _ & _ & _ & _ & Hthere & Hback);
    [split; reflexivity|reflexivity|reflexivity|].
  by exists t'.
Defined.

(** X5: the [reshape] of the broadcasting header loses data when the element
    count shrinks: reshaping to fewer elements and back to the original
    shape keeps the elements below the smaller count and leaves
    value-initialised elements in all the other positions. *)
Theorem X5_reshape_shrink_then_grow {T : Type} `{Numeric T} (N : nat)
    (t : Tensor T) (small : list Z) :
  inv N t → length small = N → total_size small ≤ size t →
  ∃ t1 t2, Part000.reshape N t small = Done t1 ()
    ∧ Part000.reshape N t1 (shape_ t) = Done t2 ()
    ∧ shape_ t2 = shape_ t ∧ size t2 = size t
    ∧ ∀ k, (k < length (data_ t))%nat →
        data_ t2 !! k
        = if decide (Z.of_nat k < total_size small) then data_ t !! k
          else Some zero.
Proof.
  intros [Hrank Hsize] Hlen Hle. unfold size in *.
  pose proof (total_size_range small) as Hrange.
  do 2 eexists. rewrite !reshape_000_Done by done. simpl.
  split; [done|]. split; [done|]. split; [done|].
  unfold size; simpl. rewrite length_resize. split; [lia|].
  intros k Hk. rewrite lookup_resize by lia.
  rewrite length_resize. case_decide; case_decide; try lia; [|done].
  rewrite lookup_resize by lia. by rewrite decide_True by done.
Qed.

Lemma X5_reshape_shrink_then_grow_witness :
  let t : Tensor Z := mkTensor [2; 3] [1; 2; 3; 4; 5; 6] in
  ∃ t1, Part000.reshape 2 t [2; 2] = Done t1 ()
    ∧ Part000.reshape 2 t1 [2; 3] = Done (mkTensor [2; 3] [1; 2; 3; 4; 0; 0]) ().
Proof.
  intros t.
  destruct (X5_reshape_shrink_then_grow 2 t [2; 2])
    as (t1 & t2 & H1 & H2 & _);
    [split; reflexivity|reflexivity|by vm_compute|].
  exists t1. split; [done|]. by vm_compute in H1; simplify_eq.
Defined.

(** ** Flat positions and multi-indices *)

(** X6: for a shape whose element count fits [size_t], the loop that splits
    a flat position into a multi-index and [compute_index] are inverse to
    each other: every position below the element count yields an index
    within bounds that [compute_index] maps back to the position, and every
    index within bounds is mapped to a position below the element count from
    which the loop recovers the index. *)
Theorem X6_index_round_trip (shape : list Z) :
  Forall (λ d, 0 ≤ d) shape → product shape < 2 ^ SIZE_BITS →
  (∀ flat, 0 ≤ flat < product shape →
     ∃ indices, unflatten shape flat = Ok indices
       ∧ in_bounds shape indices ∧ compute_index shape indices = flat)
  ∧ (∀ indices, in_bounds shape indices →
       0 ≤ compute_index shape indices < product shape
       ∧ unflatten shape (compute_index shape indices) = Ok indices).
Proof.
  intros Hdims Hfit. split.
  - intros flat Hflat.
    destruct (unflatten_in_range shape flat Hdims Hflat) as (indices & Hrun & Hin & Hoff).
    exists indices. split; [done|]. split; [done|].
    by rewrite compute_index_in_bounds.
  - intros indices Hin. rewrite compute_index_in_bounds by done.
    split; [by apply offset_of_range|by apply unflatten_offset_of].
Qed.

Lemma X6_index_round_trip_witness :
  unflatten [2; 3; 4] (compute_index [2; 3; 4] [1; 2; 3]) = Ok [1; 2; 3].
Proof.
  assert (Forall (λ d, 0 ≤ d) [2; 3; 4]) as Hdims by (repeat constructor; lia).
  assert (product [2; 3; 4] < 2 ^ SIZE_BITS) as Hfit by reflexivity.
  destruct (X6_index_round_trip [2; 3; 4] Hdims Hfit) as [_ Hback].
  apply Hback. repeat constructor; lia.
Defined.

(** ** Assignment from a flat literal *)

(** X7: [operator=(std::initializer_list)] with a list as long as the buffer
    keeps the shape and makes every index within bounds read the list entry
    at its row-major offset; with a list of any other length it throws
    ([runtime_error] in the broadcasting header, [invalid_argument] in the
    bounds-checked one) and leaves the tensor as it was. *)
Theorem X7_list_assignment {T : Type} `{Numeric T} (N : nat) (t : Tensor T)
    (list : list T) :
  wf N t →
  (length list ≠ length (data_ t) →
     Part000.operator_assign t list
       = Raised t (runtime_error "Data size does not match tensor size")
     ∧ Checked.operator_assign t list
       = Raised t (invalid_argument "Data size does not match tensor size"))
  ∧ (length list = length (data_ t) →
     ∃ t', Part000.operator_assign t list = Done t' ()
       ∧ Checked.operator_assign t list = Done t' ()
       ∧ shape_ t' = shape_ t ∧ wf N t'
       ∧ ∀ indices, in_bounds (shape_ t) indices →
           ∃ x, list !! Z.to_nat (offset_of (shape_ t) indices) = Some x
             ∧ Part000.operator_call t' indices = Ok x
             ∧ Checked.operator_call t' indices = Ok x).
Proof.
  intros Ht. unfold Part000.operator_assign, Checked.operator_assign. split.
  - intros Hne. by rewrite !decide_True by done.
  - intros Heq. rewrite !decide_False by (by intros []).
    assert (wf N (mkTensor (shape_ t) list)) as Ht'
      by by apply (wf_same_shape N t).
    eexists. split; [done|]. split; [done|]. split; [done|]. split; [done|].
    intros indices Hin.
    destruct (wf_operator_call_000 N _ indices Ht' Hin) as (x & Hx & Hcx).
    destruct (wf_operator_call_C N _ indices Ht' Hin) as (y & Hy & Hcy).
    exists x. split; [done|]. split; [done|]. congruence.
Qed.

Lemma X7_list_assignment_witness :
  let t : Tensor Z := Part000.Tensor_array [2; 2] in
  ∃ t', Part000.operator_assign t [5; 6; 7; 8] = Done t' ()
    ∧ ∃ x, [5; 6; 7; 8] !! Z.to_nat (offset_of [2; 2] [1; 0]) = Some x
        ∧ Part000.operator_call t' [1; 0] = Ok x.
Proof.
  intros t.
  assert (wf 2 t) as Ht by wf_by_computation.
  destruct (X7_list_assignment 2 t [5; 6; 7; 8] Ht) as [_ Hok].
  destruct Hok as (t' & Hassign & _ & _ & _ & Hread); [reflexivity|].
  exists t'. split; [done|].
  destruct (Hread [1; 0]) as (x & Hx & Hcall & _); [repeat constructor; lia|].
  by exists x.
Defined.

(** ** Allocation *)

Lemma product_wrap (dims : list Z) :
  wrap (product (wrap <$> dims)) = wrap (product dims).
Proof.
  induction dims as [|d dims IH]; [done|].
  cbn [fmap list_fmap product foldr]. fold (product (wrap <$> dims)).
  fold (product dims).
  by rewrite wrap_mul_l, <- wrap_mul_r, IH, wrap_mul_r.
Qed.

(** X8: every constructor taking dimensions allocates the product of the
    dimensions reduced modulo [2^64], the variadic constructor of
    [include/utec/algebra/Tensor.h] when its arguments are integers (it
    then builds the tensor whose shape holds the arguments converted to
    [size_t]); the buffer therefore has one element per index exactly when
    that product is below [2^64], and is shorter than the index space when
    the product wraps around. *)
Theorem X8_constructor_size {T : Type} `{Numeric T} (N : nat) (dims : list Z) :
  size (TensorH.Tensor_array (T:=T) dims) = product dims `mod` 2 ^ SIZE_BITS
  ∧ (∃ t : Tensor T,
       TensorH.Tensor_dims (Integral <$> dims) = Ok t
       ∧ shape_ t = wrap <$> dims
       ∧ size t = product dims `mod` 2 ^ SIZE_BITS)
  ∧ size (Part000.Tensor_array (T:=T) dims) = product dims `mod` 2 ^ SIZE_BITS
  ∧ size (Checked.Tensor_array (T:=T) dims) = product dims `mod` 2 ^ SIZE_BITS
  ∧ size (Checked.Tensor_dims (T:=T) dims) = product dims `mod` 2 ^ SIZE_BITS
  ∧ (∀ t : Tensor T, Part000.Tensor_dims N dims = Ok t →
       size t = product dims `mod` 2 ^ SIZE_BITS)
  ∧ (size (TensorH.Tensor_array (T:=T) dims) = product dims
     ↔ 0 ≤ product dims < 2 ^ SIZE_BITS).
Proof.
  assert (Z.of_nat (length (resize (T:=T) [] (total_size dims)))
          = product dims `mod` 2 ^ SIZE_BITS) as Hsize.
  { rewrite fresh_size. apply total_size_wrap. }
  split; [exact Hsize|]. split.
  { exists (TensorH.Tensor_array (wrap <$> dims)).
    split; [apply Tensor_dims_integral|]. split; [done|].
    unfold size, TensorH.Tensor_array; simpl.
    rewrite fresh_size, total_size_wrap. apply product_wrap. }
  repeat (split; [exact Hsize|]). split.
  - intros t Ht. unfold Part000.Tensor_dims in Ht. case_decide; simplify_eq.
    exact Hsize.
  - unfold size, TensorH.Tensor_array; simpl. rewrite Hsize. split.
    + intros Heq. rewrite <- Heq. apply Z.mod_pos_bound. reflexivity.
    + intros Hfit. by apply Z.mod_small.
Qed.

Lemma X8_constructor_size_witness :
  size (TensorH.Tensor_array (T:=Z) [2 ^ 32; 2 ^ 32]) = 0
  ∧ size (TensorH.Tensor_array (T:=Z) [2 ^ 32; 2 ^ 32]) ≠ product [2 ^ 32; 2 ^ 32].
Proof.
  split; [reflexivity|]. intros Heq.
  destruct (X8_constructor_size (T:=Z) 2 [2 ^ 32; 2 ^ 32])
    as (_ & _ & _ & _ & _ & _ & Hiff).
  apply Hiff in Heq. destruct Heq as [_ Hlt]. by vm_compute in Hlt.
Defined.

(** ** Elementwise operators on two tensors *)

Section elementwise_more.
Context {T : Type} `{Numeric T}.

Lemma broadcasts_into_compatible (sa sb : list Z) :
  broadcasts_into sb sa → compatible sa sb.
Proof.
  unfold broadcasts_into, compatible. intros Hinto.
  eapply Forall2_impl; [done|]. intros a b [-> | ->]; auto.
Qed.

Lemma broadcasts_into_max (sa sb : list Z) :
  Forall (λ d, 1 ≤ d) sa → broadcasts_into sb sa → max_shape sa sb = sa.
Proof.
  intros Hpos Hinto. revert Hpos.
  induction Hinto as [|a b sa sb Hax _ IH]; intros Hpos; [done|].
  apply Forall_cons in Hpos as [Ha Hpos]. unfold max_shape in *; simpl.
  rewrite IH by done. f_equal. lia.
Qed.

Lemma broadcasts_into_positive (sa sb : list Z) :
  Forall (λ d, 1 ≤ d) sa → broadcasts_into sb sa → Forall (λ d, 1 ≤ d) sb.
Proof.
  intros Hpos Hinto. revert Hpos.
  induction Hinto as [|a b sa sb Hax _ IH]; intros Hpos; [constructor|].
  apply Forall_cons in Hpos as [Ha Hpos]. constructor; [lia|by apply IH].
Qed.

(** An index within the bounds of a shape is its own broadcast index. *)
Lemma broadcast_indices_id (shape indices : list Z) :
  in_bounds shape indices → broadcast_indices indices shape = indices.
Proof.
  induction 1 as [|i d indices shape Hi _ IH]; [done|].
  unfold broadcast_indices in *; simpl. rewrite IH. f_equal.
  unfold broadcast_index. case_decide; lia.
Qed.

Lemma no_throw_broadcast_loop (op : T → T → T) (a b : Tensor T) (buf : list T) :
  no_throw
    (for_loop (length (data_ a))
       (λ i rdata,
          indices ← unflatten (shape_ a) (Z.of_nat i);
          let other_indices := broadcast_indices indices (shape_ b) in
          x ← vec_read (data_ a) (Z.of_nat i);
          y ← vec_read (data_ b) (Part000.compute_flat_index b other_indices);
          vec_write rdata (Z.of_nat i) (op x y))
       buf).
Proof.
  unfold for_loop. apply no_throw_foldM. intros i rdata.
  apply no_throw_bind; [apply no_throw_unflatten|]. intros idx. cbv zeta.
  apply no_throw_bind; [apply no_throw_vec_read|]. intros x.
  apply no_throw_bind; [apply no_throw_vec_read|]. intros y.
  apply no_throw_vec_write.
Qed.
End elementwise_more.

(** X9: [operator*(const Tensor&)] of [include/utec/algebra/Tensor.h], on
    well-formed tensors whose axes all have at least one entry: it throws
    [invalid_argument] when some axis is incompatible; otherwise (the
    broadcast element count fitting [size_t]) the result has shape
    [max(sa[a], sb[a])] and reading it at any index within bounds gives the
    product of what the operands give at that index with their size-1 axes
    mapped to 0, whichever operand is the smaller one. *)
Theorem X9_times_broadcasts {T : Type} `{Numeric T} (N : nat) (a b : Tensor T) :
  wf N a → wf N b → positive_dims a → positive_dims b →
  (¬ compatible (shape_ a) (shape_ b) →
     TensorH.operator_times a b
     = Throw (invalid_argument "Shapes incompatibles para broadcasting"))
  ∧ (compatible (shape_ a) (shape_ b) →
     product (max_shape (shape_ a) (shape_ b)) < 2 ^ SIZE_BITS →
     ∃ r, TensorH.operator_times a b = Ok r
       ∧ shape_ r = max_shape (shape_ a) (shape_ b) ∧ wf N r
       ∧ ∀ idx, in_bounds (shape_ r) idx →
           ∃ x y,
             TensorH.operator_call a (broadcast_indices idx (shape_ a)) = Ok x
             ∧ TensorH.operator_call b (broadcast_indices idx (shape_ b)) = Ok y
             ∧ TensorH.operator_call r idx = Ok (mul x y)).
Proof.
  intros Ha Hb Hpa Hpb. destruct (operator_times_spec N a b Ha Hb) as [Hthrow Hok].
  split; [done|]. intros Hc Hfit.
  rewrite <- times_shape_max in * by done.
  destruct (Hok Hc Hfit) as (r & Hr & Hshape & _ & Hwf & Hel).
  exists r. split; [done|]. split; [done|]. split; [done|].
  intros idx Hin. destruct (Hel idx Hin) as (x & y & Hx & Hy & Hxy).
  rewrite Hshape in Hin.
  destruct (times_shape_in_bounds _ _ idx Hc Hin) as [Hina Hinb].
  rewrite <- Hshape in Hin.
  destruct (wf_operator_call_H N a _ Ha Hina) as (x' & Hx' & Hcx).
  destruct (wf_operator_call_H N b _ Hb Hinb) as (y' & Hy' & Hcy).
  destruct (wf_operator_call_H N r _ Hwf Hin) as (z & Hz & Hcz).
  exists x, y. split; [congruence|]. split; congruence.
Qed.

Lemma X9_times_broadcasts_witness :
  let m : Tensor Z := mkTensor [2; 1] [3; 4] in
  let n : Tensor Z := mkTensor [2; 3] [5; 5; 5; 5; 5; 5] in
  ∃ p, TensorH.operator_times m n = Ok p ∧ shape_ p = [2; 3]
    ∧ ∃ x y, TensorH.operator_call m (broadcast_indices [1; 1] [2; 1]) = Ok x
        ∧ TensorH.operator_call n (broadcast_indices [1; 1] [2; 3]) = Ok y
        ∧ TensorH.operator_call p [1; 1] = Ok (x * y).
Proof.
  intros m n.
  assert (wf 2 m) as Hm by wf_by_computation.
  assert (wf 2 n) as Hn by wf_by_computation.
  destruct (X9_times_broadcasts 2 m n Hm Hn) as [_ Hok];
    [repeat constructor; lia..|].
  destruct Hok as (p & Hp & Hshape & _ & Hel);
    [repeat constructor; lia|reflexivity|].
  exists p. split; [done|]. split; [done|].
  apply (Hel [1; 1]). rewrite Hshape. repeat constructor; lia.
Defined.

(** X10: the operators [+], [-] and [*] of the broadcasting header (all
    three are [broadcast_op] at the element operator) broadcast their right
    operand correctly: when every axis of [B] has the size of the same axis
    of [A] or size 1, the result has the shape of [A], which is the
    broadcast shape, and reading it at any index within bounds gives the
    operator applied to [A] at that index and to [B] at that index with its
    size-1 axes mapped to 0. *)
Theorem X10_broadcast_right_operand {T : Type} `{Numeric T} (N : nat)
    (op : T → T → T) (a b : Tensor T) :
  wf N a → wf N b → positive_dims a →
  broadcasts_into (shape_ b) (shape_ a) →
  ∃ r, Part000.broadcast_op op a b = Ok r
    ∧ shape_ r = max_shape (shape_ a) (shape_ b) ∧ wf N r
    ∧ ∀ idx, in_bounds (shape_ r) idx →
        ∃ x y,
          Part000.operator_call a idx = Ok x
          ∧ Part000.operator_call b (broadcast_indices idx (shape_ b)) = Ok y
          ∧ Part000.operator_call r idx = Ok (op x y).
Proof.
  intros Ha Hb Hpa Hinto.
  assert (positive_dims b) as Hpb by by eapply broadcasts_into_positive.
  assert (length (shape_ a) = length (shape_ b)) as Hlen
    by by rewrite (wf_rank N a), (wf_rank N b).
  assert (Part000.can_broadcast (shape_ a) (shape_ b) = true) as Hcan.
  { apply can_broadcast_compatible; [done|]. by apply broadcasts_into_compatible. }
  destruct (broadcast_op_spec N op a b Ha Hb Hpb Hcan)
    as (r & Hr & Hshape & Hrlen & Hel).
  assert (wf N r) as Hwf by by apply (wf_same_shape N a).
  exists r. split; [done|]. split; [by rewrite broadcasts_into_max|].
  split; [done|]. intros idx Hin. rewrite Hshape in Hin.
  assert (in_bounds (shape_ b) (broadcast_indices idx (shape_ b))) as Hinb
    by by apply (broadcast_in_bounds (shape_ a)).
  destruct (wf_operator_call_000 N a idx Ha Hin) as (x & Hx & Hcx).
  destruct (wf_operator_call_000 N b _ Hb Hinb) as (y & Hy & Hcy).
  assert (in_bounds (shape_ r) idx) as Hinr by by rewrite Hshape.
  destruct (wf_operator_call_000 N r idx Hwf Hinr) as (z & Hz & Hcz).
  exists x, y. split; [done|]. split; [done|].
  pose proof (offset_of_range _ _ Hin) as Hoff.
  destruct (Hel (Z.to_nat (offset_of (shape_ a) idx)) x Hx) as (y' & Hy' & Hz').
  unfold partner in Hy'. rewrite Z2Nat.id, unflatten_offset_of in Hy' by (done || lia).
  unfold elem in Hz. rewrite Hshape in Hz. congruence.
Qed.

Lemma X10_broadcast_right_operand_witness :
  let a : Tensor Z := mkTensor [2; 3] [10; 20; 30; 40; 50; 60] in
  let b : Tensor Z := mkTensor [1; 3] [1; 2; 3] in
  ∃ r, Part000.operator_plus a b = Ok r ∧ shape_ r = [2; 3]
    ∧ ∃ x y, Part000.operator_call a [1; 2] = Ok x
        ∧ Part000.operator_call b (broadcast_indices [1; 2] [1; 3]) = Ok y
        ∧ Part000.operator_call r [1; 2] = Ok (x + y).
Proof.
  intros a b.
  assert (wf 2 a) as Ha by wf_by_computation.
  assert (wf 2 b) as Hb by wf_by_computation.
  destruct (X10_broadcast_right_operand 2 Z.add a b Ha Hb)
    as (r & Hr & Hshape & _ & Hel).
  { repeat constructor; lia. }
  { constructor; [by right|]. constructor; [by left|]. constructor. }
  exists r. split; [done|]. split; [done|].
  apply (Hel [1; 2]). rewrite Hshape. repeat constructor; lia.
Defined.

Section same_shape.
Context {T : Type} `{Numeric T}.

Lemma can_broadcast_sym (sa sb : list Z) :
  Part000.can_broadcast sa sb = Part000.can_broadcast sb sa.
Proof.
  revert sb. induction sa as [|a sa IH]; intros [|b sb]; simpl; [done..|].
  rewrite IH.
  rewrite (bool_decide_ext (a ≠ b ∧ a ≠ 1 ∧ b ≠ 1) (b ≠ a ∧ b ≠ 1 ∧ a ≠ 1)); [done|].
  split; intros (Hne & H1 & H2); repeat split; auto.
Qed.

Lemma bind_Throw {A B : Type} (m : outcome A) (f : A → outcome B) (e : exn) :
  m ≫= f = Throw e → m = Throw e ∨ ∃ a, m = Ok a ∧ f a = Throw e.
Proof.
  destruct m as [a|e'|]; simpl; [|intros [= ->]; by left|done].
  intros Hf. right. by exists a.
Qed.

Lemma exact_op_C_spec (op : T → T → T) (a b : Tensor T) :
  shape_ a = shape_ b →
  size a = total_size (shape_ a) → size b = total_size (shape_ b) →
  Checked.exact_op op a b
  = Ok (mkTensor (shape_ a) (zip_with op (data_ a) (data_ b))).
Proof.
  intros Hshape Ha Hb. unfold Checked.exact_op. rewrite decide_False by (by intros []).
  assert (length (data_ a) = length (data_ b)) as Hlen.
  { unfold size in *. rewrite Hshape in Ha. lia. }
  assert (length (zip_with op (data_ a) (data_ b)) = length (data_ a)) as Hout.
  { rewrite length_zip_with. lia. }
  rewrite <- Hout. simpl.
  rewrite for_loop_fill_list; [done| |].
  - rewrite length_resize, Hout. unfold size in Ha. lia.
  - intros k z rdata Hz Hl.
    apply lookup_zip_with_Some in Hz as (x & y & -> & Hx & Hy).
    rewrite (vec_read_nat _ _ x Hx). simpl.
    rewrite (vec_read_nat _ _ y Hy). simpl.
    apply vec_write_nat. apply lookup_lt_Some in Hx. lia.
Qed.

(** On two well-formed tensors of one shape, the broadcasting operators of
    the broadcasting header combine the buffers position by position. *)
Lemma broadcast_op_same_shape (N : nat) (op : T → T → T) (a b : Tensor T) :
  wf N a → wf N b → shape_ a = shape_ b →
  Part000.broadcast_op op a b
  = Ok (mkTensor (shape_ a) (zip_with op (data_ a) (data_ b))).
Proof.
  intros Ha Hb Hshape.
  assert (length (data_ a) = length (data_ b)) as Hlen.
  { pose proof (wf_size N a Ha). pose proof (wf_size N b Hb).
    unfold size in *. rewrite Hshape in *. lia. }
  assert (length (zip_with op (data_ a) (data_ b)) = length (data_ a)) as Hout.
  { rewrite length_zip_with. lia. }
  assert (Part000.can_broadcast (shape_ a) (shape_ b) = true) as Hcan.
  { apply can_broadcast_compatible; [by rewrite Hshape|]. rewrite Hshape.
    apply Forall2_same_length_lookup. split; [done|].
    intros i x y Hx Hy. left. congruence. }
  unfold Part000.broadcast_op. rewrite Hcan. cbn [negb].
  unfold Part000.Tensor_array; cbn [data_ shape_].
  rewrite <- Hout at 1.
  rewrite for_loop_fill_list; [done| |].
  - rewrite length_resize, Hout, <- (wf_total_size N a Ha). unfold size. lia.
  - intros k z rdata Hz Hl.
    apply lookup_zip_with_Some in Hz as (x & y & -> & Hx & Hy).
    pose proof (lookup_lt_Some _ _ _ Hx) as Hk.
    destruct (unflatten_in_range (shape_ a) (Z.of_nat k)) as (idx & Hidx & Hin & Hoff).
    { apply Ha. }
    { pose proof (wf_size N a Ha) as Hsize. unfold size in Hsize. lia. }
    rewrite Hidx, bind_Ok_l. cbv zeta.
    rewrite (vec_read_nat _ _ x Hx), bind_Ok_l.
    rewrite Hshape in Hin. rewrite broadcast_indices_id by done.
    unfold Part000.compute_flat_index.
    rewrite compute_index_in_bounds by (done || apply Hb).
    rewrite <- Hshape, Hoff, (vec_read_nat _ _ y Hy), bind_Ok_l.
    apply vec_write_nat. lia.
Qed.
End same_shape.

(** X11: the compatibility check of the broadcasting header is symmetric in
    its operands and accepts exactly the pairs of shapes in which every axis
    has equal sizes or a size 1 on one side; [A op B] throws if and only if
    the shapes of [A] and [B] fail that check, in which case [B op A] throws
    the same [runtime_error]. *)
Theorem X11_broadcast_check {T : Type} `{Numeric T} (op : T → T → T)
    (a b : Tensor T) :
  length (shape_ a) = length (shape_ b) →
  Part000.can_broadcast (shape_ a) (shape_ b)
    = Part000.can_broadcast (shape_ b) (shape_ a)
  ∧ (Part000.can_broadcast (shape_ a) (shape_ b) = true
       ↔ compatible (shape_ a) (shape_ b))
  ∧ ((∃ e, Part000.broadcast_op op a b = Throw e)
       ↔ ¬ compatible (shape_ a) (shape_ b))
  ∧ (¬ compatible (shape_ a) (shape_ b) →
       Part000.broadcast_op op a b
         = Throw (runtime_error
             "Shapes do not match and they are not compatible for broadcasting")
       ∧ Part000.broadcast_op op b a = Part000.broadcast_op op a b).
Proof.
  intros Hlen. split; [apply can_broadcast_sym|].
  split; [by apply can_broadcast_compatible|]. split; [split|].
  - intros [e He] Hc. apply can_broadcast_compatible in Hc; [|done].
    unfold Part000.broadcast_op in He. rewrite Hc in He. cbn [negb] in He.
    apply bind_Throw in He as [He|(data & _ & He)]; [|done].
    by apply no_throw_broadcast_loop in He.
  - intros Hnc. eexists. by apply broadcast_op_incompatible.
  - intros Hnc. rewrite (broadcast_op_incompatible op a b) by done.
    split; [done|]. apply broadcast_op_incompatible; [done|].
    intros Hc. apply Hnc. apply can_broadcast_compatible; [done|].
    rewrite can_broadcast_sym. by apply can_broadcast_compatible.
Qed.

Lemma X11_broadcast_check_witness :
  let a : Tensor Z := mkTensor [2; 3] [1; 2; 3; 4; 5; 6] in
  let b : Tensor Z := mkTensor [3; 3] [1; 2; 3; 4; 5; 6; 7; 8; 9] in
  ∃ e, Part000.operator_plus a b = Throw e.
Proof.
  intros a b.
  destruct (X11_broadcast_check Z.add a b eq_refl) as (_ & _ & Hiff & _).
  apply Hiff. intros Hc. inversion Hc as [|? ? ? ? Hax _]; subst. lia.
Defined.

(** X12: the operators that require equal shapes ([+] and [-] of
    [include/utec/algebra/Tensor.h]; [+], [-] and [*] of the bounds-checked
    header), on tensors whose buffers have the length their shapes announce:
    any difference between the shapes, a size-1 axis included, is an
    [invalid_argument]; on equal shapes the result has that shape and holds
    the operator applied to the two buffers position by position. *)
Theorem X12_exact_shape_operators {T : Type} `{Numeric T} (N : nat)
    (a b : Tensor T) :
  inv N a → inv N b →
  (shape_ a ≠ shape_ b →
     TensorH.operator_plus a b
       = Throw (invalid_argument "Shapes incompatibles para suma")
     ∧ TensorH.operator_minus a b
       = Throw (invalid_argument "Shapes incompatibles para resta")
     ∧ ∀ op, Checked.exact_op op a b
       = Throw (invalid_argument
           "Shapes do not match and they are not compatible for broadcasting"))
  ∧ (shape_ a = shape_ b →
     TensorH.operator_plus a b
       = Ok (mkTensor (shape_ a) (zip_with add (data_ a) (data_ b)))
     ∧ TensorH.operator_minus a b
       = Ok (mkTensor (shape_ a) (zip_with sub (data_ a) (data_ b)))
     ∧ Checked.operator_plus a b
       = Ok (mkTensor (shape_ a) (zip_with add (data_ a) (data_ b)))
     ∧ Checked.operator_minus a b
       = Ok (mkTensor (shape_ a) (zip_with sub (data_ a) (data_ b)))
     ∧ Checked.operator_times a b
       = Ok (mkTensor (shape_ a) (zip_with mul (data_ a) (data_ b)))).
Proof.
  intros [_ Ha] [_ Hb]. split.
  - intros Hne. unfold TensorH.operator_plus, TensorH.operator_minus,
      TensorH.exact_op, Checked.exact_op.
    rewrite !decide_True by done. repeat split. intros op.
    by rewrite decide_True by done.
  - intros Heq. unfold TensorH.operator_plus, TensorH.operator_minus,
      Checked.operator_plus, Checked.operator_minus, Checked.operator_times.
    rewrite !exact_op_spec, !exact_op_C_spec by done. done.
Qed.

Lemma X12_exact_shape_operators_witness :
  let a : Tensor Z := mkTensor [2; 2] [0; 5; 0; 0] in
  let b : Tensor Z := mkTensor [2; 2] [2; 2; 2; 2] in
  TensorH.operator_plus a b = Ok (mkTensor [2; 2] [2; 7; 2; 2])
  ∧ Checked.operator_times (mkTensor [2; 1] [3; 4]) (mkTensor [2; 3] [5; 5; 5; 5; 5; 5])
    = Throw (invalid_argument
        "Shapes do not match and they are not compatible for broadcasting").
Proof.
  intros a b. split.
  - destruct (X12_exact_shape_operators 2 a b) as [_ Hok];
      [split; reflexivity..|].
    destruct Hok as (Hplus & _); [reflexivity|]. exact Hplus.
  - destruct (X12_exact_shape_operators (T:=Z) 2
        (mkTensor [2; 1] [3; 4]) (mkTensor [2; 3] [5; 5; 5; 5; 5; 5])) as [Hthrow _];
      [split; reflexivity..|].
    destruct Hthrow as (_ & _ & Hop); [by intros [=]|]. apply (Hop Z.mul).
Defined.

(** X13: on two well-formed tensors of one shape the three headers agree:
    the broadcasting operators of the broadcasting header and the
    broadcasting [operator*] of [include/utec/algebra/Tensor.h] return the
    same tensor as the exact-shape operators, the buffers combined position
    by position. *)
Theorem X13_same_shape_agreement {T : Type} `{Numeric T} (N : nat)
    (a b : Tensor T) :
  wf N a → wf N b → shape_ a = shape_ b →
  Part000.operator_plus a b = TensorH.operator_plus a b
  ∧ Part000.operator_minus a b = TensorH.operator_minus a b
  ∧ Part000.operator_times a b = Checked.operator_times a b
  ∧ TensorH.operator_times a b = Checked.operator_times a b
  ∧ Checked.operator_times a b
    = Ok (mkTensor (shape_ a) (zip_with mul (data_ a) (data_ b))).
Proof.
  intros Ha Hb Hshape.
  pose proof (wf_total_size N a Ha) as Hsa. pose proof (wf_total_size N b Hb) as Hsb.
  unfold Part000.operator_plus, Part000.operator_minus, Part000.operator_times,
    TensorH.operator_plus, TensorH.operator_minus, Checked.operator_times.
  rewrite !(broadcast_op_same_shape N), !exact_op_spec, !exact_op_C_spec by done.
  split; [done|]. split; [done|]. split; [done|]. split; [|done].
  assert (compatible (shape_ a) (shape_ b)) as Hc.
  { rewrite Hshape. apply Forall2_same_length_lookup. split; [done|].
    intros i x y Hx Hy. left. congruence. }
  assert (times_shape (shape_ a) (shape_ b) = shape_ a) as Hts.
  { rewrite <- Hshape. clear. induction (shape_ a) as [|d s IH]; [done|].
    unfold times_shape in *; simpl. rewrite IH. by rewrite decide_True. }
  destruct (operator_times_spec N a b Ha Hb) as [_ Hok].
  destruct Hok as (r & Hr & Hrs & _ & Hwf & Hel); [done|rewrite Hts; apply Ha|].
  rewrite Hr. f_equal. rewrite Hts in Hrs.
  assert (length (data_ a) = length (data_ b)) as Hlen.
  { unfold size in *. rewrite Hshape in *. lia. }
  apply (wf_ext N).
  - apply (wf_same_shape N a); [done..|]. simpl. rewrite length_zip_with. lia.
  - done.
  - done.
  - intros idx Hin. simpl in Hin.
    assert (in_bounds (shape_ r) idx) as Hinr by by rewrite Hrs.
    destruct (Hel idx Hinr) as (x & y & Hx & Hy & Hxy).
    rewrite broadcast_indices_id in Hx by done.
    rewrite broadcast_indices_id in Hy by (by rewrite <- Hshape).
    rewrite Hxy. unfold elem in *; simpl. rewrite <- Hshape in Hy.
    symmetry. apply lookup_zip_with_Some. eauto.
Qed.

Lemma X13_same_shape_agreement_witness :
  let a : Tensor Z := mkTensor [2; 2; 2] [1; 1; 1; 1; 1; 1; 1; 1] in
  TensorH.operator_times a a = Checked.operator_times a a.
Proof.
  intros a. assert (wf 3 a) as Ha by wf_by_computation.
  destruct (X13_same_shape_agreement 3 a a Ha Ha eq_refl) as (_ & _ & _ & Heq & _).
  exact Heq.
Defined.

(** ** Transposition of the last two axes, ranks 2 to 4 *)

Section transpose_batched.
Context {T : Type} `{Numeric T}.

Lemma length_swap_last2 (N : nat) (l : list Z) :
  length (swap_last2 N l) = length l.
Proof. unfold swap_last2. by rewrite !length_insert. Qed.

Lemma swap_last2_involutive (N : nat) (l : list Z) :
  (N = 2 ∨ N = 3 ∨ N = 4)%nat → length l = N →
  swap_last2 N (swap_last2 N l) = l.
Proof.
  intros [-> | [-> | ->]] Hlen;
    repeat (destruct l as [|? l]; simplify_eq/=); reflexivity.
Qed.

Lemma product_swap_last2 (N : nat) (l : list Z) :
  (N = 2 ∨ N = 3 ∨ N = 4)%nat → length l = N →
  product (swap_last2 N l) = product l.
Proof.
  intros [-> | [-> | ->]] Hlen;
    repeat (destruct l as [|? l]; simplify_eq/=);
    unfold swap_last2; simpl; lia.
Qed.

Lemma in_bounds_swap_last2 (N : nat) (shape idx : list Z) :
  (2 ≤ N)%nat → length shape = N →
  in_bounds shape idx → in_bounds (swap_last2 N shape) (swap_last2 N idx).
Proof.
  intros HN Hlen Hin.
  assert (length idx = N) as Hlen' by (apply in_bounds_length in Hin; lia).
  assert (∀ p, (p < N)%nat → 0 ≤ idx !!! p < shape !!! p) as Hat.
  { intros p Hp.
    apply (Forall2_lookup_lr _ idx shape p _ _ Hin);
      apply list_lookup_lookup_total_lt; lia. }
  unfold swap_last2. apply Forall2_insert; [apply Forall2_insert; [done|]|];
    apply Hat; lia.
Qed.

Lemma nonneg_swap_last2 (N : nat) (l : list Z) :
  (2 ≤ N)%nat → length l = N →
  Forall (λ d, 0 ≤ d) l → Forall (λ d, 0 ≤ d) (swap_last2 N l).
Proof.
  intros HN Hlen Hl. unfold swap_last2.
  apply Forall_insert; [apply Forall_insert; [done|]|];
    (eapply Forall_lookup_1; [done|]); apply list_lookup_lookup_total_lt; lia.
Qed.

(** What [transpose_2d] of the broadcasting header returns at a rank it has
    a branch for. *)
Lemma transpose_2d_000_ranked (N : nat) (t : Tensor T) :
  (N = 2 ∨ N = 3 ∨ N = 4)%nat → wf N t →
  ∃ r, Part000.transpose_2d N t = Ok r
    ∧ shape_ r = swap_last2 N (shape_ t) ∧ wf N r
    ∧ ∀ idx, in_bounds (shape_ t) idx → elem r (swap_last2 N idx) = elem t idx.
Proof.
  intros HN Ht. assert (2 ≤ N)%nat as HN2 by lia.
  pose proof (wf_rank N t Ht) as Hrank.
  unfold Part000.transpose_2d, Part000.shape. rewrite decide_False by lia.
  fold (swap_last2 N (shape_ t)). set (ns := swap_last2 N (shape_ t)).
  assert (length ns = N) as Hns_len by (unfold ns; by rewrite length_swap_last2).
  assert (Forall (λ d, 0 ≤ d) ns) as Hns_dims
    by (apply nonneg_swap_last2; [done..|apply Ht]).
  assert (product ns = product (shape_ t)) as Hns_prod
    by by apply product_swap_last2.
  assert (total_size ns = product ns) as Hns_total.
  { apply total_size_fits. split; [by apply product_nonneg|].
    rewrite Hns_prod. apply Ht. }
  unfold Part000.result_tensor. rewrite has_branch_true, args_id by done.
  unfold Part000.Tensor_dims. rewrite decide_False by lia.
  rewrite bind_Ok_l, Hns_total, (total_size_fits (shape_ t))
    by (split; [apply product_nonneg|]; apply Ht).
  assert (wf N (mkTensor (T:=T) ns (resize [] (product ns)))) as Hwf0.
  { apply inv_wf; [|done|simpl; rewrite Hns_prod; apply Ht].
    split; [done|]. rewrite <- Hns_total. apply fresh_size. }
  match goal with |- context [for_loop ?n ?body ?r0] =>
    destruct (for_loop_invariant
      (λ k r, wf N r ∧ shape_ r = ns
         ∧ ∀ idx, in_bounds (shape_ t) idx →
             offset_of (shape_ t) idx < Z.of_nat k →
             elem r (swap_last2 N idx) = elem t idx)
      body n r0) as (res & Hres & Hres_wf & Hres_shape & Hres_el)
  end.
  - split; [done|]. split; [done|]. intros idx Hin Hoff.
    pose proof (offset_of_range _ _ Hin). lia.
  - intros k r Hk (Hr & Hsr & Hpre). cbv beta.
    destruct (unflatten_in_range (shape_ t) (Z.of_nat k)) as (idx & Hidx & Hin & Hoff);
      [apply Ht|lia|].
    assert (length idx = N) as Hidx_len by (apply in_bounds_length in Hin; lia).
    fold (swap_last2 N idx) in *.
    rewrite Hidx, bind_Ok_l.
    fold (swap_last2 N idx).
    rewrite !args_id by (by rewrite ?length_swap_last2).
    destruct (wf_operator_call_000 N t idx Ht Hin) as (x & Hx & Hcall).
    assert (in_bounds (shape_ r) (swap_last2 N idx)) as Hin'
      by (rewrite Hsr; by apply in_bounds_swap_last2).
    destruct (assign_in_bounds N r _ x Hr Hin')
      as (r' & _ & Hassign & Hr' & Hsr' & Hnew & Hold).
    exists r'. split; [by rewrite Hcall, bind_Ok_l, Hassign|].
    split; [done|]. split; [congruence|].
    intros idx' Hin'' Hlt.
    destruct (decide (idx' = idx)) as [->|Hne]; [congruence|].
    rewrite Hold.
    + apply Hpre; [done|].
      assert (offset_of (shape_ t) idx' ≠ Z.of_nat k); [|lia].
      rewrite <- Hoff. intros Heq. by apply (offset_of_inj (shape_ t)) in Heq.
    + rewrite Hsr. by apply in_bounds_swap_last2.
    + intros Heq. apply Hne.
      rewrite <- (swap_last2_involutive N idx'), <- (swap_last2_involutive N idx)
        by (done || apply in_bounds_length in Hin''; lia).
      by rewrite Heq.
  - exists res. split; [done|]. split; [done|]. split; [done|].
    intros idx Hin. apply Hres_el; [done|].
    pose proof (offset_of_range _ _ Hin). lia.
Qed.
End transpose_batched.

(** X14: at ranks 2, 3 and 4 the free function [transpose_2d] returns a new
    tensor whose shape is the input's with its last two entries exchanged
    and which, at every index with the last two coordinates exchanged, holds
    what the input holds at the index (the leading batch coordinates are
    kept); transposing the result again returns the input. *)
Theorem X14_transpose_batched {T : Type} `{Numeric T} (N : nat) (t : Tensor T) :
  (N = 2 ∨ N = 3 ∨ N = 4)%nat → wf N t →
  ∃ r, Part000.transpose_2d N t = Ok r
    ∧ shape_ r = swap_last2 N (shape_ t)
    ∧ (∀ idx, in_bounds (shape_ t) idx →
         Part000.operator_call r (swap_last2 N idx) = Part000.operator_call t idx)
    ∧ Part000.transpose_2d N r = Ok t.
Proof.
  intros HN Ht. assert (2 ≤ N)%nat as HN2 by lia.
  pose proof (wf_rank N t Ht) as Hrank.
  destruct (transpose_2d_000_ranked N t HN Ht) as (r & Hr & Hshape & Hwf & Hel).
  destruct (transpose_2d_000_ranked N r HN Hwf) as (u & Hu & Hshape' & Hwf' & Hel').
  exists r. split; [done|]. split; [done|]. split.
  - intros idx Hin.
    assert (in_bounds (shape_ r) (swap_last2 N idx)) as Hin'
      by (rewrite Hshape; by apply in_bounds_swap_last2).
    destruct (wf_operator_call_000 N t idx Ht Hin) as (x & Hx & Hcx).
    destruct (wf_operator_call_000 N r _ Hwf Hin') as (y & Hy & Hcy).
    rewrite Hel in Hy by done. congruence.
  - rewrite Hu. f_equal. apply (wf_ext N); [done..| |].
    + by rewrite Hshape', Hshape, swap_last2_involutive.
    + intros idx Hin.
      assert (length idx = N) as Hlen by (apply in_bounds_length in Hin; lia).
      rewrite <- (swap_last2_involutive N idx) at 1 by done.
      rewrite Hel'; [by apply Hel|].
      rewrite Hshape. by apply in_bounds_swap_last2.
Qed.

Lemma X14_transpose_batched_witness :
  let t : Tensor Z := mkTensor [2; 2; 3] [1; 2; 3; 4; 5; 6; 7; 8; 9; 10; 11; 12] in
  ∃ r, Part000.transpose_2d 3 t = Ok r ∧ shape_ r = [2; 3; 2]
    ∧ Part000.operator_call r [1; 2; 0] = Part000.operator_call t [1; 0; 2]
    ∧ Part000.transpose_2d 3 r = Ok t.
Proof.
  intros t. assert (wf 3 t) as Ht by wf_by_computation.
  destruct (X14_transpose_batched 3 t) as (r & Hr & Hshape & Hel & Hback);
    [lia|done|].
  exists r. split; [done|]. split; [done|]. split; [|done].
  apply (Hel [1; 0; 2]). repeat constructor; lia.
Defined.

(** ** Ranks without a branch *)

Section unsupported.
Context {T : Type} `{Numeric T}.

Lemma product_zero_dim (shape : list Z) :
  Forall (λ d, 0 ≤ d) shape → ¬ Forall (λ d, 0 < d) shape → product shape = 0.
Proof.
  induction 1 as [|d shape Hd Hshape IH]; intros Hnot.
  - destruct Hnot. constructor.
  - simpl. destruct (decide (d = 0)) as [->|Hd0]; [lia|].
    rewrite IH; [lia|]. intros Hpos. apply Hnot. constructor; [lia|done].
Qed.

(** The loop that derives a multi-index from every flat position below the
    allocated count never divides by zero. *)
Lemma unflatten_below_total (shape : list Z) (i : nat) :
  Forall (λ d, 0 ≤ d) shape → (i < Z.to_nat (total_size shape))%nat →
  ∃ idx, unflatten shape (Z.of_nat i) = Ok idx.
Proof.
  intros Hdims Hi.
  destruct (decide (Forall (λ d, 0 < d) shape)) as [Hpos|Hzero].
  - destruct (unflatten_loop_total shape (Z.of_nat i) Hpos) as (idx & r & Hrun & _);
      [lia|].
    exists idx. unfold unflatten. by rewrite Hrun.
  - rewrite total_size_wrap, product_zero_dim in Hi by done.
    by vm_compute in Hi; lia.
Qed.

Lemma for_loop_skip {S : Type} (n : nat) (body : nat → S → outcome S) (s : S) :
  (∀ k, (k < n)%nat → body k s = Ok s) → for_loop n body s = Ok s.
Proof.
  intros Hbody.
  destruct (for_loop_invariant (λ _ s', s' = s) body n s) as (s' & Hrun & ->);
    [done| |done].
  intros k s' Hk ->. exists s. split; [by apply Hbody|done].
Qed.

Lemma has_branch_false (N : nat) : (5 ≤ N)%nat → Part000.has_branch N = false.
Proof. intros HN. unfold Part000.has_branch. apply bool_decide_eq_false. lia. Qed.
End unsupported.

(** X15: outside ranks 2 to 4 the two free functions of the broadcasting
    header do no work.  [transpose_2d] throws at ranks 0 and 1; at any rank
    from 5 on, [transpose_2d] and (once its two checks pass)
    [matrix_product] return the default-constructed tensor, shape all ones
    and one value-initialised element, whatever the operands hold. *)
Theorem X15_ranks_without_branch {T : Type} `{Numeric T} (N : nat)
    (A B : Tensor T) :
  Forall (λ d, 0 ≤ d) (shape_ A) →
  ((N < 2)%nat →
     Part000.transpose_2d N A
     = Throw (runtime_error "Cannot transpose 1D tensor: need at least 2 dimensions"))
  ∧ ((5 ≤ N)%nat → Part000.transpose_2d N A = Ok (Part000.Tensor_default N))
  ∧ ((5 ≤ N)%nat →
     shape_ A !!! (N - 1)%nat = shape_ B !!! (N - 2)%nat →
     take (N - 2) (shape_ A) = take (N - 2) (shape_ B) →
     0 ≤ shape_ B !!! (N - 1)%nat →
     Part000.matrix_product N A B = Ok (Part000.Tensor_default N)).
Proof.
  intros Hdims. split; [|split].
  - intros HN. unfold Part000.transpose_2d. by rewrite decide_True.
  - intros HN. unfold Part000.transpose_2d, Part000.shape, Part000.result_tensor.
    rewrite decide_False by lia. rewrite has_branch_false by done.
    rewrite bind_Ok_l. apply for_loop_skip. intros k Hk.
    destruct (unflatten_below_total (shape_ A) k Hdims Hk) as (idx & ->).
    done.
  - intros HN Hinner Hbatch Hlast.
    unfold Part000.matrix_product, Part000.shape, Part000.result_tensor.
    rewrite decide_False by lia. rewrite decide_False by (by intros []).
    rewrite batch_check_passes by done. rewrite has_branch_false by done.
    rewrite bind_Ok_l, result_shape_insert by lia.
    apply for_loop_skip. intros k Hk.
    destruct (unflatten_below_total
      (<[(N - 1)%nat := shape_ B !!! (N - 1)%nat]> (shape_ A)) k) as (idx & ->);
      [by apply Forall_insert|done|].
    rewrite bind_Ok_l. unfold Part000.dot_loop.
    rewrite for_loop_skip; [done|]. intros j Hj.
    by rewrite has_branch_false.
Qed.

Lemma X15_ranks_without_branch_witness :
  let A : Tensor Z := mkTensor [1; 1; 1; 2; 3] [1; 2; 3; 4; 5; 6] in
  Part000.transpose_2d 5 A = Ok (mkTensor [1; 1; 1; 1; 1] [0]).
Proof.
  intros A.
  destruct (X15_ranks_without_branch 5 A A) as (_ & Hdefault & _).
  { repeat constructor; lia. }
  apply Hdefault. lia.
Defined.

(** ** The two transpositions, and scalar arithmetic *)

(** X16: on every well-formed rank-2 tensor the member [transpose_2d] of
    [include/utec/algebra/Tensor.h] and the free function [transpose_2d] of
    the broadcasting header return the same tensor. *)
Theorem X16_transposes_agree {T : Type} `{Numeric T} (t : Tensor T) :
  wf 2 t → TensorH.transpose_2d t = Part000.transpose_2d 2 t.
Proof.
  intros Ht.
  destruct (transpose_2d_H_spec t Ht) as (r & -> & Hwf & Htr).
  destruct (transpose_2d_000_spec t Ht) as (r' & -> & Hwf' & Htr').
  f_equal.
  destruct Htr as (rows & cols & Hst & Hsr & Hel).
  destruct Htr' as (rows' & cols' & Hst' & Hsr' & Hel').
  rewrite Hst in Hst'. simplify_eq.
  apply (wf_ext 2); [done..|congruence|].
  intros idx Hin. rewrite Hsr' in Hin.
  apply in_bounds_pair_inv in Hin as (j & i & -> & Hj & Hi).
  by rewrite Hel, Hel'.
Qed.

Lemma X16_transposes_agree_witness :
  TensorH.transpose_2d (T:=Z) (mkTensor [2; 3] [0; 0; 0; 99; 0; 0])
  = Part000.transpose_2d 2 (mkTensor [2; 3] [0; 0; 0; 99; 0; 0]).
Proof. apply X16_transposes_agree. wf_by_computation. Defined.

(** X17: with exact arithmetic on the element type, adding a scalar to every
    element and then subtracting it gives back the tensor, in the
    broadcasting header and in the bounds-checked one. *)
Theorem X17_scalar_add_then_subtract {T : Type} `{Numeric T} `{!ExactSub T}
    (t : Tensor T) (s : T) :
  Part000.operator_minus_scalar (Part000.operator_plus_scalar t s) s = t
  ∧ Checked.operator_minus_scalar (Checked.operator_plus_scalar t s) s = t.
Proof.
  assert ((λ x, sub x s) <$> ((λ x, add x s) <$> data_ t) = data_ t) as Hdata.
  { rewrite <- list_fmap_compose. rewrite <- (list_fmap_id (data_ t)) at 2.
    apply list_fmap_ext. intros k x _. simpl. apply add_sub_cancel. }
  unfold Part000.operator_minus_scalar, Part000.operator_plus_scalar,
    Checked.operator_minus_scalar, Checked.operator_plus_scalar,
    Part000.scalar_op, Checked.scalar_op; simpl.
  rewrite Hdata. by destruct t.
Qed.

Lemma X17_scalar_add_then_subtract_witness :
  let t : Tensor Z := mkTensor [3] [1; 2; 3] in
  Part000.operator_minus_scalar (Part000.operator_plus_scalar t 5) 5 = t.
Proof. intros t. apply (X17_scalar_add_then_subtract t 5). Defined.

(** X18: [operator*(const T&)] of [include/utec/algebra/Tensor.h], which
    allocates its result from the shape and stores the products one
    position at a time, returns what the copy-and-update [operator*] on a
    scalar of the broadcasting header returns, whenever the buffer has the
    length its shape announces. *)
Theorem X18_times_scalar_agree {T : Type} `{Numeric T} (N : nat) (t : Tensor T)
    (s : T) :
  inv N t →
  TensorH.operator_times_scalar t s = Ok (Part000.operator_times_scalar t s)
  ∧ TensorH.operator_times_scalar t s = Ok (Part000.scalar_times s t).
Proof.
  intros [_ Hsize]. unfold size in Hsize.
  assert (TensorH.operator_times_scalar t s = Ok (Part000.operator_times_scalar t s))
    as Heq; [|by split].
  unfold TensorH.operator_times_scalar, Part000.operator_times_scalar,
    Part000.scalar_op. simpl.
  rewrite <- (length_fmap (λ x, mul x s) (data_ t)).
  rewrite for_loop_fill_list; [done| |].
  - rewrite length_resize, length_fmap. lia.
  - intros k y rdata Hy Hl. rewrite list_lookup_fmap in Hy.
    destruct (data_ t !! k) as [x|] eqn:Hx; simplify_eq/=.
    rewrite (vec_read_nat _ _ x Hx), bind_Ok_l.
    apply vec_write_nat. apply lookup_lt_Some in Hx.
    rewrite length_fmap in Hl. lia.
Qed.

Lemma X18_times_scalar_agree_witness :
  TensorH.operator_times_scalar (T:=Z) (mkTensor [3] [2; 2; 2]) 4
  = Ok (mkTensor [3] [8; 8; 8]).
Proof.
  destruct (X18_times_scalar_agree (T:=Z) 1 (mkTensor [3] [2; 2; 2]) 4) as [Heq _];
    [split; reflexivity|].
  exact Heq.
Defined.

(** ** The transpose of a product *)

Section product_transposed.
Context {T : Type} `{Numeric T}.

(** The elements of a product at the ranks [matrix_product] handles. *)
Lemma matrix_product_elements (N : nat) (A B : Tensor T) :
  (N = 2 ∨ N = 3 ∨ N = 4)%nat → wf N A → wf N B →
  shape_ A !!! (N - 1)%nat = shape_ B !!! (N - 2)%nat →
  take (N - 2) (shape_ A) = take (N - 2) (shape_ B) →
  product (matmul_shape N (shape_ A) (shape_ B)) < 2 ^ SIZE_BITS →
  ∃ r, Part000.matrix_product N A B = Ok r
    ∧ shape_ r = matmul_shape N (shape_ A) (shape_ B)
    ∧ wf N r
    ∧ ∀ idx, in_bounds (shape_ r) idx →
        ∃ s, sum_upto (matmul_term N A B idx)
               (Z.to_nat (shape_ A !!! (N - 1)%nat)) = Some s
          ∧ elem r idx = Some s.
Proof.
  intros HN HA HB Hinner Hbatch Hfit.
  assert (2 ≤ N)%nat as HN2 by lia.
  rewrite <- (result_shape_matmul N) in * by (done || apply HA).
  unfold Part000.matrix_product, Part000.shape.
  rewrite decide_False by lia. rewrite decide_False by (by intros []).
  rewrite batch_check_passes by done.
  rewrite result_shape_insert by done.
  set (rs := <[(N - 1)%nat := shape_ B !!! (N - 1)%nat]> (shape_ A)) in *.
  assert (length rs = N) as Hrs_len by (unfold rs; rewrite length_insert; apply HA).
  assert (Forall (λ d, 0 ≤ d) rs) as Hrs_dims.
  { unfold rs. apply Forall_insert; [apply HA|].
    destruct HB as [Hrank Hdims _ _].
    apply (Forall_lookup_1 _ _ (N - 1)%nat _ Hdims).
    apply list_lookup_lookup_total_lt. lia. }
  assert (total_size rs = product rs) as Htotal.
  { apply total_size_fits. split; [by apply product_nonneg|done]. }
  unfold Part000.result_tensor. rewrite has_branch_true, args_id by done.
  unfold Part000.Tensor_dims. rewrite decide_False by lia.
  rewrite bind_Ok_l, Htotal.
  assert (wf N (mkTensor (T:=T) rs (resize [] (product rs)))) as Hwf0.
  { apply inv_wf; [|done..]. split; [done|]. rewrite <- Htotal. apply fresh_size. }
  match goal with |- context [for_loop ?n ?body ?r0] =>
    destruct (for_loop_invariant
      (λ k r, wf N r ∧ shape_ r = rs
         ∧ ∀ idx, in_bounds rs idx → offset_of rs idx < Z.of_nat k →
             ∃ s, sum_upto (matmul_term N A B idx)
                    (Z.to_nat (shape_ A !!! (N - 1)%nat)) = Some s
               ∧ elem r idx = Some s)
      body n r0) as (res & Hres & Hres_wf & Hres_shape & Hres_el)
  end.
  - split; [done|]. split; [done|]. intros idx Hin Hoff.
    pose proof (offset_of_range _ _ Hin). lia.
  - intros k r Hk (Hr & Hsr & Hpre). cbv beta.
    destruct (unflatten_in_range rs (Z.of_nat k)) as (idx & Hidx & Hin & Hoff);
      [done|lia|].
    destruct (dot_loop_spec N A B idx) as (s & Hdot & Hsum); [done..|].
    assert (length idx = N) as Hidx_len
      by (apply in_bounds_length in Hin; lia).
    rewrite Hidx, bind_Ok_l, Hdot, bind_Ok_l. rewrite args_id by done.
    assert (in_bounds (shape_ r) idx) as Hin' by by rewrite Hsr.
    destruct (assign_in_bounds N r idx s Hr Hin')
      as (r' & _ & Hassign & Hr' & Hsr' & Hnew & Hold).
    exists r'. split; [by rewrite Hassign|]. split; [done|]. split; [congruence|].
    intros idx' Hin'' Hlt.
    destruct (decide (idx' = idx)) as [->|Hne].
    + by exists s.
    + rewrite Hold by (done || by rewrite Hsr).
      apply Hpre; [done|].
      assert (offset_of rs idx' ≠ Z.of_nat k); [|lia].
      rewrite <- Hoff. intros Heq. by apply (offset_of_inj rs) in Heq.
  - exists res. split; [done|]. split; [done|]. split; [done|].
    intros idx Hin. rewrite Hres_shape in Hin. apply Hres_el; [done|].
    pose proof (offset_of_range _ _ Hin). lia.
Qed.

Lemma sum_upto_ext (f g : nat → option T) (K : nat) :
  (∀ k, (k < K)%nat → f k = g k) → sum_upto f K = sum_upto g K.
Proof.
  induction K as [|K IH]; intros Hfg; simpl; [done|].
  rewrite IH by (intros k Hk; apply Hfg; lia). by rewrite Hfg by lia.
Qed.
End product_transposed.

(** X19: when the multiplication of the element type is commutative, the
    transpose of a rank-2 product is the product of the transposes in the
    reverse order: [transpose_2d(matrix_product(A, B))] and
    [matrix_product(transpose_2d(B), transpose_2d(A))] are computed and are
    the same tensor (the sums run over [k] in the same order on both
    sides). *)
Theorem X19_transpose_of_product {T : Type} `{Numeric T} (A B : Tensor T) :
  (∀ x y : T, mul x y = mul y x) → wf 2 A → wf 2 B →
  shape_ A !!! 1%nat = shape_ B !!! 0%nat →
  product (matmul_shape 2 (shape_ A) (shape_ B)) < 2 ^ SIZE_BITS →
  ∃ r, Part000.matrix_product 2 A B ≫= Part000.transpose_2d 2 = Ok r
    ∧ (tB ← Part000.transpose_2d 2 B;
       tA ← Part000.transpose_2d 2 A;
       Part000.matrix_product 2 tB tA) = Ok r.
Proof.
  intros Hcomm HA HB Hinner Hfit.
  destruct (wf_rank2_shape A HA) as (m & K & HsA & Hm & HK & _ & _).
  destruct (wf_rank2_shape B HB) as (K' & n & HsB & HK' & Hn & _ & _).
  rewrite HsA, HsB in Hinner, Hfit.
  change (K = K') in Hinner. subst K'.
  change (product [m; n] < 2 ^ SIZE_BITS) in Hfit.
  destruct (matrix_product_elements 2 A B) as (AB & HAB & HsAB & HwAB & HelAB);
    [lia|done|done|by rewrite HsA, HsB|by rewrite HsA, HsB|by rewrite HsA, HsB|].
  rewrite HsA, HsB in HsAB. rewrite HsA in HelAB.
  change (shape_ AB = [m; n]) in HsAB.
  change ([m; K] !!! (2 - 1)%nat) with K in HelAB.
  destruct (transpose_2d_000_spec AB HwAB) as (r1 & Hr1 & Hwr1 & Htr1).
  destruct (transpose_2d_000_spec A HA) as (tA & HtA & HwtA & HtrA).
  destruct (transpose_2d_000_spec B HB) as (tB & HtB & HwtB & HtrB).
  destruct Htr1 as (m1 & n1 & Hs & Hsr1 & Hel1). rewrite HsAB in Hs.
  injection Hs as <- <-.
  destruct HtrA as (m1 & K1 & Hs & HstA & HelA). rewrite HsA in Hs.
  injection Hs as <- <-.
  destruct HtrB as (K1 & n1 & Hs & HstB & HelB). rewrite HsB in Hs.
  injection Hs as <- <-.
  destruct (matrix_product_elements 2 tB tA) as (r2 & Hr2 & Hsr2 & Hwr2 & Helr2);
    [lia|done|done|by rewrite HstA, HstB|by rewrite HstA, HstB| |].
  { rewrite HstA, HstB. change (product [n; m] < 2 ^ SIZE_BITS).
    simpl in *. lia. }
  rewrite HstA, HstB in Hsr2. rewrite HstB in Helr2.
  change (shape_ r2 = [n; m]) in Hsr2.
  change ([n; K] !!! (2 - 1)%nat) with K in Helr2.
  exists r1. split; [by rewrite HAB, bind_Ok_l|].
  rewrite HtB, bind_Ok_l, HtA, bind_Ok_l, Hr2. f_equal.
  apply (wf_ext 2); [done..|congruence|].
  intros idx Hin. rewrite Hsr1 in Hin.
  apply in_bounds_pair_inv in Hin as (j & i & -> & Hj & Hi).
  destruct (HelAB [i; j]) as (s & Hs & HABij).
  { rewrite HsAB. by apply in_bounds_pair. }
  destruct (Helr2 [j; i]) as (s' & Hs' & Hr2ji).
  { rewrite Hsr2. by apply in_bounds_pair. }
  rewrite Hel1, HABij, Hr2ji by done. rewrite <- Hs, <- Hs'.
  apply sum_upto_ext. intros k Hk. unfold matmul_term.
  change (<[(2 - 1)%nat := Z.of_nat k]> [j; i]) with [j; Z.of_nat k].
  change (<[(2 - 2)%nat := Z.of_nat k]> [j; i]) with [Z.of_nat k; i].
  change (<[(2 - 1)%nat := Z.of_nat k]> [i; j]) with [i; Z.of_nat k].
  change (<[(2 - 2)%nat := Z.of_nat k]> [i; j]) with [Z.of_nat k; j].
  rewrite HelB, HelA by lia.
  destruct (elem A [i; Z.of_nat k]) as [x|], (elem B [Z.of_nat k; j]) as [y|];
    simpl; [|done..]. by rewrite Hcomm.
Qed.

Lemma X19_transpose_of_product_witness :
  let A : Tensor Z := mkTensor [2; 3] [1; 2; 3; 4; 5; 6] in
  let B : Tensor Z := mkTensor [3; 2] [1; 0; 2; 1; 0; 3] in
  ∃ r, Part000.matrix_product 2 A B ≫= Part000.transpose_2d 2 = Ok r
    ∧ (tB ← Part000.transpose_2d 2 B;
       tA ← Part000.transpose_2d 2 A;
       Part000.matrix_product 2 tB tA) = Ok r.
Proof.
  intros A B. apply (X19_transpose_of_product A B).
  - intros x y. apply Z.mul_comm.
  - wf_by_computation.
  - wf_by_computation.
  - reflexivity.
  - reflexivity.
Defined.

(** ** Rendering *)

Section rendering.
Context {T : Type} `{Numeric T}.

Lemma sep_if {A : Type} (P Q : Prop) `{!Decision P, !Decision Q}
    (os l sep : list A) :
  (P ↔ Q) →
  (if decide P then (os ++ l) ++ sep else os ++ l)
  = os ++ l ++ (if decide Q then sep else []).
Proof.
  intros HPQ. destruct (decide P), (decide Q); try tauto.
  - by rewrite <- app_assoc.
  - by rewrite app_nil_r.
Qed.

(** A loop that appends [f k] in round [k], and [sep] unless the round is
    the last one, appends the join of the [f k]. *)
Lemma foldM_join {A : Type} (f : nat → list A) (sep : list A)
    (body : nat → list A → outcome (list A)) (n start len : nat) (os : list A) :
  (start + len = n)%nat →
  (∀ k os, (start ≤ k < n)%nat →
     body k os = Ok (os ++ f k ++ (if decide (k + 1 < n)%nat then sep else []))) →
  foldM body (seq start len) os = Ok (os ++ join sep (f <$> seq start len)).
Proof.
  revert start os. induction len as [|len IH]; intros start os Hn Hbody.
  - simpl. by rewrite app_nil_r.
  - cbn [seq foldM]. rewrite Hbody by lia. rewrite bind_Ok_l.
    rewrite IH by (try lia; intros; apply Hbody; lia).
    f_equal. destruct len as [|len].
    + simpl. rewrite decide_False by lia. by rewrite !app_nil_r.
    + cbn [seq fmap list_fmap join]. rewrite decide_True by lia.
      by rewrite <- !app_assoc.
Qed.

Lemma for_loop_join {A : Type} (f : nat → list A) (sep : list A)
    (body : nat → list A → outcome (list A)) (n : nat) (os : list A) :
  (∀ k os, (k < n)%nat →
     body k os = Ok (os ++ f k ++ (if decide (k + 1 < n)%nat then sep else []))) →
  for_loop n body os = Ok (os ++ join sep (f <$> seq 0 n)).
Proof.
  intros Hbody. apply (foldM_join f sep body n); [lia|].
  intros k os' Hk. apply Hbody. lia.
Qed.

Lemma fmap_seq_lookup {A B : Type} (g : A → B) (dflt : B) (l : list A)
    (off n : nat) :
  (off + n ≤ length l)%nat →
  (λ j, match l !! (off + j)%nat with Some x => g x | None => dflt end)
    <$> seq 0 n
  = g <$> take n (drop off l).
Proof.
  intros Hlen. apply list_eq. intros i. rewrite !list_lookup_fmap.
  destruct (decide (i < n)%nat) as [Hi|Hi].
  - rewrite lookup_seq_lt, lookup_take_lt, lookup_drop by done. simpl.
    destruct (l !! (off + i)%nat) as [x|] eqn:Hx; [done|].
    apply lookup_ge_None in Hx. lia.
  - by rewrite lookup_seq_ge, lookup_take_ge by lia.
Qed.

Lemma fmap_seq_ext {A : Type} (f g : nat → A) (start len : nat) :
  (∀ k, (start ≤ k < start + len)%nat → f k = g k) →
  f <$> seq start len = g <$> seq start len.
Proof.
  intros Hfg. apply list_fmap_ext. intros i k [-> Hi]%lookup_seq.
  apply Hfg. lia.
Qed.

Lemma chunks_S {A : Type} (len count : nat) (l : list A) :
  chunks len (S count) l = take len l :: chunks len count (drop len l).
Proof.
  unfold chunks. cbn [seq fmap list_fmap]. f_equal.
  rewrite <- fmap_S_seq, <- list_fmap_compose. apply list_fmap_ext.
  intros _ i _. simpl. rewrite drop_drop. done.
Qed.

Lemma concat_chunks {A : Type} (len count : nat) (l : list A) :
  length l = (count * len)%nat → concat (chunks len count l) = l.
Proof.
  revert l. induction count as [|count IH]; intros l Hlen.
  - by destruct l.
  - rewrite chunks_S. simpl. rewrite IH, take_drop; [done|].
    rewrite length_drop. lia.
Qed.

Lemma chunks_take {A : Type} (len count m : nat) (l : list A) :
  (count * len ≤ m)%nat → chunks len count (take m l) = chunks len count l.
Proof.
  intros Hm. unfold chunks. apply fmap_seq_ext. intros i Hi.
  rewrite !take_drop_commute, take_take. do 2 f_equal. nia.
Qed.

Lemma chunks_length {A : Type} (len count : nat) (l : list A) :
  (count * len ≤ length l)%nat →
  Forall (λ c, length c = len) (chunks len count l).
Proof.
  intros Hlen. unfold chunks. apply Forall_fmap, Forall_forall.
  intros i [j [-> Hj]%lookup_seq]%list_elem_of_lookup. simpl.
  rewrite length_take, length_drop. nia.
Qed.

(** The flat loop: the shape is not read. *)
Lemma insert_flat_spec (os : ostream T) (t : Tensor T) :
  size t < 2 ^ SIZE_BITS →
  Part000.insert_flat os t = Ok (os ++ render_flat (data_ t)).
Proof.
  intros Hfit. unfold Part000.insert_flat, render_flat.
  rewrite (for_loop_join
    (λ i, match data_ t !! (0 + i)%nat with Some x => [Elem x] | None => [] end)
    [Text ", "]).
  - rewrite bind_Ok_l, (fmap_seq_lookup (λ x, [Elem x])) by (simpl; lia).
    rewrite drop_0, take_ge by done. by rewrite <- !app_assoc.
  - intros k os' Hk. simpl.
    destruct (lookup_lt_is_Some_2 (data_ t) k Hk) as [x Hx].
    rewrite (vec_read_nat _ _ _ Hx), Hx, bind_Ok_l. cbv zeta. f_equal.
    apply sep_if. unfold size in *. rewrite wrap_small by lia. lia.
Qed.

(** The loops over the rows and the columns of one matrix, whose elements
    are read at the positions [idx j k]. *)
Lemma rows_loop (data : list T) (idx : nat → nat → Z) (base rows cols : nat)
    (dr dc : Z) (os : ostream T) :
  dr = Z.of_nat rows → dc = Z.of_nat cols →
  dr < 2 ^ SIZE_BITS → dc < 2 ^ SIZE_BITS →
  (base + rows * cols ≤ length data)%nat →
  (∀ j k, (j < rows)%nat → (k < cols)%nat →
     Z.to_nat (idx j k) = (base + j * cols + k)%nat) →
  for_loop rows
    (λ j os,
       os ← for_loop cols
         (λ k os,
            x ← vec_read data (idx j k);
            let os := os ++ [Elem x] in
            Ok (if decide (wrap (Z.of_nat k + 1) < dc)
                then os ++ [Text " "] else os))
         os;
       Ok (if decide (wrap (Z.of_nat j + 1) < dr)
           then os ++ [Text newline] else os))
    os
  = Ok (os ++ join [Text newline]
                (render_row <$> chunks cols rows (drop base data))).
Proof.
  intros -> -> Hr Hc Hlen Hidx.
  rewrite (for_loop_join
    (λ j, render_row (take cols (drop (j * cols) (drop base data))))
    [Text newline]).
  - unfold chunks. by rewrite <- list_fmap_compose.
  - intros j os' Hj.
    rewrite (for_loop_join
      (λ k, match data !! ((base + j * cols) + k)%nat with
            | Some x => [Elem x] | None => [] end)
      [Text " "]).
    + rewrite bind_Ok_l, (fmap_seq_lookup (λ x, [Elem x])) by nia.
      rewrite drop_drop. unfold render_row. cbv beta. f_equal.
      apply sep_if. rewrite wrap_small by lia. lia.
    + intros k os'' Hk.
      assert (base + j * cols + k < length data)%nat as Hlt by nia.
      destruct (lookup_lt_is_Some_2 data _ Hlt) as [x Hx].
      rewrite (vec_read_Ok _ _ x), Hx, bind_Ok_l by (by rewrite Hidx).
      cbv zeta. f_equal. apply sep_if. rewrite wrap_small by lia. lia.
Qed.

Lemma to_nat_affine (j k : nat) (c : Z) :
  0 ≤ c → Z.to_nat (Z.of_nat j * c + Z.of_nat k) = (j * Z.to_nat c + k)%nat.
Proof.
  intros Hc. rewrite Z2Nat.inj_add, Z2Nat.inj_mul, !Nat2Z.id by nia. done.
Qed.

Lemma to_nat_mul (a b : Z) :
  0 ≤ a → 0 ≤ b → Z.to_nat (a * b) = (Z.to_nat a * Z.to_nat b)%nat.
Proof. intros. by rewrite Z2Nat.inj_mul. Qed.

(** [operator<<] of the broadcasting header writes the text [render]. *)
Lemma operator_insert_000_spec (N : nat) (os : ostream T) (t : Tensor T) :
  wf N t → Forall (λ d, d < 2 ^ SIZE_BITS) (shape_ t) →
  Part000.operator_insert N os t = Ok (os ++ render N t).
Proof.
  intros [Hrank Hdims Hsize Hfits] Hword.
  assert (size t < 2 ^ SIZE_BITS) as Hfit by by rewrite Hsize.
  unfold Part000.operator_insert, render.
  destruct (decide (N = 1%nat)) as [->|HN1].
  { simpl. by apply insert_flat_spec. }
  destruct (decide (N = 2%nat)) as [->|HN2].
  { destruct t as [[|r [|c [|? ?]]] data]; simplify_eq/=.
    apply Forall_cons in Hdims as [Hr [Hc _]%Forall_cons].
    apply Forall_cons in Hword as [Hr' [Hc' _]%Forall_cons].
    unfold size in Hsize, Hfit; simpl in Hsize, Hfit.
    assert (length data = (Z.to_nat r * Z.to_nat c)%nat) as Hlen.
    { rewrite <- to_nat_mul by done. lia. }
    unfold render_matrix.
    change (r :: c :: [] !!! 0%nat) with r.
    rewrite (rows_loop data (λ i j, wrap (wrap (Z.of_nat i * c) + Z.of_nat j))
               0 (Z.to_nat r) (Z.to_nat c) r c); try lia.
    - rewrite bind_Ok_l, drop_0. by rewrite <- !app_assoc.
    - intros j k Hj Hk.
      assert (Z.of_nat j < r ∧ Z.of_nat k < c) as [Hj' Hk'] by lia.
      assert (0 ≤ Z.of_nat j * c ≤ Z.of_nat j * c + Z.of_nat k
              ∧ Z.of_nat j * c + Z.of_nat k < r * (c * 1)) by nia.
      rewrite (wrap_small (Z.of_nat j * c)) by lia.
      rewrite wrap_small by lia. by rewrite to_nat_affine. }
  destruct (decide (N = 3%nat)) as [->|HN3]; [|by apply insert_flat_spec].
  destruct t as [[|d0 [|d1 [|d2 [|? ?]]]] data]; simplify_eq/=.
  apply Forall_cons in Hdims as [H0 [H1 [H2 _]%Forall_cons]%Forall_cons].
  apply Forall_cons in Hword as [H0' [H1' [H2' _]%Forall_cons]%Forall_cons].
  unfold size in Hsize, Hfit; simpl in Hsize, Hfit.
  assert (length data = (Z.to_nat d0 * (Z.to_nat d1 * Z.to_nat d2))%nat) as Hlen.
  { rewrite <- !to_nat_mul by nia. lia. }
  unfold render_cube.
  rewrite (for_loop_join
    (λ i, render_matrix (Z.to_nat d1) (Z.to_nat d2)
            (take (Z.to_nat d1 * Z.to_nat d2)
               (drop (i * (Z.to_nat d1 * Z.to_nat d2)) data)))
    [Text newline]).
  - rewrite bind_Ok_l. unfold chunks. rewrite <- list_fmap_compose.
    by rewrite <- !app_assoc.
  - intros i os' Hi.
    rewrite (rows_loop data
               (λ j k, wrap (wrap (wrap (wrap (Z.of_nat i * d1) * d2)
                                    + wrap (Z.of_nat j * d2))
                             + Z.of_nat k))
               (i * (Z.to_nat d1 * Z.to_nat d2)) (Z.to_nat d1) (Z.to_nat d2)
               d1 d2); try lia.
    + rewrite bind_Ok_l. cbv zeta. unfold render_matrix.
      rewrite chunks_take by lia.
      set (J := join [Text newline] _).
      assert (((os' ++ [Text ("{" +:+ newline)]) ++ J) ++ [Text (newline +:+ "}")]
              = os' ++ ([Text ("{" +:+ newline)] ++ J ++ [Text (newline +:+ "}")]))
        as -> by (by rewrite <- !app_assoc).
      f_equal. apply sep_if. rewrite wrap_small by lia. lia.
    + nia.
    + intros j k Hj Hk.
      assert (Z.of_nat i < d0 ∧ Z.of_nat j < d1 ∧ Z.of_nat k < d2)
        as (Hi' & Hj' & Hk') by lia.
      assert (Z.of_nat i * d1 + Z.of_nat j + 1 ≤ d0 * d1) by nia.
      assert ((Z.of_nat i * d1 + Z.of_nat j) * d2 + Z.of_nat k + 1
              ≤ d0 * d1 * d2) by nia.
      assert (0 ≤ Z.of_nat i * d1 ∧ 0 ≤ Z.of_nat i * d1 * d2
              ∧ 0 ≤ Z.of_nat j * d2) as (? & ? & ?) by nia.
      assert (Z.of_nat i * d1 ≤ Z.of_nat i * d1 * d2) by nia.
      rewrite (wrap_small (Z.of_nat i * d1)) by lia.
      rewrite (wrap_small (Z.of_nat i * d1 * d2)) by lia.
      rewrite (wrap_small (Z.of_nat j * d2)) by lia.
      rewrite (wrap_small (Z.of_nat i * d1 * d2 + Z.of_nat j * d2)) by lia.
      rewrite wrap_small by lia.
      replace (Z.of_nat i * d1 * d2 + Z.of_nat j * d2 + Z.of_nat k)
        with (Z.of_nat (i * Z.to_nat d1 + j) * d2 + Z.of_nat k) by nia.
      rewrite to_nat_affine by done. nia.
Qed.

(** *** The elements of a text *)

Lemma elements_app (os1 os2 : ostream T) :
  elements (os1 ++ os2) = elements os1 ++ elements os2.
Proof. apply omap_app. Qed.

Lemma elements_concat (ls : list (ostream T)) :
  elements (concat ls) = concat (elements <$> ls).
Proof.
  induction ls as [|l ls IH]; [done|]. simpl. by rewrite elements_app, IH.
Qed.

Lemma elements_join (sep : ostream T) (ls : list (ostream T)) :
  elements sep = [] → elements (join sep ls) = concat (elements <$> ls).
Proof.
  intros Hsep. induction ls as [|l ls IH]; [done|].
  destruct ls as [|l' ls]; [simpl; by rewrite app_nil_r|].
  change (join sep (l :: l' :: ls)) with (l ++ sep ++ join sep (l' :: ls)).
  by rewrite !elements_app, Hsep, IH.
Qed.

Lemma concat_fmap_chunks (f : list T → list T) (len count : nat) (l : list T) :
  length l = (count * len)%nat →
  (∀ c, length c = len → f c = c) →
  concat (f <$> chunks len count l) = l.
Proof.
  intros Hlen Hf. rewrite <- (concat_chunks len count l) at 2 by done.
  f_equal. rewrite <- (list_fmap_id (chunks len count l)) at 2.
  apply Forall_fmap_ext_1. eapply Forall_impl; [apply chunks_length; lia|].
  intros c Hc. by apply Hf.
Qed.

Lemma elements_render_row (row : list T) : elements (render_row row) = row.
Proof.
  unfold render_row. rewrite elements_join by done.
  induction row as [|x row IH]; [done|]. simpl. by f_equal.
Qed.

Lemma elements_render_flat (data : list T) :
  elements (render_flat data) = data.
Proof.
  unfold render_flat. rewrite !elements_app, elements_join by done. simpl.
  rewrite app_nil_r. induction data as [|x data IH]; [done|]. simpl. by f_equal.
Qed.

Lemma elements_render_matrix (rows cols : nat) (data : list T) :
  length data = (rows * cols)%nat →
  elements (render_matrix rows cols data) = data.
Proof.
  intros Hlen. unfold render_matrix.
  rewrite !elements_app, elements_join by done. simpl. rewrite app_nil_r.
  rewrite <- list_fmap_compose. apply concat_fmap_chunks; [done|].
  intros c _. apply elements_render_row.
Qed.

Lemma elements_render_cube (d0 d1 d2 : nat) (data : list T) :
  length data = (d0 * (d1 * d2))%nat →
  elements (render_cube d0 d1 d2 data) = data.
Proof.
  intros Hlen. unfold render_cube.
  rewrite !elements_app, elements_join by done. simpl. rewrite app_nil_r.
  rewrite <- list_fmap_compose. apply concat_fmap_chunks; [done|].
  intros c Hc. by apply elements_render_matrix.
Qed.

Lemma elements_render (N : nat) (t : Tensor T) :
  wf N t → elements (render N t) = data_ t.
Proof.
  intros [Hrank Hdims Hsize Hfits]. unfold render.
  destruct (decide (N = 2%nat)) as [->|HN2].
  { destruct t as [[|r [|c [|? ?]]] data]; simplify_eq/=.
    apply Forall_cons in Hdims as [Hr [Hc _]%Forall_cons].
    unfold size in Hsize; simpl in Hsize.
    apply elements_render_matrix. rewrite <- to_nat_mul by done. lia. }
  destruct (decide (N = 3%nat)) as [->|HN3]; [|apply elements_render_flat].
  destruct t as [[|d0 [|d1 [|d2 [|? ?]]]] data]; simplify_eq/=.
  apply Forall_cons in Hdims as [H0 [H1 [H2 _]%Forall_cons]%Forall_cons].
  unfold size in Hsize; simpl in Hsize.
  apply elements_render_cube. rewrite <- !to_nat_mul by nia. lia.
Qed.

Lemma elements_render_nested (shape : list Z) (data : list T) :
  shape ≠ [] → Forall (λ d, 0 ≤ d) shape →
  Z.of_nat (length data) = product shape →
  elements (render_nested shape data) = data.
Proof.
  revert data. induction shape as [|d shape IH]; intros data Hne Hdims Hlen;
    [done|].
  apply Forall_cons in Hdims as [Hd Hdims].
  destruct shape as [|d' shape].
  - simpl. clear. induction data as [|x data IH]; [done|]. simpl. by f_equal.
  - assert (d' :: shape ≠ []) as Hne' by done.
    change (product (d :: d' :: shape)) with (d * product (d' :: shape)) in Hlen.
    change (render_nested (d :: d' :: shape) data)
      with ([Text ("{" +:+ newline)]
            ++ concat ((λ block, render_nested (d' :: shape) block ++ [Text newline])
                         <$> chunks (Z.to_nat (product (d' :: shape)))
                               (Z.to_nat d) data)
            ++ [Text "}"]).
    pose proof (product_nonneg _ Hdims) as Hrest.
    set (rest := d' :: shape) in *.
    rewrite !elements_app, elements_concat.
    change (elements [Text ("{" +:+ newline)]) with (@nil T).
    change (elements [Text "}"]) with (@nil T).
    rewrite app_nil_r, app_nil_l, <- list_fmap_compose.
    apply concat_fmap_chunks.
    + rewrite <- to_nat_mul by done. lia.
    + intros c Hc. unfold compose. rewrite elements_app.
      change (elements [Text newline]) with (@nil T). rewrite app_nil_r.
      apply IH; [done|done|]. rewrite Hc. lia.
Qed.

(** *** [print_tensor] of the bounds-checked header *)

Lemma print_tensor_last (os : ostream T) (data : list T) (d depth offset : Z) :
  Checked.print_tensor os data [d] depth offset
  = for_loop (Z.to_nat d)
      (λ i os,
         x ← vec_read data (wrap (offset + Z.of_nat i));
         Ok (os ++ [Elem x; Text " "]))
      os.
Proof. done. Qed.

Lemma print_tensor_cons (os : ostream T) (data : list T) (d d' : Z)
    (shape : list Z) (depth offset : Z) :
  Checked.print_tensor os data (d :: d' :: shape) depth offset
  = os ← for_loop (Z.to_nat d)
      (λ i os,
         os ← Checked.print_tensor os data (d' :: shape) (depth + 1)
                (wrap (offset + wrap (Z.of_nat i * total_size (d' :: shape))));
         Ok (os ++ [Text newline]))
      (os ++ [Text ("{" +:+ newline)]);
    Ok (os ++ [Text "}"]).
Proof. done. Qed.

(** A loop that appends [g k] in round [k]. *)
Lemma foldM_append {A : Type} (g : nat → list A)
    (body : nat → list A → outcome (list A)) (start len : nat) (os : list A) :
  (∀ k os, (start ≤ k < start + len)%nat → body k os = Ok (os ++ g k)) →
  foldM body (seq start len) os = Ok (os ++ concat (g <$> seq start len)).
Proof.
  revert start os. induction len as [|len IH]; intros start os Hbody.
  - simpl. by rewrite app_nil_r.
  - cbn [seq foldM]. rewrite Hbody by lia. rewrite bind_Ok_l.
    rewrite IH by (intros; apply Hbody; lia).
    simpl. by rewrite <- app_assoc.
Qed.

Lemma for_loop_append {A : Type} (g : nat → list A)
    (body : nat → list A → outcome (list A)) (n : nat) (os : list A) :
  (∀ k os, (k < n)%nat → body k os = Ok (os ++ g k)) →
  for_loop n body os = Ok (os ++ concat (g <$> seq 0 n)).
Proof. intros Hbody. apply foldM_append. intros k os' Hk. apply Hbody. lia. Qed.

Lemma print_tensor_spec (shape : list Z) (data : list T) :
  shape ≠ [] → Forall (λ d, 0 ≤ d) shape →
  Z.of_nat (length data) < 2 ^ SIZE_BITS →
  ∀ (os : ostream T) (depth : Z) (offset : nat),
    Z.of_nat offset + product shape ≤ Z.of_nat (length data) →
    Checked.print_tensor os data shape depth (Z.of_nat offset)
    = Ok (os ++ render_nested shape
                  (take (Z.to_nat (product shape)) (drop offset data))).
Proof.
  intros Hne Hdims Hfit.
  induction shape as [|d shape IH]; [done|].
  apply Forall_cons in Hdims as [Hd Hdims].
  pose proof (product_nonneg _ Hdims) as Hrest.
  destruct shape as [|d' shape]; intros os depth offset Hoff.
  - rewrite print_tensor_last. simpl in Hoff.
    rewrite (for_loop_append
      (λ i, match data !! (offset + i)%nat with
            | Some x => [Elem x; Text " "] | None => [] end)).
    + rewrite (fmap_seq_lookup (λ x, [Elem x; Text " "])) by lia.
      simpl. by rewrite Z.mul_1_r.
    + intros k os' Hk.
      assert (offset + k < length data)%nat as Hlt by lia.
      destruct (lookup_lt_is_Some_2 data _ Hlt) as [x Hx].
      rewrite wrap_small by lia.
      rewrite (vec_read_Ok _ _ x), Hx by (by rewrite <- Nat2Z.inj_add, Nat2Z.id).
      done.
  - rewrite print_tensor_cons.
    change (product (d :: d' :: shape)) with (d * product (d' :: shape)) in *.
    set (rest := d' :: shape) in *.
    rewrite (for_loop_append
      (λ i, render_nested rest
              (take (Z.to_nat (product rest))
                 (drop (offset + i * Z.to_nat (product rest)) data))
            ++ [Text newline])).
    + rewrite bind_Ok_l.
      change (render_nested (d :: rest) ?l)
        with ([Text ("{" +:+ newline)]
              ++ concat ((λ block, render_nested rest block ++ [Text newline])
                           <$> chunks (Z.to_nat (product rest)) (Z.to_nat d) l)
              ++ [Text "}"]).
      rewrite to_nat_mul, chunks_take by lia.
      unfold chunks. rewrite <- list_fmap_compose. rewrite <- !app_assoc.
      do 5 f_equal. apply fmap_seq_ext. intros i _. simpl.
      by rewrite drop_drop.
    + intros i os' Hi.
      assert (Z.of_nat i < d) as Hi' by lia.
      assert (0 ≤ Z.of_nat i * product rest
              ∧ Z.of_nat i * product rest + product rest ≤ d * product rest)
        as [? ?] by nia.
      rewrite total_size_fits by lia.
      rewrite (wrap_small (Z.of_nat i * product rest)) by lia.
      rewrite wrap_small by lia.
      replace (Z.of_nat offset + Z.of_nat i * product rest)
        with (Z.of_nat (offset + i * Z.to_nat (product rest))) by nia.
      rewrite IH; [|by subst rest|done|].
      { rewrite bind_Ok_l. cbv beta. by rewrite <- app_assoc. }
      rewrite Nat2Z.inj_add, Nat2Z.inj_mul, Z2Nat.id by done. lia.
Qed.

End rendering.

(** X20 ([operator<<] of the broadcasting header).  For a tensor of rank
    [N] whose axis sizes are [size_t] values, the operator returns normally
    and appends the text [render N t] to the stream: at rank 2 the rows
    between braces, one row a line, its elements separated by one blank; at
    rank 3 the matrices of the first axis, each rendered like a rank-2
    tensor, between braces; at every other rank the whole buffer between
    brackets, separated by a comma and a blank, whatever the shape.  No
    separator follows the last item, and the text holds every element of
    the buffer exactly once, in row-major order. *)
Theorem X20_rendering {T : Type} `{Numeric T} (N : nat) (os : ostream T)
    (t : Tensor T) :
  wf N t → Forall (λ d, d < 2 ^ SIZE_BITS) (shape_ t) →
  Part000.operator_insert N os t = Ok (os ++ render N t)
  ∧ elements (render N t) = data_ t.
Proof.
  intros Hwf Hword. split.
  - by apply operator_insert_000_spec.
  - by apply elements_render.
Qed.

(** X21 ([operator<<] and [print_tensor] of the bounds-checked header).
    For a tensor of rank at least 1 the operator returns normally and
    appends the text [render_nested]: along the last axis every element is
    followed by a blank (also the last one); along every other axis the
    blocks stand between an opening brace with a line break and a closing
    brace, and every block is followed by a line break.  The text holds
    every element of the buffer exactly once, in row-major order. *)
Theorem X21_nested_rendering {T : Type} `{Numeric T} (N : nat)
    (os : ostream T) (t : Tensor T) :
  (1 ≤ N)%nat → wf N t →
  Checked.operator_insert os t
  = Ok (os ++ render_nested (shape_ t) (data_ t))
  ∧ elements (render_nested (shape_ t) (data_ t)) = data_ t.
Proof.
  intros HN [Hrank Hdims Hsize Hfits].
  assert (shape_ t ≠ []) as Hne.
  { intros Hnil. rewrite Hnil in Hrank. simpl in Hrank. lia. }
  unfold size in Hsize. split.
  - unfold Checked.operator_insert.
    rewrite (print_tensor_spec _ _ Hne Hdims) with (offset := 0%nat) by lia.
    by rewrite drop_0, take_ge by lia.
  - by apply elements_render_nested.
Qed.

Lemma X20_rendering_witness :
  let t : Tensor Z := mkTensor [2; 2] [1; 2; 3; 4] in
  Part000.operator_insert 2 [] t = Ok ([] ++ render 2 t)
  ∧ elements (render 2 t) = data_ t.
Proof.
  intros t. apply (X20_rendering 2 [] t).
  - wf_by_computation.
  - by repeat constructor.
Defined.

Lemma X21_nested_rendering_witness :
  let t : Tensor Z := mkTensor [2; 2] [1; 2; 3; 4] in
  Checked.operator_insert [] t
  = Ok ([] ++ render_nested (shape_ t) (data_ t))
  ∧ elements (render_nested (shape_ t) (data_ t)) = data_ t.
Proof.
  intros t. apply (X21_nested_rendering 2 [] t).
  - lia.
  - wf_by_computation.
Defined.
